(** * BER-TLV codec and tag collection (tlv.c / tlv.h): shallow embedding

    The C functions of [tlv.c] are embedded as computations in a small
    monad over a byte-addressed heap.  Every load and store is logged, so
    that the memory footprint of a call is part of its result.

    Conventions of the embedding:
    - pointers are addresses in [Z]; [NULL] is address 0;
    - [uchar] values are in [0,256), [ushort] values in [0,65536); the
      conversions that C performs on assignment are written out with
      [uchar] and [ushort];
    - [int] arithmetic is done in [Z]: every [int] the code computes is a
      sum or difference of a few [ushort]s or of buffer offsets, far from
      the 32-bit range;
    - a struct passed by pointer ([TLV *], [TLVbuf *]) is passed by value
      and returned updated;
    - loops run on fuel, computed from their bound where the code has
      one and passed as an argument where it has none; a computation that
      exhausts its fuel yields [None];
    - a call that C leaves undefined yields [None] as well.  There is one
      in the code: the [memcpy] of [tb_del] on ranges that overlap, which
      [tb_add] and [tb_addbuf] reach under policy 1 only. *)

From Stdlib Require Import ZArith List Lia Bool.
Import ListNotations.
Open Scope Z_scope.

(** ** Machine integers *)

Definition uchar (x : Z) : Z := x mod 256.
Definition ushort (x : Z) : Z := x mod 65536.

(** ** Constants of tlv.h and errno.h *)

Definition TAG_SEQ : Z := 0x1f.
Definition TAG_NEXT : Z := 0x80.
Definition TAG_CONSTR : Z := 0x20.
Definition LEN_BYTES : Z := 0x80.

(** Linux values of the <errno.h> codes used by [tb_add]. *)
Definition EEXIST : Z := 17.
Definition EINVAL : Z := 22.
Definition EPIPE : Z := 32.

Definition NULL : Z := 0.

(** ** Heap, access log and the monad *)

Inductive access : Type :=
| Load (a : Z)
| Store (a : Z).

Definition addr_of (e : access) : Z :=
  match e with Load a => a | Store a => a end.

Definition is_store (e : access) : bool :=
  match e with Load _ => false | Store _ => true end.

Definition heap : Type := Z -> Z.

Definition upd (h : heap) (a x : Z) : heap :=
  fun b => if b =? a then x else h b.

Definition M (A : Type) : Type := heap -> option (A * heap * list access).

Definition ret {A : Type} (x : A) : M A := fun h => Some (x, h, []).

Definition bind {A B : Type} (m : M A) (f : A -> M B) : M B :=
  fun h =>
    match m h with
    | None => None
    | Some (a, h1, t1) =>
        match f a h1 with
        | None => None
        | Some (b, h2, t2) => Some (b, h2, t1 ++ t2)
        end
    end.

Definition out_of_fuel {A : Type} : M A := fun _ => None.

(** A call that C leaves without defined behaviour has no value either. *)
Definition undefined {A : Type} : M A := fun _ => None.

Notation "x <- m ;; k" := (bind m (fun x => k))
  (at level 61, m at next level, right associativity).
Notation "' p <- m ;; k" := (bind m (fun x => match x with p => k end))
  (at level 61, p pattern, m at next level, right associativity).
Notation "m ;;; k" := (bind m (fun _ => k))
  (at level 61, right associativity).

(** [rbuf[i]] read as an [uchar]. *)
Definition load (a : Z) : M Z := fun h => Some (uchar (h a), h, [Load a]).

(** [*b = x] with the conversion to [uchar]. *)
Definition store (a x : Z) : M unit :=
  fun h => Some (tt, upd h a (uchar x), [Store a]).

(** [memcpy(dst, src, n)], as a byte copy.  C defines the call only for
    ranges that do not overlap, which [apart] tests.  In [tb_add] the
    source is the value handed in by the caller; in [tb_del] both ranges
    lie in the buffer of the collection, and the call is made under the
    test of [apart]. *)
Fixpoint memcpy (n : nat) (dst src : Z) : M unit :=
  match n with
  | O => ret tt
  | S k => c <- load src;; store dst c;;; memcpy k (dst + 1) (src + 1)
  end.

(** [dst, dst + n) and [src, src + n) do not overlap. *)
Definition apart (dst src : Z) (n : nat) : bool :=
  (dst + Z.of_nat n <=? src) || (src + Z.of_nat n <=? dst).

(** [memset(dst, c, n)]. *)
Fixpoint memset (n : nat) (dst c : Z) : M unit :=
  match n with
  | O => ret tt
  | S k => store dst c;;; memset k (dst + 1) c
  end.

(** ** Data model (tlv.h) *)

(** [struct TLV { ushort t; ushort l; uchar *v; }]. *)
Record TLV : Type := mkTLV { tlv_t : Z; tlv_l : Z; tlv_v : Z }.

(** [struct TLVbuf { ushort mlen; ushort len; uchar *buf; }]. *)
Record TLVbuf : Type := mkTLVbuf { tb_mlen : Z; tb_len : Z; tb_buf : Z }.

Definition set_t (x : TLV) (t : Z) : TLV := mkTLV t (tlv_l x) (tlv_v x).
Definition set_l (x : TLV) (l : Z) : TLV := mkTLV (tlv_t x) l (tlv_v x).
Definition set_v (x : TLV) (v : Z) : TLV := mkTLV (tlv_t x) (tlv_l x) v.
Definition set_len (tb : TLVbuf) (n : Z) : TLVbuf :=
  mkTLVbuf (tb_mlen tb) n (tb_buf tb).

(** ** TagCodec *)

(** [tlv_tag0]: the first encoded byte of a tag. *)
Definition tlv_tag0 (tag : Z) : Z :=
  if tag >? 0xff then Z.shiftr tag 8 else tag.

(** [while (i < rlen && rbuf[i]==0x00) i++;] *)
Fixpoint skip_filler (fuel : nat) (rbuf rlen i : Z) : M Z :=
  if i <? rlen then
    c <- load (rbuf + i);;
    if c =? 0 then
      match fuel with
      | O => out_of_fuel
      | S k => skip_filler k rbuf rlen (i + 1)
      end
    else ret i
  else ret i.

(** [do { i++; *tag <<= 8; *tag |= rbuf[i]; }
    while (i < rlen && (rbuf[i]&TAG_NEXT) != 0);]
    The body reads [rbuf[i]] before the bound on [i] is tested. *)
Fixpoint tag_more (fuel : nat) (rbuf rlen i tag : Z) : M (Z * Z) :=
  let i := i + 1 in
  c <- load (rbuf + i);;
  let tag := Z.lor (ushort (Z.shiftl tag 8)) c in
  if i <? rlen then
    c' <- load (rbuf + i);;
    if negb (Z.land c' TAG_NEXT =? 0) then
      match fuel with
      | O => out_of_fuel
      | S k => tag_more k rbuf rlen i tag
      end
    else ret (i, tag)
  else ret (i, tag).

(** [i++; if (i-j > 2) *tag=0; return i;] *)
Definition tag_done (i j tag : Z) : M (Z * Z) :=
  let i := i + 1 in
  ret (i, if i - j >? 2 then 0 else tag).

(** [tlv_tag(rbuf, rlen, &tag)]: the result is the returned [int] and the
    final content of [*tag]. *)
Definition tlv_tag (rbuf rlen tag : Z) : M (Z * Z) :=
  if rlen <? 0 then ret (-1, tag) else
  i <- skip_filler (Z.to_nat rlen) rbuf rlen 0;;
  if i =? rlen then ret (0, tag) else
  let j := i in
  tag <- load (rbuf + i);;
  c <- load (rbuf + i);;
  if Z.land c TAG_SEQ =? TAG_SEQ then
    '(i, tag) <- tag_more (Z.to_nat rlen) rbuf rlen i tag;;
    short <- (if i >=? rlen then ret true
              else c' <- load (rbuf + i);;
                   ret (negb (Z.land c' TAG_NEXT =? 0)));;
    if short : bool then ret (-1, tag) else tag_done i j tag
  else tag_done i j tag.

(** ** LengthValueParser *)

(** [for (tlv->l=0; i > 0; i--) { tlv->l <<= 8; tlv->l |= *rbuf++; }] *)
Fixpoint len_bytes (n : nat) (rbuf len : Z) : M (Z * Z) :=
  match n with
  | O => ret (len, rbuf)
  | S k =>
      c <- load rbuf;;
      len_bytes k (rbuf + 1) (Z.lor (ushort (Z.shiftl len 8)) c)
  end.

Definition tlv_tlv0 (rbuf rlen : Z) (tlv : TLV) : M (Z * TLV) :=
  '(i, tg) <- tlv_tag rbuf rlen (tlv_t tlv);;
  let tlv := set_t tlv tg in
  if i <=? 0 then ret (i, tlv) else
  let rlen := rlen - i in
  let rbuf := rbuf + i in
  if rlen <=? 0 then ret (-1, tlv) else
  i <- load rbuf;;
  let tlv := set_l tlv i in
  let rbuf := rbuf + 1 in
  let rlen := rlen - 1 in
  if negb (Z.land i LEN_BYTES =? 0) then
    let i := Z.land i 0x7f in
    if i >? rlen then ret (-1, tlv) else
    if i >? 2 then ret (-2, tlv) else
    '(len, rbuf) <- len_bytes (Z.to_nat i) rbuf 0;;
    ret (1, set_v (set_l tlv len) rbuf)
  else ret (1, set_v tlv rbuf).

Definition tlv_parseTLV (rbuf rlen : Z) (tlv : TLV) : M (Z * TLV) :=
  '(i, tlv) <- tlv_tlv0 rbuf rlen tlv;;
  if i <=? 0 then ret (i, tlv) else
  let rlen := rlen - (tlv_v tlv - rbuf) in
  if tlv_l tlv >? rlen then ret (-1, tlv) else ret (1, tlv).

(** ** ASCII header variant

    [sscanf(s, "%04u", &x)] and [sscanf(s, "%02u", &x)] are library calls.
    [sscanf_u w s x] follows the C standard's [u] conversion with maximum
    field width [w]: white space is skipped, then an optional sign and
    decimal digits are taken, at most [w] characters in all.  The result
    is the value returned by [sscanf] (1 on a conversion, 0 on a matching
    failure, [EOF] at the end of the string) and the content of [x].
    The white-space run that [sscanf] passes over has no bound in the
    code; in the model it is followed for [fuel] characters, and every
    [fuel] that is at least the length of the run gives the result of
    the code ([scan_space_run]).  [tlv_parseLTV] and [ltv_find] take this
    bound as their first argument, [skip]. *)

Definition EOF : Z := -1.

Definition isspace (c : Z) : bool := (c =? 32) || ((9 <=? c) && (c <=? 13)).
Definition isdigit (c : Z) : bool := (48 <=? c) && (c <=? 57).

Fixpoint scan_space (fuel : nat) (s : Z) : M Z :=
  c <- load s;;
  if isspace c then
    match fuel with
    | O => out_of_fuel
    | S k => scan_space k (s + 1)
    end
  else ret s.

(** At most [w] decimal digits from [s]: the accumulated value and the
    number of digits taken. *)
Fixpoint scan_digits (w : nat) (s acc : Z) (n : nat) : M (Z * nat) :=
  match w with
  | O => ret (acc, n)
  | S k =>
      c <- load s;;
      if isdigit c then scan_digits k (s + 1) (acc * 10 + (c - 48)) (S n)
      else ret (acc, n)
  end.

Definition sscanf_u (fuel w : nat) (s x : Z) : M (Z * Z) :=
  s <- scan_space fuel s;;
  c <- load s;;
  if c =? 0 then ret (EOF, x) else
  let signed := (c =? 43) || (c =? 45) in
  '(a, n) <- (if signed then scan_digits (pred w) (s + 1) 0 O
              else scan_digits w s 0 O);;
  match n with
  | O => ret (0, x)
  | S _ => ret (1, (if c =? 45 then - a else a) mod 2 ^ 32)
  end.

Definition tlv_parseLTV (skip : nat) (rbuf rlen : Z) (tlv : TLV)
  : M (Z * TLV) :=
  if rlen <? 6 then ret (-1, tlv) else
  '(n, x) <- sscanf_u skip 4 rbuf 0;;
  if negb (n =? 1) then ret (-1, tlv) else
  let tlv := set_l tlv (ushort x) in
  '(n, x) <- sscanf_u skip 2 rbuf x;;
  if negb (n =? 1) then ret (-1, tlv) else
  let tlv := set_t tlv (ushort x) in
  if tlv_l tlv <? 2 then ret (-1, tlv) else
  let tlv := set_v tlv (rbuf + 6) in
  let tlv := set_l tlv (ushort (tlv_l tlv - 2)) in
  let rlen := rlen - (tlv_v tlv - rbuf) in
  if tlv_l tlv >? rlen then ret (-1, tlv) else ret (1, tlv).

(** ** TagTreeWalker *)

(** An uninitialised local [TLV t;].  Every path that reads one of its
    fields has written that field before. *)
Definition TLV_undef : TLV := mkTLV 0 0 0.

(** The scan loop of [tlv_find], up to the [memcpy] or [memset] of the
    result into [*tlv]; [tlv] is taken to be non-NULL, as it is at every
    call site of the repository. *)
Fixpoint tlv_find_loop (fuel : nat) (b l tag : Z) (t : TLV) : M (Z * TLV) :=
  '(i, t) <- tlv_parseTLV b l t;;
  if i >? 0 then
    if tlv_t t =? tag then ret (1, t)
    else
      let t := set_v t (tlv_v t + tlv_l t) in
      let l := l - (tlv_v t - b) in
      let b := tlv_v t in
      match fuel with
      | O => out_of_fuel
      | S k => tlv_find_loop k b l tag t
      end
  else ret (0, mkTLV tag 0 NULL).

Definition tlv_find (b l tag : Z) (out : TLV) : M (Z * TLV) :=
  if tag =? 0 then ret (0, out)
  else tlv_find_loop (Z.to_nat l) b l tag TLV_undef.

(** [tlv_check]: the loop and the recursion into constructed values. *)
Fixpoint tlv_check_loop (fuel : nat) (b l : Z) (t : TLV) : M Z :=
  '(i, t) <- tlv_parseTLV b l t;;
  if i >? 0 then
    match fuel with
    | O => out_of_fuel
    | S k =>
        sub <- (if negb (Z.land (tlv_tag0 (tlv_t t)) TAG_CONSTR =? 0)
                then tlv_check_loop k (tlv_v t) (tlv_l t) TLV_undef
                else ret 1);;
        if sub =? 0 then ret 0
        else
          let t := set_v t (tlv_v t + tlv_l t) in
          let l := l - (tlv_v t - b) in
          let b := tlv_v t in
          tlv_check_loop k b l t
    end
  else ret (if i =? 0 then 1 else 0).

Definition tlv_check (b l : Z) : M Z :=
  tlv_check_loop (Z.to_nat l) b l TLV_undef.

(** ** TagCollection *)

Definition tb_init (buf size : Z) : TLVbuf := mkTLVbuf size 0 buf.

Definition tb_find (tb : TLVbuf) (tag : Z) (out : TLV) : M (Z * TLV) :=
  tlv_find (tb_buf tb) (tb_len tb) tag out.

(** [{ tlv.l++; tlv.v--; }] *)
Definition widen (x : TLV) : TLV :=
  mkTLV (tlv_t x) (ushort (tlv_l x + 1)) (tlv_v x - 1).

(** The four statements of [tb_del] that widen the found view from the
    value to the whole record:
    [if (tlv.l > 0x7f) { tlv.l++; tlv.v--; }
     if (tlv.l > 0xff) { tlv.l++; tlv.v--; }
     tlv.l+=2; tlv.v-=2;
     if (tlv.t > 0xff) { tlv.l++; tlv.v--; }] *)
Definition whole_record (tlv : TLV) : TLV :=
  let tlv := if tlv_l tlv >? 0x7f then widen tlv else tlv in
  let tlv := if tlv_l tlv >? 0xff then widen tlv else tlv in
  let tlv := widen (widen tlv) in
  if tlv_t tlv >? 0xff then widen tlv else tlv.

(** [tb_del].  The byte count of the [memcpy] is a pointer difference:
    the bytes from the end of the record to the end of the data, moved
    down to the start of the record.  When more bytes follow the record
    than it spans, source and destination overlap: C leaves that call of
    [memcpy] undefined, and [tb_del] has no value. *)
Definition tb_del (tb : TLVbuf) (t : Z) : M (Z * TLVbuf) :=
  '(r, tlv) <- tb_find tb t TLV_undef;;
  if r =? 0 then ret (0, tb) else
  let tlv := whole_record tlv in
  let dst := tlv_v tlv in
  let src := tlv_v tlv + tlv_l tlv in
  let n := Z.to_nat (tb_buf tb + tb_len tb - src) in
  if apart dst src n then
    memcpy n dst src;;;
    ret (1, set_len tb (ushort (tb_len tb - tlv_l tlv)))
  else undefined.

(** The tag test shared by [tlv_buildT] and [tb_add]. *)
Definition tag_wrong (t : Z) : bool :=
  ((t <=? 0xff) && (Z.land (tlv_tag0 t) TAG_SEQ =? TAG_SEQ))
  || ((t >? 0xff) && negb (Z.land t TAG_NEXT =? 0))
  || (t =? 0).

(** [memcpy(b, v, n)] when a value is supplied, [memset(b, 0, n)] when
    [v] is NULL. *)
Definition put_value (b v n : Z) : M unit :=
  if negb (v =? NULL) then memcpy (Z.to_nat n) b v
  else memset (Z.to_nat n) b 0.

(** The tail of [tb_add], from the capacity test on. *)
Definition tb_add_append (tb : TLVbuf) (tlv : TLV) : M (Z * TLVbuf * TLV) :=
  if tb_len tb + tlv_l tlv + 2 >=? tb_mlen tb then ret (- EPIPE, tb, tlv) else
  let b := tb_buf tb + tb_len tb in
  b <- (if tlv_t tlv >? 0xff
        then store b (Z.shiftr (tlv_t tlv) 8);;; ret (b + 1)
        else ret b);;
  store b (tlv_t tlv);;;
  let b := b + 1 in
  b <- (if tlv_l tlv >? 0xff
        then store b 0x82;;; store (b + 1) (Z.shiftr (tlv_l tlv) 8);;;
             ret (b + 2)
        else if tlv_l tlv >? 0x7f then store b 0x81;;; ret (b + 1)
        else ret b);;
  store b (tlv_l tlv);;;
  let b := b + 1 in
  put_value b (tlv_v tlv) (tlv_l tlv);;;
  let tlv := set_v tlv b in
  let b := b + tlv_l tlv in
  ret (1, set_len tb (ushort (b - tb_buf tb)), tlv).

(** [tb_add(tb, tlv, ovr)]: the returned [int], the collection and
    [*tlv] after the call. *)
Definition tb_add (tb : TLVbuf) (tlv : TLV) (ovr : Z) : M (Z * TLVbuf * TLV) :=
  if tlv_l tlv =? 0 then ret (- EINVAL, tb, tlv) else
  if tag_wrong (tlv_t tlv) then ret (- EINVAL, tb, tlv) else
  if ovr <? 3 then
    '(r, t) <- tb_find tb (tlv_t tlv) TLV_undef;;
    if negb (r =? 0) then
      if ovr =? 0 then ret (- EEXIST, tb, tlv)
      else if ovr =? 2 then ret (0, tb, tlv)
      else if tlv_l tlv =? tlv_l t then
        put_value (tlv_v t) (tlv_v tlv) (tlv_l t);;;
        ret (1, tb, set_v tlv (tlv_v t))
      else
        '(_, tb) <- tb_del tb (tlv_t tlv);;
        tb_add_append tb tlv
    else tb_add_append tb tlv
  else tb_add_append tb tlv.

(** [tb_addbuf]: the loop, then [if (i < 0) return i; return 0;]. *)
Fixpoint tb_addbuf_loop (fuel : nat) (tb : TLVbuf) (b l ovr : Z) (t : TLV)
  : M (Z * TLVbuf) :=
  '(i, t) <- tlv_parseTLV b l t;;
  if i >? 0 then
    let t := set_v t (tlv_v t + tlv_l t) in
    let l := l - (tlv_v t - b) in
    let b := tlv_v t in
    let t := set_v t (tlv_v t - tlv_l t) in
    '(i, tb, t) <- tb_add tb t ovr;;
    if i <? 0 then ret (i, tb)
    else
      match fuel with
      | O => out_of_fuel
      | S k => tb_addbuf_loop k tb b l ovr t
      end
  else ret (if i <? 0 then i else 0, tb).

Definition tb_addbuf (tb : TLVbuf) (b l ovr : Z) : M (Z * TLVbuf) :=
  tb_addbuf_loop (Z.to_nat l) tb b l ovr TLV_undef.

(** ** Running a computation *)

(** A heap holding the bytes [bs] from address [p] on, and 0 elsewhere. *)
Definition heap_of (p : Z) (bs : list Z) : heap :=
  fun a => if (p <=? a) && (a <? p + Z.of_nat (length bs))
           then nth (Z.to_nat (a - p)) bs 0 else 0.

(** The bytes of [h] at [p, p + n). *)
Definition bytes_at (h : heap) (p : Z) (n : nat) : list Z :=
  map (fun k => uchar (h (p + Z.of_nat k))) (seq 0 n).

Definition result {A : Type} (o : option (A * heap * list access)) : option A :=
  match o with Some (a, _, _) => Some a | None => None end.

Definition trace {A : Type} (o : option (A * heap * list access))
  : option (list access) :=
  match o with Some (_, _, tr) => Some tr | None => None end.

(** What a run leaves: its result and the heap, or nothing. *)
Definition outcome {A : Type} (o : option (A * heap * list access))
  : option (A * heap) :=
  match o with Some (a, h, _) => Some (a, h) | None => None end.

(** [m] run on [h] returns [a] and leaves the heap [h']. *)
Definition yields {A : Type} (m : M A) (h : heap) (a : A) (h' : heap) : Prop :=
  exists tr, m h = Some (a, h', tr).

(** Every logged access lies in [lo, hi). *)
Definition within (lo hi : Z) (tr : list access) : bool :=
  forallb (fun e => (lo <=? addr_of e) && (addr_of e <? hi)) tr.

(** Every logged store lies in [lo, hi). *)
Definition stores_within (lo hi : Z) (tr : list access) : bool :=
  forallb (fun e => negb (is_store e)
                    || ((lo <=? addr_of e) && (addr_of e <? hi))) tr.

(** ** Specification vocabulary *)

(** [h] holds the bytes [bs] from address [p] on. *)
Fixpoint holds (h : heap) (p : Z) (bs : list Z) : Prop :=
  match bs with
  | [] => True
  | b :: r => uchar (h p) = b /\ holds h (p + 1) r
  end.

(** The record encoding of section 6 of the specification: tag bytes,
    length bytes, value bytes. *)
Definition enc_tag (t : Z) : list Z :=
  if t >? 0xff then [uchar (Z.shiftr t 8); uchar t] else [uchar t].

Definition enc_len (l : Z) : list Z :=
  if l >? 0xff then [0x82; uchar (Z.shiftr l 8); uchar l]
  else if l >? 0x7f then [0x81; uchar l]
  else [uchar l].

Definition header (t l : Z) : list Z := enc_tag t ++ enc_len l.

Definition header_size (t l : Z) : Z := Z.of_nat (length (header t l)).

Definition encodedSpan (t l : Z) : Z := header_size t l + l.

(** A tag that [tb_add] accepts and that [tlv_tag] decodes back: one
    byte, or two bytes of which the first has its low five bits set. *)
Definition tag_sound (t : Z) : bool :=
  negb (tag_wrong t) && (0 <? t) && (t <? 65536)
  && ((t <=? 0xff) || (Z.land (Z.shiftr t 8) TAG_SEQ =? TAG_SEQ)).

(** The constructed bit of the tag's first byte is clear. *)
Definition primitive (t : Z) : bool :=
  Z.land (tlv_tag0 t) TAG_CONSTR =? 0.

(** The records [(tag, length)] laid out back to back from [p] on. *)
Fixpoint layout (h : heap) (p : Z) (rs : list (Z * Z)) : Prop :=
  match rs with
  | [] => True
  | (t, l) :: r => holds h p (header t l) /\ layout h (p + encodedSpan t l) r
  end.

Fixpoint span_of (rs : list (Z * Z)) : Z :=
  match rs with
  | [] => 0
  | (t, l) :: r => encodedSpan t l + span_of r
  end.

Definition rec_ok (r : Z * Z) : Prop :=
  tag_sound (fst r) = true /\ 0 < snd r < 65536.

(** Decimal digit [k] of the ASCII header at [s]. *)
Definition digit (h : heap) (s k : Z) : Z := uchar (h (s + k)) - 48.

(** ** Sample buffers *)

(** Filler, then the overlong tag [9f 82 83 04]. *)
Definition overlong_sample : list Z := [0; 0x9f; 0x82; 0x83; 0x04; 0x01].

(** The overlong tag [9f 82 83 04], length 1, value [aa]. *)
Definition overlong_record : list Z := [0x9f; 0x82; 0x83; 0x04; 0x01; 0xaa].

(** Tag [82], then a length byte announcing three length bytes, with one
    byte left. *)
Definition too_long_sample : list Z := [0x82; 0x83; 0x00].

(** The ASCII header "001205" followed by ten value bytes. *)
Definition ltv_sample : list Z :=
  [0x30; 0x30; 0x31; 0x32; 0x30; 0x35; 1; 2; 3; 4; 5; 6; 7; 8; 9; 10].

(** ** Sample collections *)

(** A collection of capacity 131 at address 1000, and the outcome of
    appending tag [9f02] with a zero-filled value of 0x80 bytes. *)
Definition full_add :=
  tb_add (tb_init 1000 131) (mkTLV 0x9f02 0x80 NULL) 3 (heap_of 0 []).

(** A collection of capacity 3 receiving a record of span 3. *)
Definition exact_add :=
  tb_add (tb_init 1000 3) (mkTLV 0x82 1 NULL) 3 (heap_of 0 []).

(** Records A = [81 01 aa], B = [82 81 ff] with 255 value bytes [55],
    C = [83 01 cc], appended in this order. *)
Definition abc_bytes : list Z :=
  [0x81; 0x01; 0xaa] ++ ([0x82; 0x81; 0xff] ++ repeat 0x55 255)
  ++ [0x83; 0x01; 0xcc].

Definition abc_tb : TLVbuf := mkTLVbuf 300 264 1000.

Definition abc_heap : heap := heap_of 1000 abc_bytes.

(** The collection and heap left by [tb_del] of tag [82]. *)
Definition abc_del := tb_del abc_tb 0x82 abc_heap.

Definition after {A : Type} (o : option (A * heap * list access)) : heap :=
  match o with Some (_, h, _) => h | None => fun _ => 0 end.

(** [m] run on [h] returns, with a result and a heap that satisfy [Q]. *)
Definition post {A : Type} (m : M A) (h : heap) (Q : A -> heap -> Prop) : Prop :=
  exists a h', yields m h a h' /\ Q a h'.

(** The effect of a successful append: the header of [tlv] at the old
    end of the data, the value after it, nothing else changed. *)
Definition appended (tb : TLVbuf) (tlv : TLV) (h : heap)
  (tb' : TLVbuf) (tlv' : TLV) (h' : heap) : Prop :=
  let p := tb_buf tb + tb_len tb in
  let t := tlv_t tlv in
  let l := tlv_l tlv in
  tb' = set_len tb (ushort (tb_len tb + encodedSpan t l))
  /\ tlv' = set_v tlv (p + header_size t l)
  /\ holds h' p (header t l)
  /\ (forall a, ~ (p <= a < p + encodedSpan t l) -> h' a = h a)
  /\ (tlv_v tlv = NULL ->
      forall k, 0 <= k < l -> h' (p + header_size t l + k) = 0)
  /\ (tlv_v tlv <> NULL ->
      tlv_v tlv + l <= p \/ p + encodedSpan t l <= tlv_v tlv ->
      forall k, 0 <= k < l ->
        h' (p + header_size t l + k) = uchar (h (tlv_v tlv + k))).



(** A stream of two records, the second of length 0. *)
Definition bad_stream : heap := heap_of 2000 [0x81; 0x01; 0xaa; 0x82; 0x00].

(** A collection of capacity 8 holding [81 01 aa]; at 2000 a stream of
    two records: [82 01 bb], then tag [81] with a value of six bytes. *)
Definition tight_tb : TLVbuf := mkTLVbuf 8 3 1000.
Definition tight_heap : heap :=
  fun a => if a <? 2000 then heap_of 1000 [0x81; 0x01; 0xaa] a
           else heap_of 2000 [0x82; 0x01; 0xbb;
                              0x81; 0x06; 1; 2; 3; 4; 5; 6] a.

(** ** Facts checked over the whole [ushort] range *)

(** What the decoder needs from a sound tag [t], as a test on [t]. *)
Definition tag_decodes (t : Z) : bool :=
  implb (tag_sound t)
    (if t <=? 0xff
     then (uchar t =? t) && negb (t =? 0)
          && negb (Z.land t TAG_SEQ =? TAG_SEQ)
     else (Z.land (uchar (Z.shiftr t 8)) TAG_SEQ =? TAG_SEQ)
          && (Z.land (uchar t) TAG_NEXT =? 0)
          && (Z.lor (ushort (Z.shiftl (uchar (Z.shiftr t 8)) 8)) (uchar t)
              =? t)).

(** What the decoder needs from a length [l], as a test on [l]. *)
Definition len_decodes (l : Z) : bool :=
  if l <=? 0x7f then (uchar l =? l) && (Z.land l LEN_BYTES =? 0)
  else if l <=? 0xff then
    (Z.lor (ushort (Z.shiftl 0 8)) (uchar l) =? l)
  else
    (Z.lor (ushort (Z.shiftl
                      (Z.lor (ushort (Z.shiftl 0 8)) (uchar (Z.shiftr l 8)))
                      8))
           (uchar l) =? l).

(** ** Records of a well-formed collection *)

(** Offset and length of the first record with tag [tag]. *)
Fixpoint find_rec (tag : Z) (rs : list (Z * Z)) : option (Z * Z) :=
  match rs with
  | [] => None
  | (t, l) :: r =>
      if t =? tag then Some (0, l)
      else match find_rec tag r with
           | Some (off, l') => Some (encodedSpan t l + off, l')
           | None => None
           end
  end.

(** The records without the first one of tag [tag]. *)
Fixpoint remove_rec (tag : Z) (rs : list (Z * Z)) : list (Z * Z) :=
  match rs with
  | [] => []
  | (t, l) :: r => if t =? tag then r else (t, l) :: remove_rec tag r
  end.

(** The value of every constructed record among [rs] is consistent for
    [tlv_check]. *)
Fixpoint nested (h : heap) (p : Z) (rs : list (Z * Z)) : Prop :=
  match rs with
  | [] => True
  | (t, l) :: r =>
      (primitive t = true
       \/ yields (tlv_check (p + header_size t l) l) h 1 h)
      /\ nested h (p + encodedSpan t l) r
  end.

(** The collection [tb] holds well-formed records and nothing else,
    within its capacity. *)
Definition well_formed (tb : TLVbuf) (h : heap) : Prop :=
  exists rs, Forall rec_ok rs /\ layout h (tb_buf tb) rs
             /\ nested h (tb_buf tb) rs
             /\ tb_len tb = span_of rs
             /\ tb_len tb <= tb_mlen tb < 65536.

(** The values 0 .. 255, and a test made on every [ushort]. *)
Definition byte_values : list Z := map Z.of_nat (seq 0 256).

Definition all_ushort (P : Z -> bool) : bool :=
  forallb (fun hi => forallb (fun lo => P (256 * hi + lo)) byte_values)
          byte_values.

(** ** Collections built by [tb_add] and [tb_addbuf] *)

(** The value of the view [tlv] may be stored under its tag: the tag is
    primitive, or the value is zero-filled, or it is consistent for
    [tlv_check] and lies outside the buffer of [tb]. *)
Definition value_in_scope (tb : TLVbuf) (h : heap) (tlv : TLV) : Prop :=
  primitive (tlv_t tlv) = true
  \/ tlv_v tlv = NULL
  \/ (yields (tlv_check (tlv_v tlv) (tlv_l tlv)) h 1 h
      /\ (tlv_v tlv + tlv_l tlv <= tb_buf tb
          \/ tb_buf tb + tb_mlen tb <= tlv_v tlv)).

(** The view [tlv] is added under the policy [ovr] within the scope of
    the consistency claim: its tag is sound, its value is in scope, and
    Overwrite does not replace a record of length 0xff by one of another
    length. *)
Definition add_in_scope (tb : TLVbuf) (h : heap) (tlv : TLV) (ovr : Z) : Prop :=
  tag_sound (tlv_t tlv) = true /\ value_in_scope tb h tlv
  /\ 0 <= tlv_l tlv < 65536
  /\ (ovr = 1 ->
      forall t0,
        result (tb_find tb (tlv_t tlv) TLV_undef h) = Some (1, t0) ->
        tlv_l t0 = 0xff -> tlv_l tlv = 0xff).

(** A call of [tb_add] that returned [r] and retargeted the view to
    [tlv'] stayed within the capacity of [tb]. *)
Definition add_in_capacity (tb : TLVbuf) (r : Z) (tlv' : TLV) : Prop :=
  r = 1 -> tlv_v tlv' + tlv_l tlv' <= tb_buf tb + tb_mlen tb.

(** Every [tb_add] that [tb_addbuf tb b l ovr] performs from the heap
    [h] is in scope and within capacity. *)
Inductive stream_in_scope (ovr : Z) : TLVbuf -> heap -> Z -> Z -> Prop :=
| stream_end tb h b l i t :
    result (tlv_parseTLV b l TLV_undef h) = Some (i, t) -> i <= 0 ->
    stream_in_scope ovr tb h b l
| stream_rec tb h b l t :
    result (tlv_parseTLV b l TLV_undef h) = Some (1, t) ->
    add_in_scope tb h t ovr ->
    (forall r tb' t' h',
        yields (tb_add tb t ovr) h (r, tb', t') h' -> 0 <= r ->
        add_in_capacity tb r t') ->
    (forall r tb' t' h',
        yields (tb_add tb t ovr) h (r, tb', t') h' -> 0 <= r ->
        stream_in_scope ovr tb' h' (tlv_v t + tlv_l t)
          (l - (tlv_v t + tlv_l t - b))) ->
    stream_in_scope ovr tb h b l.

(** The collections reached from an empty one by successful calls of
    [tb_add] and [tb_addbuf] in scope; between calls the heap may change
    outside the used part of the buffer.  A call without a value, that
    is an Overwrite whose [tb_del] hands overlapping ranges to [memcpy],
    is no step. *)
Inductive built : TLVbuf -> heap -> Prop :=
| built_init buf size h :
    0 <= size < 65536 -> built (tb_init buf size) h
| built_outside tb h h' :
    built tb h ->
    (forall a, tb_buf tb <= a < tb_buf tb + tb_len tb -> h' a = h a) ->
    built tb h'
| built_add tb h tlv ovr r tb' tlv' h' :
    built tb h -> 0 <= ovr < 256 -> add_in_scope tb h tlv ovr ->
    yields (tb_add tb tlv ovr) h (r, tb', tlv') h' -> 0 <= r ->
    add_in_capacity tb r tlv' ->
    built tb' h'
| built_addbuf tb h b l ovr tb' h' :
    built tb h -> 0 <= ovr < 256 -> stream_in_scope ovr tb h b l ->
    yields (tb_addbuf tb b l ovr) h (0, tb') h' ->
    built tb' h'.

(** The collections reached from an empty one by successful calls of
    [tb_add] and [tb_addbuf], whatever is added. *)
Inductive reached : TLVbuf -> heap -> Prop :=
| reached_init buf size h :
    0 <= size < 65536 -> reached (tb_init buf size) h
| reached_add tb h tlv ovr r tb' tlv' h' :
    reached tb h -> 0 <= ovr < 256 ->
    0 <= tlv_t tlv < 65536 -> 0 <= tlv_l tlv < 65536 ->
    yields (tb_add tb tlv ovr) h (r, tb', tlv') h' -> 0 <= r ->
    reached tb' h'
| reached_addbuf tb h b l ovr tb' h' :
    reached tb h -> 0 <= ovr < 256 ->
    yields (tb_addbuf tb b l ovr) h (0, tb') h' ->
    reached tb' h'.

(** ** A collection built step by step *)

(** Values at 2000; at 3000 a stream of two records, the first one
    constructed with the nested record [83 01 66]. *)
Definition demo_heap : heap :=
  fun a => if a <? 3000 then heap_of 2000 [0x11; 0x22; 0x33; 0x44; 0x55] a
           else heap_of 3000 [0xa0; 0x03; 0x83; 0x01; 0x66;
                              0x9f; 0x02; 0x02; 0x77; 0x88] a.

Definition demo_tb0 : TLVbuf := tb_init 1000 64.

(** [81 02 11 22] added under Reject. *)
Definition demo_step1 := tb_add demo_tb0 (mkTLV 0x81 2 2000) 0 demo_heap.
Definition demo_tb1 : TLVbuf := mkTLVbuf 64 4 1000.

(** [82 01 33] appended. *)
Definition demo_step2 :=
  tb_add demo_tb1 (mkTLV 0x82 1 2002) 3 (after demo_step1).
Definition demo_tb2 : TLVbuf := mkTLVbuf 64 7 1000.

(** Tag [81] overwritten with a value of three bytes: the old record is
    deleted and [81 03 33 44 55] appended. *)
Definition demo_step3 :=
  tb_add demo_tb2 (mkTLV 0x81 3 2002) 1 (after demo_step2).
Definition demo_tb3 : TLVbuf := mkTLVbuf 64 8 1000.

(** The stream at 3000 imported under SkipIfExists. *)
Definition demo_step4 := tb_addbuf demo_tb3 3000 10 2 (after demo_step3).
Definition demo_tb4 : TLVbuf := mkTLVbuf 64 18 1000.

(** A constructed tag [20] added with the value byte [81], which is not
    a record. *)
Definition bad_nested := tb_add (tb_init 1000 16) (mkTLV 0x20 1 2000) 0
                           (heap_of 2000 [0x81]).

(** Tag [8102], accepted by [tb_add], added with the value [01 02]. *)
Definition bad_two_byte := tb_add (tb_init 1000 16) (mkTLV 0x8102 2 2000) 0
                             (heap_of 2000 [0x01; 0x02]).

(** [81 01 aa] [82 01 33] [83 01 44]: six bytes follow the first
    record, which spans three. *)
Definition crowded_tb : TLVbuf := mkTLVbuf 64 9 1000.
Definition crowded_heap : heap :=
  heap_of 1000 [0x81; 0x01; 0xaa; 0x82; 0x01; 0x33; 0x83; 0x01; 0x44].

(** The [n] bytes of [h'] at [q] are those of [h] at [p]. *)
Definition agree (h h' : heap) (p q n : Z) : Prop :=
  forall k, 0 <= k < n -> uchar (h' (q + k)) = uchar (h (p + k)).

(** ** The rest of tlv.c *)

(** [tlv_buildT(rbuf, rlen, tag)]; the code does not consult [rlen]. *)
Definition tlv_buildT (rbuf rlen tag : Z) : M Z :=
  if tag_wrong tag then ret 0 else
  let b := rbuf in
  b <- (if tag >? 0xff
        then store b (Z.shiftr tag 8);;; ret (b + 1)
        else ret b);;
  store b tag;;;
  let b := b + 1 in
  ret (b - rbuf).

(** The scan loop of [ltv_find]; as for [tlv_find], [tlv] is taken to
    be non-NULL and the result carries the final content of [*tlv]. *)
Fixpoint ltv_find_loop (skip fuel : nat) (b l tag : Z) (t : TLV)
  {struct fuel} : M (Z * TLV) :=
  '(i, t) <- tlv_parseLTV skip b l t;;
  if i >? 0 then
    if tlv_t t =? tag then ret (1, t)
    else
      let t := set_v t (tlv_v t + tlv_l t) in
      let l := l - (tlv_v t - b) in
      let b := tlv_v t in
      match fuel with
      | O => out_of_fuel
      | S k => ltv_find_loop skip k b l tag t
      end
  else ret (0, mkTLV tag 0 NULL).

Definition ltv_find (skip : nat) (b l tag : Z) : M (Z * TLV) :=
  ltv_find_loop skip (Z.to_nat l) b l tag TLV_undef.

(** [priv_findr]: the loop and the recursion into constructed values.
    [out] is the content of [*tlv], written only when the tag is found;
    [tlv] is taken to be non-NULL. *)
Fixpoint priv_findr_loop (fuel : nat) (b l tag : Z) (t out : TLV)
  : M (Z * TLV) :=
  '(i, t) <- tlv_parseTLV b l t;;
  if i >? 0 then
    if tlv_t t =? tag then ret (1, t)
    else
      match fuel with
      | O => out_of_fuel
      | S k =>
          '(r, out) <- (if negb (Z.land (tlv_tag0 (tlv_t t)) TAG_CONSTR =? 0)
                        then priv_findr_loop k (tlv_v t) (tlv_l t) tag
                               TLV_undef out
                        else ret (0, out));;
          if negb (r =? 0) then ret (1, out)
          else
            let t := set_v t (tlv_v t + tlv_l t) in
            let l := l - (tlv_v t - b) in
            let b := tlv_v t in
            priv_findr_loop k b l tag t out
      end
  else ret (0, out).

Definition priv_findr (b l tag : Z) (out : TLV) : M (Z * TLV) :=
  priv_findr_loop (Z.to_nat l) b l tag TLV_undef out.

Definition tb_findr (tb : TLVbuf) (tag : Z) (out : TLV) : M (Z * TLV) :=
  priv_findr (tb_buf tb) (tb_len tb) tag out.

(** [tb_addtags(dst, src, buf, len)]:
    [for (i=0; i<len; i+=r) {
       if ((r=tlv_tag(buf+i,len-i,&tlv.t))<0) break;
       if (tb_find(src,tlv.t,&tlv)) tb_add(dst,&tlv,2); }]
    The step [r] may be 0, so the loop has no bound that could serve as
    fuel: the fuel is a parameter.  The result is [*dst] after the call;
    [tlv] is the local view, uninitialised on entry. *)
Fixpoint tb_addtags_loop (fuel : nat) (dst src : TLVbuf) (buf len i : Z)
  (tlv : TLV) : M TLVbuf :=
  if i <? len then
    '(r, tg) <- tlv_tag (buf + i) (len - i) (tlv_t tlv);;
    let tlv := set_t tlv tg in
    if r <? 0 then ret dst else
    '(f, tlv) <- tb_find src (tlv_t tlv) tlv;;
    '(dst, tlv) <- (if negb (f =? 0)
                    then '(_, dst, tlv) <- tb_add dst tlv 2;; ret (dst, tlv)
                    else ret (dst, tlv));;
    match fuel with
    | O => out_of_fuel
    | S k => tb_addtags_loop k dst src buf len (i + r) tlv
    end
  else ret dst.

Definition tb_addtags (fuel : nat) (dst src : TLVbuf) (buf len : Z)
  : M TLVbuf :=
  tb_addtags_loop fuel dst src buf len 0 TLV_undef.

(** ** Footprints *)

(** Every logged access is a load from [lo, hi). *)
Definition loads_within (lo hi : Z) (tr : list access) : bool :=
  forallb (fun e => negb (is_store e)
                    && ((lo <=? addr_of e) && (addr_of e <? hi))) tr.

(** [m] run on [h] returns [a], leaves the heap as it is and only loads,
    from [lo, hi). *)
Definition reads_in {A : Type} (lo hi : Z) (m : M A) (h : heap) (a : A)
  : Prop :=
  exists tr, m h = Some (a, h, tr) /\ loads_within lo hi tr = true.

(** ** Streams of records with ASCII headers *)

(** The four decimal digits of [n], as ASCII codes. *)
Definition digits4 (n : Z) : list Z :=
  [48 + n / 1000 mod 10; 48 + n / 100 mod 10; 48 + n / 10 mod 10;
   48 + n mod 10].

(** Records with ASCII headers laid out back to back from [p] on.  A
    record starts with the four digits of its number [n]; two more
    header bytes and [n - 2] value bytes follow, [n + 4] bytes in
    all. *)
Fixpoint ltv_layout (h : heap) (p : Z) (ns : list Z) : Prop :=
  match ns with
  | [] => True
  | n :: r => holds h p (digits4 n) /\ ltv_layout h (p + (n + 4)) r
  end.

Fixpoint ltv_span (ns : list Z) : Z :=
  match ns with
  | [] => 0
  | n :: r => n + 4 + ltv_span r
  end.

Definition ltv_number (n : Z) : Prop := 2 <= n <= 9999.

(** * Base64 codec (base64.c): shallow embedding

    The same heap and monad are used.  [size_t] and [int] values are in
    [Z]; the [int] variables of the two functions hold a bit buffer
    below 2^14, its bit count below 14, and indices that stay below
    2^31 for inputs shorter than 2^30 bytes.  [*slen] and [*len] are
    passed in by value and returned with the result. *)

From Stdlib Require Ascii String.

Module Alphabet.
Import String.
Definition BASE64_text : string :=
  "ABCDEFGHIJKLMNOPQRSTUVWXYZabcdefghijklmnopqrstuvwxyz0123456789+/"%string.
End Alphabet.

(** [BASE64], as character codes. *)
Definition BASE64 : list Z :=
  map (fun c => Z.of_N (Ascii.N_of_ascii c))
      (String.list_ascii_of_string Alphabet.BASE64_text).

(** [BASE64_PAD], the character ['=']. *)
Definition BASE64_PAD : Z := 61.

(** [base64_pos]:
    [for (int i = 0; i < 64; ++i) if (c[i] == x) return i; return -1;]
    with [n] the number of rounds left.  The characters compared are both
    [char]; they are taken as the bytes they are stored as. *)
Fixpoint base64_pos_loop (n : nat) (i x : Z) : Z :=
  match n with
  | O => -1
  | S k => if nth (Z.to_nat i) BASE64 0 =? x then i
           else base64_pos_loop k (i + 1) x
  end.

Definition base64_pos (x : Z) : Z := base64_pos_loop 64 0 x.

(** [if (p && j < lim) p[j] = x;] *)
Definition put_at (p lim j x : Z) : M unit :=
  if negb (p =? NULL) && (j <? lim) then store (p + j) x else ret tt.

(** [while (cbits >= 6) { cbits -= 6; int y = (c >> cbits) & 0x3f;
      c &= (1 << cbits) - 1;
      if (str && j < *slen) str[j] = BASE64[y]; ++j; }] *)
Fixpoint encode_flush (fuel : nat) (str slen c cbits j : Z) : M (Z * Z * Z) :=
  if cbits >=? 6 then
    let cbits := cbits - 6 in
    let y := Z.land (Z.shiftr c cbits) 0x3f in
    let c := Z.land c (Z.shiftl 1 cbits - 1) in
    put_at str slen j (nth (Z.to_nat y) BASE64 0);;;
    let j := j + 1 in
    match fuel with
    | O => out_of_fuel
    | S k => encode_flush k str slen c cbits j
    end
  else ret (c, cbits, j).

(** The [for] loop of [base64_encode] over the input bytes. *)
Fixpoint encode_loop (fuel : nat) (data len str slen i c cbits j : Z)
  : M (Z * Z * Z) :=
  if i <? len then
    d <- load (data + i);;
    let c := Z.lor (Z.shiftl c 8) (Z.land d 0xff) in
    let cbits := cbits + 8 in
    '(c, cbits, j) <- encode_flush (Z.to_nat cbits) str slen c cbits j;;
    match fuel with
    | O => out_of_fuel
    | S k => encode_loop k data len str slen (i + 1) c cbits j
    end
  else ret (c, cbits, j).

(** [for (int i = j&3; i < 4; ++i) {
      if (str && j < *slen) str[j] = BASE64_PAD; ++j; }] *)
Fixpoint encode_pad (fuel : nat) (str slen i j : Z) : M Z :=
  if i <? 4 then
    put_at str slen j BASE64_PAD;;;
    let j := j + 1 in
    match fuel with
    | O => out_of_fuel
    | S k => encode_pad k str slen (i + 1) j
    end
  else ret j.

(** [base64_encode(data, len, str, &slen)]: the returned [int] and the
    final content of [*slen].  The character for the last, incomplete
    group of bits is stored with [str[j++]], so [j] advances only when
    the character is stored. *)
Definition base64_encode (data len str slen : Z) : M (Z * Z) :=
  '(c, cbits, j) <- encode_loop (Z.to_nat len) data len str slen 0 0 0 0;;
  j <- (if cbits >? 0 then
          let c := Z.shiftl c (6 - cbits) in
          let y := Z.land c 0x3f in
          if negb (str =? NULL) && (j <? slen)
          then store (str + j) (nth (Z.to_nat y) BASE64 0);;; ret (j + 1)
          else ret j
        else ret j);;
  j <- (if Z.land j 3 >? 0 then encode_pad 4 str slen (Z.land j 3) j
        else ret j);;
  put_at str slen j 0;;;
  let j := j + 1 in
  if slen <? j then ret (1, j) else ret (0, j).

(** [while (cbits >= 8) { cbits -= 8; int y = (c >> cbits) & 0xff;
      c &= (1 << cbits) - 1;
      if (data && j < *len) data[j] = y; ++j; }] *)
Fixpoint decode_flush (fuel : nat) (data len c cbits j : Z) : M (Z * Z * Z) :=
  if cbits >=? 8 then
    let cbits := cbits - 8 in
    let y := Z.land (Z.shiftr c cbits) 0xff in
    let c := Z.land c (Z.shiftl 1 cbits - 1) in
    put_at data len j y;;;
    let j := j + 1 in
    match fuel with
    | O => out_of_fuel
    | S k => decode_flush k data len c cbits j
    end
  else ret (c, cbits, j).

(** The [for] loop of [base64_decode] over the characters: a character
    outside the alphabet ends the loop when it is the pad character and
    is skipped otherwise. *)
Fixpoint decode_loop (fuel : nat) (str slen data len i c cbits j : Z)
  : M (Z * Z * Z) :=
  if i <? slen then
    ch <- load (str + i);;
    let x := base64_pos ch in
    if x =? -1 then
      if ch =? BASE64_PAD then ret (c, cbits, j)
      else
        match fuel with
        | O => out_of_fuel
        | S k => decode_loop k str slen data len (i + 1) c cbits j
        end
    else
      let c := Z.lor (Z.shiftl c 6) x in
      let cbits := cbits + 6 in
      '(c, cbits, j) <- decode_flush (Z.to_nat cbits) data len c cbits j;;
      match fuel with
      | O => out_of_fuel
      | S k => decode_loop k str slen data len (i + 1) c cbits j
      end
  else ret (c, cbits, j).

(** [base64_decode(str, slen, data, &len)]: the returned [int] and the
    final content of [*len]. *)
Definition base64_decode (str slen data len : Z) : M (Z * Z) :=
  '(_, _, j) <- decode_loop (Z.to_nat slen) str slen data len 0 0 0 0;;
  if len <? j then ret (1, j) else ret (0, j).

(** ** The encoding of RFC 4648, on lists *)

Definition b64char (y : Z) : Z := nth (Z.to_nat y) BASE64 0.

(** Three bytes give four characters; a last group of one or two bytes
    is padded with ['=']. *)
Fixpoint b64 (bs : list Z) : list Z :=
  match bs with
  | [] => []
  | [a] => [b64char (a / 4); b64char (a mod 4 * 16); BASE64_PAD; BASE64_PAD]
  | [a; b] =>
      [b64char (a / 4); b64char (a mod 4 * 16 + b / 16);
       b64char (b mod 16 * 4); BASE64_PAD]
  | a :: b :: c :: r =>
      b64char (a / 4) :: b64char (a mod 4 * 16 + b / 16)
      :: b64char (b mod 16 * 4 + c / 64) :: b64char (c mod 64) :: b64 r
  end.

(** The heap after [if (p && j < lim) p[j] = x; ++j;] for each [x] of
    [xs] in turn. *)
Fixpoint put_list (h : heap) (p lim j : Z) (xs : list Z) : heap :=
  match xs with
  | [] => h
  | x :: r =>
      put_list (if negb (p =? NULL) && (j <? lim)
                then upd h (p + j) (uchar x) else h)
               p lim (j + 1) r
  end.

(** One round of the encoder loop on the state [(c, cbits)] and the
    byte [d]: the six-bit values emitted and the next state. *)
Definition enc_step (c cbits d : Z) : list Z * Z * Z :=
  if cbits =? 0 then ([d / 4], d mod 4, 2)
  else if cbits =? 2 then ([c * 16 + d / 16], d mod 16, 4)
  else ([c * 4 + d / 64; d mod 64], 0, 0).

Fixpoint enc_run (bs : list Z) (c cbits : Z) : list Z * Z * Z :=
  match bs with
  | [] => ([], c, cbits)
  | d :: r =>
      let '(ys, c1, cb1) := enc_step c cbits d in
      let '(zs, c2, cb2) := enc_run r c1 cb1 in
      (ys ++ zs, c2, cb2)
  end.

(** One round of the decoder loop on the state [(c, cbits)] and the
    six-bit value [x]: the bytes emitted and the next state. *)
Definition dec_step (c cbits x : Z) : list Z * Z * Z :=
  if cbits =? 0 then ([], x, 6)
  else if cbits =? 6 then ([c * 4 + x / 16], x mod 16, 4)
  else if cbits =? 4 then ([c * 16 + x / 4], x mod 4, 2)
  else ([c * 64 + x], 0, 0).

(** The bytes that the decoder loop emits over the characters [cs]. *)
Fixpoint dec_run (cs : list Z) (c cbits : Z) : list Z :=
  match cs with
  | [] => []
  | ch :: r =>
      if base64_pos ch =? -1 then
        if ch =? BASE64_PAD then [] else dec_run r c cbits
      else
        let '(ys, c1, cb1) := dec_step c cbits (base64_pos ch) in
        ys ++ dec_run r c1 cb1
  end.

(** The values below [n], and a test made on all of them. *)
Definition all_below (n : nat) (P : Z -> bool) : bool :=
  forallb P (map Z.of_nat (seq 0 n)).

(** The states between two rounds of the encoder loop: no bits, or two
    or four bits of the last byte. *)
Definition enc_state (c cbits : Z) : Prop :=
  (cbits = 0 /\ c = 0) \/ (cbits = 2 /\ 0 <= c < 4)
  \/ (cbits = 4 /\ 0 <= c < 16).

(** The states between two rounds of the decoder loop. *)
Definition dec_state (c cbits : Z) : Prop :=
  (cbits = 0 /\ c = 0) \/ (cbits = 6 /\ 0 <= c < 64)
  \/ (cbits = 4 /\ 0 <= c < 16) \/ (cbits = 2 /\ 0 <= c < 4).

(** The characters that count for the decoder: those of the alphabet
    that come before the first pad character. *)
Fixpoint b64_text (cs : list Z) : list Z :=
  match cs with
  | [] => []
  | ch :: r =>
      if base64_pos ch =? -1 then
        if ch =? BASE64_PAD then [] else b64_text r
      else ch :: b64_text r
  end.

(** * Properties *)

(** ** The monad *)

Lemma yields_ret {A : Type} (x : A) (h : heap) : yields (ret x) h x h.
Proof. exists []. reflexivity. Qed.

Lemma yields_bind {A B : Type} (m : M A) (f : A -> M B) h a h1 b h2 :
  yields m h a h1 -> yields (f a) h1 b h2 -> yields (bind m f) h b h2.
Proof.
  intros [t1 E1] [t2 E2]. exists (t1 ++ t2).
  unfold bind. rewrite E1, E2. reflexivity.
Qed.

Lemma yields_load (a : Z) (h : heap) : yields (load a) h (uchar (h a)) h.
Proof. exists [Load a]. reflexivity. Qed.

Lemma yields_store (a x : Z) (h : heap) :
  yields (store a x) h tt (upd h a (uchar x)).
Proof. exists [Store a]. reflexivity. Qed.

Lemma bind_inv {A B : Type} (m : M A) (f : A -> M B) h b h2 tr :
  bind m f h = Some (b, h2, tr) ->
  exists a h1 t1 t2,
    m h = Some (a, h1, t1) /\ f a h1 = Some (b, h2, t2) /\ tr = t1 ++ t2.
Proof.
  unfold bind. destruct (m h) as [[[a h1] t1]|]; [|discriminate].
  destruct (f a h1) as [[[b' h2'] t2]|] eqn:E; [|discriminate].
  intros H. inversion H; subst. exists a, h1, t1, t2. auto.
Qed.

Lemma yields_bind_inv {A B : Type} (m : M A) (f : A -> M B) h b h2 :
  yields (bind m f) h b h2 ->
  exists a h1, yields m h a h1 /\ yields (f a) h1 b h2.
Proof.
  intros [tr H]. apply bind_inv in H.
  destruct H as (a & h1 & t1 & t2 & E1 & E2 & _).
  exists a, h1. split; eexists; eauto.
Qed.

Lemma yields_fun {A : Type} (m : M A) h a h1 b h2 :
  yields m h a h1 -> yields m h b h2 -> a = b /\ h1 = h2.
Proof.
  intros [t1 E1] [t2 E2]. rewrite E1 in E2. inversion E2. auto.
Qed.

Lemma yields_result {A : Type} (m : M A) h a h1 :
  yields m h a h1 -> result (m h) = Some a.
Proof. intros [tr E]. rewrite E. reflexivity. Qed.

Lemma yields_ret_inv {A : Type} (x a : A) h h' :
  yields (ret x) h a h' -> a = x /\ h' = h.
Proof. intros [tr E]. inversion E. auto. Qed.

Lemma bind_none {A B : Type} (m : M A) (f : A -> M B) h a h1 :
  yields m h a h1 -> f a h1 = None -> bind m f h = None.
Proof. intros (tr & E) N. unfold bind. rewrite E, N. reflexivity. Qed.




Lemma outcome_yields {A : Type} (m : M A) h a h' :
  outcome (m h) = Some (a, h') -> yields m h a h'.
Proof.
  unfold outcome, yields. destruct (m h) as [[[x h1] tr]|]; intros E;
    inversion E; subst. exists tr. reflexivity.
Qed.

Lemma uchar_range (x : Z) : 0 <= uchar x < 256.
Proof. unfold uchar. apply Z.mod_pos_bound. lia. Qed.

Lemma uchar_idem (x : Z) : uchar (uchar x) = uchar x.
Proof. unfold uchar. apply Z.mod_mod. lia. Qed.

Lemma uchar_small (x : Z) : 0 <= x < 256 -> uchar x = x.
Proof. intros. unfold uchar. apply Z.mod_small. lia. Qed.

Lemma ushort_small (x : Z) : 0 <= x < 65536 -> ushort x = x.
Proof. intros. unfold ushort. apply Z.mod_small. lia. Qed.

(** One unfolding of each loop. *)

Lemma skip_filler_eq fuel rbuf rlen i :
  skip_filler fuel rbuf rlen i =
  if i <? rlen then
    c <- load (rbuf + i);;
    if c =? 0 then
      match fuel with
      | O => out_of_fuel
      | S k => skip_filler k rbuf rlen (i + 1)
      end
    else ret i
  else ret i.
Proof. destruct fuel; reflexivity. Qed.

Lemma tag_more_eq fuel rbuf rlen i tag :
  tag_more fuel rbuf rlen i tag =
  (c <- load (rbuf + (i + 1));;
   if i + 1 <? rlen then
     c' <- load (rbuf + (i + 1));;
     if negb (Z.land c' TAG_NEXT =? 0) then
       match fuel with
       | O => out_of_fuel
       | S k => tag_more k rbuf rlen (i + 1)
                  (Z.lor (ushort (Z.shiftl tag 8)) c)
       end
     else ret (i + 1, Z.lor (ushort (Z.shiftl tag 8)) c)
   else ret (i + 1, Z.lor (ushort (Z.shiftl tag 8)) c)).
Proof. destruct fuel; reflexivity. Qed.

(** ** The decoders on an arbitrary heap *)

Lemma skip_filler_spec fuel rbuf rlen h : forall i,
  0 <= i <= rlen -> rlen - i <= Z.of_nat fuel ->
  exists i', yields (skip_filler fuel rbuf rlen i) h i' h
    /\ i <= i' <= rlen
    /\ (forall k, i <= k < i' -> uchar (h (rbuf + k)) = 0)
    /\ (i' < rlen -> uchar (h (rbuf + i')) <> 0).
Proof.
  induction fuel as [|fuel IH]; intros i Hi Hf; rewrite skip_filler_eq.
  - destruct (Z.ltb_spec i rlen); [lia|].
    exists i. split; [apply yields_ret|]. repeat split; try lia.
  - destruct (Z.ltb_spec i rlen).
    + destruct (Z.eqb_spec (uchar (h (rbuf + i))) 0) as [E|E].
      * destruct (IH (i + 1)) as (i' & Y & R & Zs & N); try lia.
        exists i'. split.
        { eapply yields_bind; [apply yields_load|]. cbv beta.
          rewrite (proj2 (Z.eqb_eq _ _) E). exact Y. }
        repeat split; try lia; auto.
        intros k Hk. destruct (Z.eq_dec k i); [subst; auto|]. apply Zs. lia.
      * exists i. split.
        { eapply yields_bind; [apply yields_load|]. cbv beta.
          rewrite (proj2 (Z.eqb_neq _ _) E). apply yields_ret. }
        repeat split; try lia; auto.
    + exists i. split; [apply yields_ret|]. repeat split; try lia.
Qed.


Lemma lor_ushort (a b : Z) :
  0 <= a < 65536 -> 0 <= b < 65536 -> 0 <= Z.lor a b < 65536.
Proof.
  intros Ha Hb. assert (0 <= Z.lor a b) by (apply Z.lor_nonneg; lia).
  split; [assumption|].
  destruct (Z.eq_dec (Z.lor a b) 0) as [E|E]; [lia|].
  change 65536 with (2 ^ 16). apply Z.log2_lt_pow2; [lia|].
  rewrite Z.log2_lor by lia.
  destruct (Z.eq_dec a 0), (Z.eq_dec b 0); subst; simpl;
    try (apply Z.max_lub_lt); try (apply Z.log2_lt_pow2; lia); lia.
Qed.

Lemma ushort_range (x : Z) : 0 <= ushort x < 65536.
Proof. unfold ushort. apply Z.mod_pos_bound. lia. Qed.

Lemma shift_lor_range (a c : Z) :
  0 <= Z.lor (ushort (Z.shiftl a 8)) (uchar c) < 65536.
Proof.
  apply lor_ushort; [apply ushort_range|].
  pose proof (uchar_range c). lia.
Qed.

Tactic Notation "ybind" "by" tactic3(t) :=
  eapply yields_bind; [ t | cbv beta iota ].
Ltac yload := eapply yields_bind; [apply yields_load | cbv beta iota ].

(** The continuation loop stops at the first byte without the
    continuation bit, or one past the limit. *)
Lemma tag_more_spec fuel rbuf rlen h : forall i tag,
  i < rlen -> rlen - i <= Z.of_nat fuel + 1 ->
  exists i' tag', yields (tag_more fuel rbuf rlen i tag) h (i', tag') h
    /\ i < i' <= rlen
    /\ 0 <= tag' < 65536
    /\ (forall k, i < k < i' -> Z.land (uchar (h (rbuf + k))) TAG_NEXT <> 0)
    /\ (i' < rlen -> Z.land (uchar (h (rbuf + i'))) TAG_NEXT = 0)
    /\ (i' = i + 1 ->
        tag' = Z.lor (ushort (Z.shiftl tag 8)) (uchar (h (rbuf + (i + 1))))).
Proof.
  induction fuel as [|fuel IH]; intros i tag Hi Hf; rewrite tag_more_eq.
  - destruct (Z.ltb_spec (i + 1) rlen); [lia|].
    eexists _, _. split.
    { yload. apply yields_ret. }
    repeat split; try lia; apply shift_lor_range.
  - destruct (Z.ltb_spec (i + 1) rlen).
    + destruct (Z.eqb_spec (Z.land (uchar (h (rbuf + (i + 1)))) TAG_NEXT) 0)
        as [E|E].
      * eexists _, _. split.
        { yload. yload. rewrite (proj2 (Z.eqb_eq _ _) E). apply yields_ret. }
        repeat split; try lia; auto; apply shift_lor_range.
      * destruct (IH (i + 1)
                    (Z.lor (ushort (Z.shiftl tag 8)) (uchar (h (rbuf + (i + 1))))))
          as (i' & tag' & Y & R & B & Cs & N & _); try lia.
        exists i', tag'. split.
        { yload. yload. rewrite (proj2 (Z.eqb_neq _ _) E). exact Y. }
        repeat split; try lia; auto.
        intros k Hk. destruct (Z.eq_dec k (i + 1)); [subst; auto|].
        apply Cs. lia.
    + eexists _, _. split.
      { yload. apply yields_ret. }
      repeat split; try lia; apply shift_lor_range.
Qed.

(** What [tlv_tag] returns, for every buffer, limit and heap. *)
Lemma tlv_tag_spec rbuf rlen h :
  exists n tg0,
    (forall tag, exists tg,
        yields (tlv_tag rbuf rlen tag) h (n, tg) h /\ (0 < n -> tg = tg0))
    /\ 0 <= tg0 < 65536
    /\ ((n = -1
         /\ (rlen < 0
             \/ exists j, 0 <= j < rlen
                 /\ (forall k, 0 <= k < j -> uchar (h (rbuf + k)) = 0)
                 /\ uchar (h (rbuf + j)) <> 0
                 /\ Z.land (uchar (h (rbuf + j))) TAG_SEQ = TAG_SEQ
                 /\ forall k, j < k < rlen ->
                      Z.land (uchar (h (rbuf + k))) TAG_NEXT <> 0))
        \/ (n = 0 /\ 0 <= rlen
            /\ forall k, 0 <= k < rlen -> uchar (h (rbuf + k)) = 0)
        \/ exists j, 0 <= j /\ j < n <= rlen
            /\ (forall k, 0 <= k < j -> uchar (h (rbuf + k)) = 0)
            /\ uchar (h (rbuf + j)) <> 0
            /\ ((Z.land (uchar (h (rbuf + j))) TAG_SEQ <> TAG_SEQ
                 /\ n = j + 1 /\ tg0 = uchar (h (rbuf + j)))
                \/ (Z.land (uchar (h (rbuf + j))) TAG_SEQ = TAG_SEQ
                    /\ j + 1 < n
                    /\ (forall k, j < k < n - 1 ->
                          Z.land (uchar (h (rbuf + k))) TAG_NEXT <> 0)
                    /\ Z.land (uchar (h (rbuf + (n - 1)))) TAG_NEXT = 0
                    /\ (n - j > 2 -> tg0 = 0)
                    /\ (n - j = 2 ->
                        tg0 = Z.lor (ushort (Z.shiftl (uchar (h (rbuf + j))) 8))
                                    (uchar (h (rbuf + (j + 1)))))))).
Proof.
  unfold tlv_tag. destruct (Z.ltb_spec rlen 0).
  { exists (-1), 0. split; [|split; [lia|left; split; [reflexivity|left; lia]]].
    intros tag. eexists. split; [apply yields_ret|lia]. }
  destruct (skip_filler_spec (Z.to_nat rlen) rbuf rlen h 0)
    as (j & Y & R & Zs & N); try lia.
  destruct (Z.eqb_spec j rlen) as [E|E].
  { exists 0, 0. split; [|split; [lia|]].
    - intros tag. eexists. split; [|lia].
      ybind by (exact Y). rewrite (proj2 (Z.eqb_eq _ _) E). apply yields_ret.
    - right; left. subst. repeat split; auto. }
  assert (Hj : j < rlen) by lia. specialize (N Hj).
  destruct (Z.eqb_spec (Z.land (uchar (h (rbuf + j))) TAG_SEQ) TAG_SEQ) as [S|S].
  - destruct (tag_more_spec (Z.to_nat rlen) rbuf rlen h j (uchar (h (rbuf + j))))
      as (i' & tag' & Y' & R' & B & Cs & T & One); try lia.
    destruct (Z.geb_spec i' rlen) as [G|G].
    { exists (-1), 0. split; [|split; [lia|]].
      2:{ left. split; [reflexivity|]. right. exists j.
          repeat split; try lia; auto.
          intros k Hk. apply Cs. lia. }
      intros tag. eexists. split; [|lia].
      ybind by (exact Y). rewrite (proj2 (Z.eqb_neq _ _) E).
      yload. yload. rewrite (proj2 (Z.eqb_eq _ _) S).
      ybind by (exact Y').
      destruct (Z.geb_spec i' rlen); [|lia].
      ybind by (apply yields_ret). apply yields_ret. }
    specialize (T G).
    exists (i' + 1), (if i' + 1 - j >? 2 then 0 else tag').
    split; [|split].
    { intros tag. eexists. split; [|reflexivity].
      ybind by (exact Y). rewrite (proj2 (Z.eqb_neq _ _) E).
      yload. yload. rewrite (proj2 (Z.eqb_eq _ _) S).
      ybind by (exact Y').
      destruct (Z.geb_spec i' rlen); [lia|].
      ybind by (yload; apply yields_ret).
      rewrite T. simpl negb. cbv iota. apply yields_ret. }
    { destruct (i' + 1 - j >? 2); lia. }
    right; right. exists j. repeat split; try lia; auto.
    right. replace (i' + 1 - 1) with i' by lia.
    split; [exact S|]. split; [lia|]. split; [|split; [|split]].
    + intros k Hk. apply Cs. lia.
    + exact T.
    + intros Hn. destruct (Z.gtb_spec (i' + 1 - j) 2); [reflexivity|lia].
    + intros Hn. destruct (Z.gtb_spec (i' + 1 - j) 2); [lia|].
      apply One. lia.
  - exists (j + 1), (uchar (h (rbuf + j))). split; [|split].
    { intros tag. eexists. split; [|reflexivity].
      ybind by (exact Y). rewrite (proj2 (Z.eqb_neq _ _) E).
      yload. yload. rewrite (proj2 (Z.eqb_neq _ _) S). unfold tag_done.
      destruct (Z.gtb_spec (j + 1 - j) 2); [lia|]. apply yields_ret. }
    { pose proof (uchar_range (h (rbuf + j))). lia. }
    right; right. exists j. repeat split; try lia; auto.
Qed.

Lemma len_bytes_spec h : forall n rbuf len,
  0 <= len < 65536 ->
  exists len', yields (len_bytes n rbuf len) h (len', rbuf + Z.of_nat n) h
    /\ 0 <= len' < 65536.
Proof.
  induction n as [|n IH]; intros rbuf len Hl.
  - exists len. split; [|assumption].
    replace (rbuf + Z.of_nat 0) with rbuf by lia. apply yields_ret.
  - destruct (IH (rbuf + 1) (Z.lor (ushort (Z.shiftl len 8)) (uchar (h rbuf))))
      as (len' & Y & B); [apply shift_lor_range|].
    exists len'. split; [|assumption].
    replace (rbuf + Z.of_nat (S n)) with (rbuf + 1 + Z.of_nat n) by lia.
    simpl. yload. exact Y.
Qed.

Lemma land_7f_range (c : Z) : 0 <= Z.land c 0x7f <= 127.
Proof.
  assert (E : Z.land c 0x7f = c mod 128).
  { change 0x7f with (Z.ones 7). rewrite Z.land_ones by lia. reflexivity. }
  rewrite E. pose proof (Z.mod_pos_bound c 128). lia.
Qed.

(** What [tlv_tlv0] returns, for every buffer, limit and heap. *)
Lemma tlv_tlv0_spec rbuf rlen h :
  exists i r,
    (forall t, exists t',
        yields (tlv_tlv0 rbuf rlen t) h (i, t') h /\ (0 < i -> t' = r))
    /\ (i = 1 \/ i = 0 \/ i = -1 \/ i = -2)
    /\ (i = 1 -> rbuf + 2 <= tlv_v r <= rbuf + rlen
                 /\ 0 <= tlv_l r < 65536 /\ 0 <= tlv_t r < 65536).
Proof.
  destruct (tlv_tag_spec rbuf rlen h) as (n & tg0 & Ytag & B & Cases).
  assert (Hfail : n <= 0 -> n = 0 \/ n = -1 ->
            exists i r,
              (forall t, exists t',
                  yields (tlv_tlv0 rbuf rlen t) h (i, t') h /\ (0 < i -> t' = r))
              /\ (i = 1 \/ i = 0 \/ i = -1 \/ i = -2)
              /\ (i = 1 -> rbuf + 2 <= tlv_v r <= rbuf + rlen
                           /\ 0 <= tlv_l r < 65536 /\ 0 <= tlv_t r < 65536)).
  { intros Hn Hc. exists n, TLV_undef. split; [|split; [lia|intros; exfalso; lia]].
    intros t. destruct (Ytag (tlv_t t)) as (tg & Y & _).
    eexists. split; [|lia]. unfold tlv_tlv0.
    ybind by (exact Y). destruct (Z.leb_spec n 0); [|lia]. apply yields_ret. }
  destruct Cases as [C|[C|C]]; [apply Hfail; lia|apply Hfail; lia|].
  clear Hfail. destruct C as (j & Hj0 & Hjn & _).
  assert (Hpos : 0 < n) by lia.
  destruct (Z.leb_spec (rlen - n) 0) as [Hs|Hs].
  { exists (-1), TLV_undef. split; [|split; [lia|intros; exfalso; lia]].
    intros t. destruct (Ytag (tlv_t t)) as (tg & Y & _).
    eexists. split; [|lia]. unfold tlv_tlv0.
    ybind by (exact Y). destruct (Z.leb_spec n 0); [lia|].
    destruct (Z.leb_spec (rlen - n) 0); [|lia]. apply yields_ret. }
  set (c := uchar (h (rbuf + n))).
  destruct (Z.eqb_spec (Z.land c LEN_BYTES) 0) as [Lf|Lf].
  { (* short form *)
    exists 1, (mkTLV tg0 c (rbuf + n + 1)). split; [|split; [lia|]].
    - intros t. destruct (Ytag (tlv_t t)) as (tg & Y & Htg).
      eexists. split; [|reflexivity]. unfold tlv_tlv0.
      ybind by (exact Y). destruct (Z.leb_spec n 0); [lia|].
      destruct (Z.leb_spec (rlen - n) 0); [lia|].
      yload. fold c. rewrite (proj2 (Z.eqb_eq _ _) Lf). simpl negb. cbv iota.
      rewrite (Htg Hpos). apply yields_ret.
    - intros _. simpl. pose proof (uchar_range (h (rbuf + n))). fold c in H.
      lia. }
  pose proof (land_7f_range c) as Hk.
  destruct (Z.gtb_spec (Z.land c 0x7f) (rlen - n - 1)) as [Hg|Hg].
  { exists (-1), TLV_undef. split; [|split; [lia|intros; exfalso; lia]].
    intros t. destruct (Ytag (tlv_t t)) as (tg & Y & _).
    eexists. split; [|lia]. unfold tlv_tlv0.
    ybind by (exact Y). destruct (Z.leb_spec n 0); [lia|].
    destruct (Z.leb_spec (rlen - n) 0); [lia|].
    yload. fold c. rewrite (proj2 (Z.eqb_neq _ _) Lf). simpl negb. cbv iota.
    destruct (Z.gtb_spec (Z.land c 0x7f) (rlen - n - 1)); [|lia].
    apply yields_ret. }
  destruct (Z.gtb_spec (Z.land c 0x7f) 2) as [H2|H2].
  { exists (-2), TLV_undef. split; [|split; [lia|intros; exfalso; lia]].
    intros t. destruct (Ytag (tlv_t t)) as (tg & Y & _).
    eexists. split; [|lia]. unfold tlv_tlv0.
    ybind by (exact Y). destruct (Z.leb_spec n 0); [lia|].
    destruct (Z.leb_spec (rlen - n) 0); [lia|].
    yload. fold c. rewrite (proj2 (Z.eqb_neq _ _) Lf). simpl negb. cbv iota.
    destruct (Z.gtb_spec (Z.land c 0x7f) (rlen - n - 1)); [lia|].
    destruct (Z.gtb_spec (Z.land c 0x7f) 2); [|lia].
    apply yields_ret. }
  destruct (len_bytes_spec h (Z.to_nat (Z.land c 0x7f)) (rbuf + n + 1) 0)
    as (len & Yl & Bl); [lia|].
  exists 1, (mkTLV tg0 len (rbuf + n + 1 + Z.of_nat (Z.to_nat (Z.land c 0x7f)))).
  split; [|split; [lia|]].
  - intros t. destruct (Ytag (tlv_t t)) as (tg & Y & Htg).
    eexists. split; [|reflexivity]. unfold tlv_tlv0.
    ybind by (exact Y). destruct (Z.leb_spec n 0); [lia|].
    destruct (Z.leb_spec (rlen - n) 0); [lia|].
    yload. fold c. rewrite (proj2 (Z.eqb_neq _ _) Lf). simpl negb. cbv iota.
    destruct (Z.gtb_spec (Z.land c 0x7f) (rlen - n - 1)); [lia|].
    destruct (Z.gtb_spec (Z.land c 0x7f) 2); [lia|].
    ybind by (exact Yl). rewrite (Htg Hpos). apply yields_ret.
  - intros _. simpl. lia.
Qed.

(** What [tlv_parseTLV] returns: a successful decode consumes at least
    two bytes and its value slice ends within the limit. *)
Lemma tlv_parseTLV_spec rbuf rlen h :
  exists i r,
    (forall t, exists t',
        yields (tlv_parseTLV rbuf rlen t) h (i, t') h /\ (0 < i -> t' = r))
    /\ (i = 1 \/ i = 0 \/ i = -1 \/ i = -2)
    /\ (i = 1 -> rbuf + 2 <= tlv_v r /\ tlv_v r + tlv_l r <= rbuf + rlen
                 /\ 0 <= tlv_l r < 65536 /\ 0 <= tlv_t r < 65536).
Proof.
  destruct (tlv_tlv0_spec rbuf rlen h) as (i & r & Y0 & Hi & Hr).
  destruct (Z.leb_spec i 0) as [Hn|Hn].
  { exists i, r. split; [|split; [assumption|intros; exfalso; lia]].
    intros t. destruct (Y0 t) as (t' & Y & _). exists t'. split; [|lia].
    unfold tlv_parseTLV. ybind by (exact Y).
    destruct (Z.leb_spec i 0); [|lia]. apply yields_ret. }
  assert (i = 1) by lia. subst i. destruct (Hr eq_refl) as (Hv & Hl & Ht).
  destruct (Z.gtb_spec (tlv_l r) (rlen - (tlv_v r - rbuf))) as [Hg|Hg].
  - exists (-1), r. split; [|split; [lia|intros; exfalso; lia]].
    intros t. destruct (Y0 t) as (t' & Y & E). rewrite (E Hn) in Y.
    exists r. split; [|lia].
    unfold tlv_parseTLV. ybind by (exact Y). simpl (1 <=? 0). cbv iota.
    destruct (Z.gtb_spec (tlv_l r) (rlen - (tlv_v r - rbuf))); [|lia].
    apply yields_ret.
  - exists 1, r. split; [|split; [lia|]].
    + intros t. destruct (Y0 t) as (t' & Y & E). rewrite (E Hn) in Y.
      exists r. split; [|reflexivity].
      unfold tlv_parseTLV. ybind by (exact Y). simpl (1 <=? 0). cbv iota.
      destruct (Z.gtb_spec (tlv_l r) (rlen - (tlv_v r - rbuf))); [lia|].
      apply yields_ret.
    + intros _. lia.
Qed.

(** ** Claims on the decoders *)

Lemma seq_nonzero (c : Z) : Z.land c TAG_SEQ = TAG_SEQ -> c <> 0.
Proof. intros H E. subst c. discriminate H. Qed.

(** The first non-filler byte is unique. *)
Lemma first_nonzero_unique (f : Z -> Z) (j k : Z) :
  (forall i, 0 <= i < j -> f i = 0) -> f j <> 0 ->
  (forall i, 0 <= i < k -> f i = 0) -> f k <> 0 ->
  0 <= j -> 0 <= k -> j = k.
Proof.
  intros Zj Nj Zk Nk Hj Hk.
  destruct (Z.lt_trichotomy j k) as [L|[E|L]]; [|assumption|].
  - exfalso. apply Nj. apply Zk. lia.
  - exfalso. apply Nk. apply Zj. lia.
Qed.

(** C8: an overlong tag that ends within the limit is decoded to tag
    value 0, and [tlv_tag] returns the number of bytes through its last byte. *)
Theorem tlv_tag_overlong_is_zero rbuf rlen tag h k m :
  0 <= k -> 2 <= m -> k + m < rlen ->
  (forall i, 0 <= i < k -> uchar (h (rbuf + i)) = 0) ->
  Z.land (uchar (h (rbuf + k))) TAG_SEQ = TAG_SEQ ->
  (forall i, k < i < k + m -> Z.land (uchar (h (rbuf + i))) TAG_NEXT <> 0) ->
  Z.land (uchar (h (rbuf + (k + m)))) TAG_NEXT = 0 ->
  result (tlv_tag rbuf rlen tag h) = Some (k + m + 1, 0).
Proof.
  intros Hk Hm Hlim Hz Hseq Hcont Hend.
  destruct (tlv_tag_spec rbuf rlen h) as (n & tg0 & Y & _ & Cases).
  destruct (Y tag) as (tg & Yt & Htg).
  pose proof (seq_nonzero _ Hseq) as Hnz.
  assert (U : forall j, 0 <= j ->
            (forall i, 0 <= i < j -> uchar (h (rbuf + i)) = 0) ->
            uchar (h (rbuf + j)) <> 0 -> j = k).
  { intros j Hj Zj Nj.
    apply (first_nonzero_unique (fun i => uchar (h (rbuf + i)))); auto. }
  destruct Cases as [(_ & [C|C])|[C|C]].
  - lia.
  - destruct C as (j & Hj & Zj & Nj & _ & Cj).
    assert (j = k) by (apply U; auto; lia). subst j.
    exfalso. apply (Cj (k + m)); [lia|assumption].
  - destruct C as (_ & _ & Za). exfalso. apply Hnz. apply Za. lia.
  - destruct C as (j & Hj & Hjn & Zj & Nj & [(S & _)|(_ & Hn & Cj & Tj & Big & _)]).
    + assert (j = k) by (apply U; auto). subst j. contradiction.
    + assert (j = k) by (apply U; auto). subst j.
      assert (n - 1 = k + m).
      { destruct (Z.lt_trichotomy (n - 1) (k + m)) as [L|[E|L]];
          [|assumption|].
        - exfalso. apply (Hcont (n - 1)); [lia|assumption].
        - exfalso. apply (Cj (k + m)); [lia|assumption]. }
      assert (n = k + m + 1) by lia. subst n.
      rewrite (yields_result _ _ _ _ Yt). rewrite Htg by lia.
      rewrite Big by lia. reflexivity.
Qed.

Lemma tlv_tag_overlong_is_zero_witness :
  result (tlv_tag 100 6 7 (heap_of 100 overlong_sample)) = Some (5, 0).
Proof.
  apply (tlv_tag_overlong_is_zero 100 6 7 (heap_of 100 overlong_sample) 1 3);
    try lia; try reflexivity.
  - intros i Hi. assert (i = 0) by lia. subst i. reflexivity.
  - intros i Hi. assert (i = 2 \/ i = 3) as [E|E] by lia; subst i;
      vm_compute; discriminate.
Defined.

(** A decoder leaves the heap as it found it. *)
Lemma tlv_tag_yields rbuf rlen tag h n tg :
  result (tlv_tag rbuf rlen tag h) = Some (n, tg) ->
  yields (tlv_tag rbuf rlen tag) h (n, tg) h.
Proof.
  intros R. destruct (tlv_tag_spec rbuf rlen h) as (n' & tg0 & Y & _).
  destruct (Y tag) as (tg' & Yt & _).
  rewrite (yields_result _ _ _ _ Yt) in R. inversion R; subst. exact Yt.
Qed.

(** C7, as stated, fails: with one byte left after a length byte [0x83]
    the decoders answer -1, not -2. *)
Lemma length_too_long_counterexample :
  ~ (forall rbuf rlen t h n tg,
        result (tlv_tag rbuf rlen (tlv_t t) h) = Some (n, tg) ->
        0 < n < rlen ->
        Z.land (uchar (h (rbuf + n))) LEN_BYTES <> 0 ->
        2 < Z.land (uchar (h (rbuf + n))) 0x7f ->
        exists t', result (tlv_parseTLV rbuf rlen t h) = Some (-2, t')).
Proof.
  intros H.
  destruct (H 100 3 TLV_undef (heap_of 100 too_long_sample) 1 0x82)
    as (t' & E); try reflexivity; try lia.
  - vm_compute. discriminate.
  - vm_compute in E. discriminate E.
Qed.

(** C7, amended: a long-form length byte announcing more than two
    length bytes is answered with -2 when that many bytes remain after
    it, and with -1 when fewer remain. *)
Theorem length_too_long_after_short_test rbuf rlen t h n tg :
  result (tlv_tag rbuf rlen (tlv_t t) h) = Some (n, tg) ->
  0 < n < rlen ->
  Z.land (uchar (h (rbuf + n))) LEN_BYTES <> 0 ->
  2 < Z.land (uchar (h (rbuf + n))) 0x7f ->
  let code := if Z.land (uchar (h (rbuf + n))) 0x7f <=? rlen - n - 1
              then -2 else -1 in
  exists t',
    result (tlv_tlv0 rbuf rlen t h) = Some (code, t')
    /\ result (tlv_parseTLV rbuf rlen t h) = Some (code, t').
Proof.
  intros R Hn Hb Hc code.
  apply tlv_tag_yields in R.
  set (c := uchar (h (rbuf + n))) in *.
  assert (Y0 : yields (tlv_tlv0 rbuf rlen t) h
                 (code, set_l (set_t t tg) c) h).
  { unfold tlv_tlv0. ybind by (exact R).
    destruct (Z.leb_spec n 0); [lia|].
    destruct (Z.leb_spec (rlen - n) 0); [lia|].
    yload. fold c. rewrite (proj2 (Z.eqb_neq _ _) Hb). simpl negb. cbv iota.
    unfold code.
    destruct (Z.gtb_spec (Z.land c 0x7f) (rlen - n - 1));
      destruct (Z.leb_spec (Z.land c 0x7f) (rlen - n - 1)); try lia.
    - apply yields_ret.
    - destruct (Z.gtb_spec (Z.land c 0x7f) 2); [|lia]. apply yields_ret. }
  exists (set_l (set_t t tg) c). split.
  - apply (yields_result _ _ _ _ Y0).
  - apply yields_result with (h1 := h).
    unfold tlv_parseTLV. ybind by (exact Y0).
    assert (code <= 0) by (unfold code; destruct (_ <=? _); lia).
    destruct (Z.leb_spec code 0); [|lia]. apply yields_ret.
Qed.

Lemma length_too_long_after_short_test_witness :
  (exists t',
    result (tlv_tlv0 100 5 TLV_undef (heap_of 100 [0x82; 0x83; 0; 0; 0]))
      = Some (-2, t')
    /\ result (tlv_parseTLV 100 5 TLV_undef (heap_of 100 [0x82; 0x83; 0; 0; 0]))
      = Some (-2, t'))
  /\ (exists t',
    result (tlv_tlv0 100 3 TLV_undef (heap_of 100 too_long_sample))
      = Some (-1, t')
    /\ result (tlv_parseTLV 100 3 TLV_undef (heap_of 100 too_long_sample))
      = Some (-1, t')).
Proof.
  split.
  - apply (length_too_long_after_short_test 100 5 TLV_undef
             (heap_of 100 [0x82; 0x83; 0; 0; 0]) 1 0x82);
      try reflexivity; try lia; vm_compute; discriminate.
  - apply (length_too_long_after_short_test 100 3 TLV_undef
             (heap_of 100 too_long_sample) 1 0x82);
      try reflexivity; try lia; vm_compute; discriminate.
Defined.

Lemma tlv_find_loop_eq fuel b l tag t :
  tlv_find_loop fuel b l tag t =
  ('(i, t) <- tlv_parseTLV b l t;;
   if i >? 0 then
     if tlv_t t =? tag then ret (1, t)
     else
       match fuel with
       | O => out_of_fuel
       | S k => tlv_find_loop k (tlv_v t + tlv_l t)
                  (l - (tlv_v t + tlv_l t - b)) tag
                  (set_v t (tlv_v t + tlv_l t))
       end
   else ret (0, mkTLV tag 0 NULL)).
Proof. destruct fuel; reflexivity. Qed.

(** A view returned as found carries the requested tag. *)
Lemma tlv_find_loop_found fuel tag : forall h b l t r h' tr,
  tlv_find_loop fuel b l tag t h = Some ((1, r), h', tr) -> tlv_t r = tag.
Proof.
  induction fuel as [|fuel IH]; intros h b l t r h' tr H;
    rewrite tlv_find_loop_eq in H; apply bind_inv in H;
    destruct H as ([i t1] & h1 & tr1 & tr2 & _ & H & _);
    destruct (i >? 0).
  - destruct (Z.eqb_spec (tlv_t t1) tag); [|discriminate H].
    inversion H; subst. reflexivity.
  - inversion H.
  - destruct (Z.eqb_spec (tlv_t t1) tag).
    + inversion H; subst. reflexivity.
    + apply IH in H. exact H.
  - inversion H.
Qed.

(** C10: a search for tag 0 answers not-found at once, with no access to
    the buffer and [*tlv] untouched; hence no view that [tlv_find] or
    [tb_find] reports as found carries tag 0. *)
Theorem tlv_find_zero_tag_never_found :
  (forall b l out h, tlv_find b l 0 out h = Some ((0, out), h, []))
  /\ (forall tb out h, tb_find tb 0 out h = Some ((0, out), h, []))
  /\ (forall b l tag out h r,
        result (tlv_find b l tag out h) = Some (1, r) ->
        tlv_t r = tag /\ tag <> 0)
  /\ (forall tb tag out h r,
        result (tb_find tb tag out h) = Some (1, r) ->
        tlv_t r = tag /\ tag <> 0).
Proof.
  assert (F : forall b l tag out h r,
             result (tlv_find b l tag out h) = Some (1, r) ->
             tlv_t r = tag /\ tag <> 0).
  { intros b l tag out h r H. unfold tlv_find in H.
    destruct (Z.eqb_spec tag 0) as [E|E]; [discriminate H|].
    split; [|assumption].
    destruct (tlv_find_loop (Z.to_nat l) b l tag TLV_undef h)
      as [[[[i r'] h'] tr]|] eqn:L; [|discriminate H].
    simpl in H. inversion H; subst. eapply tlv_find_loop_found; eauto. }
  repeat split; try reflexivity.
  - apply (F b l tag out h r H).
  - apply (F b l tag out h r H).
  - apply (F (tb_buf tb) (tb_len tb) tag out h r H).
  - apply (F (tb_buf tb) (tb_len tb) tag out h r H).
Qed.

Lemma tlv_find_zero_tag_never_found_witness :
  result (tlv_parseTLV 100 6 TLV_undef (heap_of 100 overlong_record))
    = Some (1, mkTLV 0 1 105)
  /\ tlv_find 100 6 0 TLV_undef (heap_of 100 overlong_record)
     = Some ((0, TLV_undef), heap_of 100 overlong_record, [])
  /\ tlv_t (mkTLV 0x83 1 109) = 0x83 /\ 0x83 <> 0.
Proof.
  split; [reflexivity|]. split.
  - apply (proj1 tlv_find_zero_tag_never_found).
  - apply (proj1 (proj2 (proj2 tlv_find_zero_tag_never_found))
             100 10 0x83 TLV_undef
             (heap_of 100 [0x81; 1; 0xaa; 0x82; 2; 1; 2; 0x83; 1; 0xcc])).
    reflexivity.
Defined.

(** C1 (code defect): when the tag byte carrying the continuation marker
    is the last byte before the limit, the continuation loop loads
    [rbuf[rlen]].  Here [rbuf = 100], [rlen = 1] and the buffer is the
    single byte [9f]: each decoder returns -1 after loading address 101. *)
Theorem tlv_tag_loads_past_limit :
  tlv_tag 100 1 0 (heap_of 100 [0x9f])
    = Some ((-1, 0x9f00), heap_of 100 [0x9f],
            [Load 100; Load 100; Load 100; Load 101])
  /\ trace (tlv_tlv0 100 1 TLV_undef (heap_of 100 [0x9f]))
     = Some [Load 100; Load 100; Load 100; Load 101]
  /\ trace (tlv_parseTLV 100 1 TLV_undef (heap_of 100 [0x9f]))
     = Some [Load 100; Load 100; Load 100; Load 101]
  /\ within 100 (100 + 1) [Load 100; Load 100; Load 100; Load 101] = false.
Proof. repeat split. Qed.

(** ** The ASCII header *)

Lemma isdigit_range (c : Z) : isdigit c = true -> 48 <= c <= 57.
Proof. unfold isdigit. intros H. apply andb_prop in H. lia. Qed.

Lemma scan_space_eq fuel s :
  scan_space fuel s =
  (c <- load s;;
   if isspace c then
     match fuel with
     | O => out_of_fuel
     | S k => scan_space k (s + 1)
     end
   else ret s).
Proof. destruct fuel; reflexivity. Qed.

(** A run of [k] white-space characters is passed over with any fuel
    of at least [k]. *)
Lemma scan_space_run h : forall (k fuel : nat) s,
  (k <= fuel)%nat ->
  (forall j, 0 <= j < Z.of_nat k -> isspace (uchar (h (s + j))) = true) ->
  isspace (uchar (h (s + Z.of_nat k))) = false ->
  yields (scan_space fuel s) h (s + Z.of_nat k) h.
Proof.
  induction k as [|k IH]; intros fuel s Hf Sp Ns; rewrite scan_space_eq; yload.
  - replace (s + Z.of_nat 0) with s in * by lia. rewrite Ns. apply yields_ret.
  - rewrite <- (Z.add_0_r s) at 1. rewrite Sp by lia.
    destruct fuel as [|fuel]; [lia|].
    replace (s + Z.of_nat (S k)) with (s + 1 + Z.of_nat k) in * by lia.
    apply IH; [lia| |exact Ns].
    intros j Hj. replace (s + 1 + j) with (s + (j + 1)) by lia.
    apply Sp. lia.
Qed.

(** [sscanf_u] on a string that starts with [w] decimal digits. *)
Lemma sscanf_u_digits fuel (w : nat) s x h :
  (1 <= w)%nat ->
  (forall k, 0 <= k < Z.of_nat w -> isdigit (uchar (h (s + k))) = true) ->
  exists a,
    yields (sscanf_u fuel w s x) h (1, a mod 2 ^ 32) h
    /\ (w = 2%nat -> a = 10 * digit h s 0 + digit h s 1)
    /\ (w = 4%nat -> a = 1000 * digit h s 0 + 100 * digit h s 1
                         + 10 * digit h s 2 + digit h s 3).
Proof.
  intros Hw D.
  assert (G : forall w s0 acc n,
             (forall k, 0 <= k < Z.of_nat w ->
                isdigit (uchar (h (s0 + k))) = true) ->
             exists a, yields (scan_digits w s0 acc n) h (a, (n + w)%nat) h
               /\ (w = 2%nat -> a = (acc * 10 + digit h s0 0) * 10 + digit h s0 1)
               /\ (w = 4%nat ->
                   a = (((acc * 10 + digit h s0 0) * 10 + digit h s0 1) * 10
                        + digit h s0 2) * 10 + digit h s0 3)).
  { clear. induction w as [|w IH]; intros s0 acc n D.
    - exists acc. split; [|split; discriminate].
      replace (n + 0)%nat with n by lia. apply yields_ret.
    - assert (D0 : isdigit (uchar (h s0)) = true).
      { replace s0 with (s0 + 0) by lia. apply D. lia. }
      destruct (IH (s0 + 1) (acc * 10 + (uchar (h s0) - 48)) (S n))
        as (a & Y & _).
      { intros k Hk. replace (s0 + 1 + k) with (s0 + (k + 1)) by lia.
        apply D. lia. }
      exists a. split.
      { cbn [scan_digits]. yload. rewrite D0.
        replace (n + S w)%nat with (S n + w)%nat by lia. exact Y. }
      unfold digit. replace (s0 + 0) with s0 by lia.
      split; intros E; injection E as E; subst w; cbn [scan_digits] in Y.
      + destruct Y as (tr & Y). unfold bind, load, ret in Y.
        replace (isdigit (uchar (h (s0 + 1)))) with true in Y
          by (symmetry; apply D; lia).
        inversion Y. reflexivity.
      + destruct Y as (tr & Y). unfold bind, load, ret in Y.
        replace (isdigit (uchar (h (s0 + 1)))) with true in Y
          by (symmetry; apply D; lia).
        replace (isdigit (uchar (h (s0 + 1 + 1)))) with true in Y
          by (symmetry; replace (s0 + 1 + 1) with (s0 + 2) by lia; apply D; lia).
        replace (isdigit (uchar (h (s0 + 1 + 1 + 1)))) with true in Y
          by (symmetry; replace (s0 + 1 + 1 + 1) with (s0 + 3) by lia;
              apply D; lia).
        inversion Y.
        replace (s0 + 2) with (s0 + 1 + 1) by lia.
        replace (s0 + 3) with (s0 + 1 + 1 + 1) by lia. reflexivity. }
  assert (D0 : isdigit (uchar (h s)) = true).
  { replace s with (s + 0) by lia. apply D. lia. }
  pose proof (isdigit_range _ D0) as R0.
  destruct (G w s 0 O D) as (a & Y & A2 & A4).
  exists a. split; [|split].
  - unfold sscanf_u. ybind by (rewrite scan_space_eq; yload).
    { replace (isspace (uchar (h s))) with false
        by (unfold isspace; lia). apply yields_ret. }
    yload. destruct (Z.eqb_spec (uchar (h s)) 0); [lia|].
    replace ((uchar (h s) =? 43) || (uchar (h s) =? 45)) with false by lia.
    ybind by (exact Y). destruct w; [lia|].
    replace (uchar (h s) =? 45) with false by lia. apply yields_ret.
  - intros E. rewrite (A2 E). lia.
  - intros E. rewrite (A4 E). lia.
Qed.

(** C9: on a header of six ASCII decimal digits, [tlv_parseLTV] fails
    when the limit is below 6, when the four-digit number is below 2 or
    when that number minus 2 exceeds the limit minus 6; otherwise it
    succeeds with that number minus 2 as length, the value at offset 6,
    and the tag read from the first two digits. *)
Theorem tlv_parseLTV_on_digits skip rbuf rlen t h :
  (forall k, 0 <= k < 6 -> isdigit (uchar (h (rbuf + k))) = true) ->
  let n := 1000 * digit h rbuf 0 + 100 * digit h rbuf 1
           + 10 * digit h rbuf 2 + digit h rbuf 3 in
  let tag := 10 * digit h rbuf 0 + digit h rbuf 1 in
  (rlen < 6 \/ n < 2 \/ n - 2 > rlen - 6 ->
   exists t', result (tlv_parseLTV skip rbuf rlen t h) = Some (-1, t'))
  /\ (6 <= rlen -> 2 <= n -> n - 2 <= rlen - 6 ->
      result (tlv_parseLTV skip rbuf rlen t h)
      = Some (1, mkTLV tag (n - 2) (rbuf + 6))).
Proof.
  intros D n tag.
  assert (Dk : forall k, 0 <= k < 6 -> 0 <= digit h rbuf k <= 9).
  { intros k Hk. unfold digit. pose proof (isdigit_range _ (D k Hk)). lia. }
  pose proof (Dk 0 ltac:(lia)) as D0. pose proof (Dk 1 ltac:(lia)) as D1.
  pose proof (Dk 2 ltac:(lia)) as D2. pose proof (Dk 3 ltac:(lia)) as D3.
  assert (Hn : 0 <= n < 10000) by (unfold n; lia).
  assert (Ht : 0 <= tag < 100) by (unfold tag; lia).
  destruct (sscanf_u_digits skip 4 rbuf 0 h) as (a4 & Y4 & _ & A4);
    [lia|intros k Hk; apply D; lia|].
  specialize (A4 eq_refl). fold n in A4. subst a4.
  destruct (sscanf_u_digits skip 2 rbuf (n mod 2 ^ 32) h)
    as (a2 & Y2 & A2 & _); [lia|intros k Hk; apply D; lia|].
  specialize (A2 eq_refl). fold tag in A2. subst a2.
  assert (En : n mod 2 ^ 32 = n) by (apply Z.mod_small; lia).
  assert (Et : tag mod 2 ^ 32 = tag) by (apply Z.mod_small; lia).
  rewrite En in *. rewrite Et in Y2.
  assert (Run : 6 <= rlen ->
            yields (tlv_parseLTV skip rbuf rlen t) h
              (if n <? 2 then (-1, set_t (set_l t n) tag)
               else if n - 2 >? rlen - 6
                    then (-1, mkTLV tag (n - 2) (rbuf + 6))
                    else (1, mkTLV tag (n - 2) (rbuf + 6))) h).
  { intros H6. unfold tlv_parseLTV. destruct (Z.ltb_spec rlen 6); [lia|].
    ybind by (exact Y4). simpl (negb (1 =? 1)). cbv iota.
    rewrite (ushort_small n) by lia.
    ybind by (exact Y2). simpl (negb (1 =? 1)). cbv iota.
    rewrite (ushort_small tag) by lia.
    cbn [tlv_l set_t set_l set_v tlv_t tlv_v].
    destruct (Z.ltb_spec n 2); [apply yields_ret|].
    rewrite (ushort_small (n - 2)) by lia.
    replace (rlen - (rbuf + 6 - rbuf)) with (rlen - 6) by lia.
    destruct (n - 2 >? rlen - 6); apply yields_ret. }
  split.
  - intros F. destruct (Z.ltb_spec rlen 6) as [L|L].
    + exists t. unfold tlv_parseLTV.
      destruct (Z.ltb_spec rlen 6); [reflexivity|lia].
    + specialize (Run L). apply yields_result in Run.
      destruct (Z.ltb_spec n 2); [eauto|].
      destruct (Z.gtb_spec (n - 2) (rlen - 6)); [eauto|lia].
  - intros H6 H2 Hfit. specialize (Run H6). apply yields_result in Run.
    destruct (Z.ltb_spec n 2); [lia|].
    destruct (Z.gtb_spec (n - 2) (rlen - 6)); [lia|]. exact Run.
Qed.

Lemma tlv_parseLTV_on_digits_witness :
  result (tlv_parseLTV 0 100 16 TLV_undef (heap_of 100 ltv_sample))
  = Some (1, mkTLV 0 10 106).
Proof.
  apply (proj2 (tlv_parseLTV_on_digits 0 100 16 TLV_undef
                  (heap_of 100 ltv_sample)
                  ltac:(intros k Hk;
                        assert (k = 0 \/ k = 1 \/ k = 2 \/ k = 3 \/ k = 4 \/ k = 5)
                          as [E|[E|[E|[E|[E|E]]]]] by lia;
                        subst k; reflexivity)));
    vm_compute; discriminate.
Defined.

(** ** Evaluations of the collection *)

(** C2 (code defect): the capacity test is [len + l + 2 >= mlen]
    whatever the widths of the tag and length fields.  With capacity 131
    and an empty collection, tag [9f02] with length 0x80 has span 132,
    passes the test and is stored through offset 131; with capacity 3, a
    record of span 3 is refused. *)
Theorem tb_add_capacity_test_misses_widths :
  encodedSpan 0x9f02 0x80 = 132
  /\ result full_add
     = Some (1, mkTLVbuf 131 132 1000, mkTLV 0x9f02 0x80 1004)
  /\ option_map (stores_within 1000 (1000 + 131)) (trace full_add)
     = Some false
  /\ option_map (fun tr => existsb is_store
                     (filter (fun e => addr_of e =? 1000 + 131) tr))
       (trace full_add) = Some true
  /\ encodedSpan 0x82 1 = 3
  /\ exact_add = Some ((- EPIPE, tb_init 1000 3, mkTLV 0x82 1 NULL),
                       heap_of 0 [], []).
Proof. repeat split; vm_compute; reflexivity. Qed.

(** C4 (code defect): for a record of length 0xff, [tb_del] counts three
    length bytes where the encoding has two.  Deleting B from A, B, C
    starts one byte early and removes 259 bytes instead of 258: A loses
    its value byte, C is no longer found and the buffer is inconsistent. *)
Theorem tb_del_length_ff_removes_one_byte_too_many :
  result (tlv_check 1000 264 abc_heap) = Some 1
  /\ result (tb_find abc_tb 0x82 TLV_undef abc_heap)
     = Some (1, mkTLV 0x82 0xff 1006)
  /\ encodedSpan 0x82 0xff = 258
  /\ result abc_del = Some (1, mkTLVbuf 300 5 1000)
  /\ bytes_at (after abc_del) 1000 5 = [0x81; 0x01; 0x83; 0x01; 0xcc]
  /\ result (tb_find (mkTLVbuf 300 5 1000) 0x81 TLV_undef (after abc_del))
     = Some (1, mkTLV 0x81 1 1002)
  /\ uchar (abc_heap 1002) = 0xaa
  /\ uchar (after abc_del 1002) = 0x83
  /\ result (tb_find (mkTLVbuf 300 5 1000) 0x83 TLV_undef (after abc_del))
     = Some (0, mkTLV 0x83 0 NULL)
  /\ result (tlv_check 1000 5 (after abc_del)) = Some 0.
Proof. repeat split; vm_compute; reflexivity. Qed.

(** ** Memory primitives *)

Lemma upd_same h a x b : b = a -> upd h a x b = x.
Proof. intros E. subst b. unfold upd. rewrite Z.eqb_refl. reflexivity. Qed.

Lemma upd_other h a x b : b <> a -> upd h a x b = h b.
Proof. intros N. unfold upd. destruct (Z.eqb_spec b a); [contradiction|reflexivity]. Qed.

(** [memcpy] writes [dst, dst + n) only; the bytes written are those of
    the source when the source does not start inside the part of the
    destination already written. *)
Lemma memcpy_spec : forall n dst src h,
  exists h', yields (memcpy n dst src) h tt h'
    /\ (forall a, ~ (dst <= a < dst + Z.of_nat n) -> h' a = h a)
    /\ (dst <= src \/ src + Z.of_nat n <= dst ->
        forall k, 0 <= k < Z.of_nat n -> h' (dst + k) = uchar (h (src + k))).
Proof.
  induction n as [|n IH]; intros dst src h.
  - exists h. split; [apply yields_ret|]. split; [reflexivity|]. intros; lia.
  - destruct (IH (dst + 1) (src + 1) (upd h dst (uchar (uchar (h src)))))
      as (h' & Y & F & C).
    exists h'. split; [|split].
    + cbn [memcpy]. yload. ybind by (apply yields_store). exact Y.
    + intros a Ha. rewrite F by lia. apply upd_other. lia.
    + intros D k Hk. destruct (Z.eq_dec k 0) as [E|E].
      * subst k. replace (dst + 0) with dst by lia.
        replace (src + 0) with src by lia.
        rewrite F by lia. rewrite upd_same by lia. apply uchar_idem.
      * replace (dst + k) with (dst + 1 + (k - 1)) by lia.
        rewrite C by lia.
        replace (src + 1 + (k - 1)) with (src + k) by lia.
        rewrite upd_other by lia. reflexivity.
Qed.

(** On ranges that are apart, where C defines the call, [memcpy] stores
    the source bytes and changes nothing else. *)
Lemma memcpy_apart n dst src h :
  apart dst src n = true ->
  exists h', yields (memcpy n dst src) h tt h'
    /\ (forall a, ~ (dst <= a < dst + Z.of_nat n) -> h' a = h a)
    /\ (forall k, 0 <= k < Z.of_nat n -> h' (dst + k) = uchar (h (src + k))).
Proof.
  intros A. destruct (memcpy_spec n dst src h) as (h' & Y & F & C).
  exists h'. split; [exact Y|]. split; [exact F|].
  intros k Hk. apply C; [|exact Hk].
  unfold apart in A. apply orb_true_iff in A.
  destruct A as [A|A]; apply Z.leb_le in A; lia.
Qed.

Lemma memset_spec : forall n dst c h,
  exists h', yields (memset n dst c) h tt h'
    /\ (forall a, ~ (dst <= a < dst + Z.of_nat n) -> h' a = h a)
    /\ (forall k, 0 <= k < Z.of_nat n -> h' (dst + k) = uchar c).
Proof.
  induction n as [|n IH]; intros dst c h.
  - exists h. split; [apply yields_ret|]. split; [reflexivity|]. intros; lia.
  - destruct (IH (dst + 1) c (upd h dst (uchar c))) as (h' & Y & F & C).
    exists h'. split; [|split].
    + cbn [memset]. ybind by (apply yields_store). exact Y.
    + intros a Ha. rewrite F by lia. apply upd_other. lia.
    + intros k Hk. destruct (Z.eq_dec k 0) as [E|E].
      * subst k. replace (dst + 0) with dst by lia.
        rewrite F by lia. apply upd_same. lia.
      * replace (dst + k) with (dst + 1 + (k - 1)) by lia. apply C. lia.
Qed.


(** ** Totality of the scans *)

Lemma tlv_find_loop_spec tag : forall fuel h b l t,
  l <= Z.of_nat fuel ->
  exists r t', yields (tlv_find_loop fuel b l tag t) h (r, t') h
    /\ (r = 0 \/ r = 1)
    /\ (r = 1 -> tlv_t t' = tag /\ b + 2 <= tlv_v t'
                 /\ tlv_v t' + tlv_l t' <= b + l
                 /\ 0 <= tlv_l t' < 65536).
Proof.
  induction fuel as [|fuel IH]; intros h b l t Hf;
    rewrite tlv_find_loop_eq;
    destruct (tlv_parseTLV_spec b l h) as (i & r & Y & Hi & Hr);
    destruct (Y t) as (t' & Yt & Et).
  - destruct (Z.gtb_spec i 0) as [G|G].
    + assert (i = 1) by lia. subst i. destruct (Hr eq_refl). lia.
    + eexists _, _. split.
      { ybind by (exact Yt). destruct (Z.gtb_spec i 0); [lia|]. apply yields_ret. }
      split; [auto|]. intros; lia.
  - destruct (Z.gtb_spec i 0) as [G|G].
    + assert (i = 1) by lia. subst i. rewrite (Et G) in Yt.
      destruct (Hr eq_refl) as (Hv & He & Hl & _).
      destruct (Z.eqb_spec (tlv_t r) tag) as [E|E].
      * exists 1, r. split.
        { ybind by (exact Yt). simpl (1 >? 0). cbv iota.
          rewrite (proj2 (Z.eqb_eq _ _) E). apply yields_ret. }
        split; [auto|]. intros _. repeat split; auto; lia.
      * destruct (IH h (tlv_v r + tlv_l r) (l - (tlv_v r + tlv_l r - b))
                    (set_v r (tlv_v r + tlv_l r)))
          as (r' & t'' & Y' & Hr' & Hf'); [lia|].
        exists r', t''. split.
        { ybind by (exact Yt). simpl (1 >? 0). cbv iota.
          rewrite (proj2 (Z.eqb_neq _ _) E). exact Y'. }
        split; [assumption|]. intros R. destruct (Hf' R) as (A & B & C & D).
        repeat split; auto; lia.
    + eexists _, _. split.
      { ybind by (exact Yt). destruct (Z.gtb_spec i 0); [lia|]. apply yields_ret. }
      split; [auto|]. intros; lia.
Qed.

Lemma tlv_find_spec b l tag out h :
  exists r t', yields (tlv_find b l tag out) h (r, t') h
    /\ (r = 0 \/ r = 1)
    /\ (r = 1 -> tlv_t t' = tag /\ b + 2 <= tlv_v t'
                 /\ tlv_v t' + tlv_l t' <= b + l
                 /\ 0 <= tlv_l t' < 65536).
Proof.
  unfold tlv_find. destruct (tag =? 0).
  - exists 0, out. split; [apply yields_ret|]. split; [auto|]. intros; lia.
  - apply tlv_find_loop_spec. lia.
Qed.

(** ** Rules for [post] *)

Lemma post_ret {A : Type} (x : A) h (Q : A -> heap -> Prop) :
  Q x h -> post (ret x) h Q.
Proof. intros H. exists x, h. split; [apply yields_ret|assumption]. Qed.

Lemma post_bind {A B : Type} (m : M A) (f : A -> M B) h (Q : B -> heap -> Prop) :
  post m h (fun a h1 => post (f a) h1 Q) -> post (bind m f) h Q.
Proof.
  intros (a & h1 & Y & b & h2 & Y' & H). exists b, h2.
  split; [eapply yields_bind; eauto|assumption].
Qed.

Lemma post_load a h (Q : Z -> heap -> Prop) :
  Q (uchar (h a)) h -> post (load a) h Q.
Proof. intros H. eexists _, _. split; [apply yields_load|assumption]. Qed.

Lemma post_store a x h (Q : unit -> heap -> Prop) :
  Q tt (upd h a (uchar x)) -> post (store a x) h Q.
Proof. intros H. eexists _, _. split; [apply yields_store|assumption]. Qed.

Lemma post_yields {A : Type} (m : M A) h a h' (Q : A -> heap -> Prop) :
  yields m h a h' -> Q a h' -> post m h Q.
Proof. intros Y H. exists a, h'. auto. Qed.

Lemma post_weaken {A : Type} (m : M A) h (P Q : A -> heap -> Prop) :
  post m h P -> (forall a h', P a h' -> Q a h') -> post m h Q.
Proof. intros (a & h' & Y & H) W. exists a, h'. auto. Qed.

Lemma post_inv {A : Type} (m : M A) h (Q : A -> heap -> Prop) a h' :
  post m h Q -> yields m h a h' -> Q a h'.
Proof.
  intros (a0 & h0 & Y0 & H) Y. destruct (yields_fun _ _ _ _ _ _ Y0 Y).
  subst. assumption.
Qed.

Lemma post_put_value b v n h (Q : unit -> heap -> Prop) :
  0 <= n ->
  (forall h',
      (forall a, ~ (b <= a < b + n) -> h' a = h a) ->
      (v = NULL -> forall k, 0 <= k < n -> h' (b + k) = 0) ->
      (v <> NULL -> b <= v \/ v + n <= b ->
       forall k, 0 <= k < n -> h' (b + k) = uchar (h (v + k))) ->
      Q tt h') ->
  post (put_value b v n) h Q.
Proof.
  intros Hn H. unfold put_value. destruct (Z.eqb_spec v NULL) as [E|E]; simpl negb; cbv iota.
  - destruct (memset_spec (Z.to_nat n) b 0 h) as (h' & Y & F & C).
    apply (post_yields _ _ _ _ _ Y). rewrite Z2Nat.id in * by lia.
    apply H; auto. contradiction.
  - destruct (memcpy_spec (Z.to_nat n) b v h) as (h' & Y & F & C).
    apply (post_yields _ _ _ _ _ Y). rewrite Z2Nat.id in * by lia.
    apply H; auto. contradiction.
Qed.

Ltac upd_simpl :=
  repeat first [ rewrite upd_same by lia | rewrite upd_other by lia ].

Lemma tb_add_append_spec tb tlv h :
  0 <= tlv_l tlv ->
  post (tb_add_append tb tlv) h (fun '(r, tb', tlv') h' =>
    (r = - EPIPE /\ tb' = tb /\ tlv' = tlv /\ h' = h
     /\ tb_len tb + tlv_l tlv + 2 >= tb_mlen tb)
    \/ (r = 1 /\ tb_len tb + tlv_l tlv + 2 < tb_mlen tb
        /\ appended tb tlv h tb' tlv' h')).
Proof.
  intros Hl. unfold tb_add_append.
  destruct (Z.geb_spec (tb_len tb + tlv_l tlv + 2) (tb_mlen tb)) as [G|G].
  { apply post_ret. left. repeat split; auto. lia. }
  unfold appended, encodedSpan, header_size, header, enc_tag, enc_len.
  remember (tb_buf tb + tb_len tb) as p eqn:Hp.
  destruct (Z.gtb_spec (tlv_t tlv) 0xff) as [Ht|Ht];
    destruct (Z.gtb_spec (tlv_l tlv) 0xff) as [Hl1|Hl1];
    try (destruct (Z.gtb_spec (tlv_l tlv) 0x7f) as [Hl2|Hl2]; [|try lia]);
    cbn [app length Z.of_nat Pos.of_succ_nat Pos.succ holds];
    repeat first [ apply post_bind | apply post_store | apply post_ret ];
    (apply post_put_value; [lia|]); intros h' F C0 C1;
    repeat first [ apply post_bind | apply post_store | apply post_ret ];
    right; (split; [reflexivity|]); (split; [exact G|]);
    cbn [tlv_l set_v];
    (split; [f_equal; f_equal; lia|]); (split; [f_equal; lia|]);
    (split; [repeat split; rewrite F by lia; upd_simpl;
             first [apply uchar_idem | reflexivity]|]);
    (split; [intros a Ha; rewrite F by lia; upd_simpl; reflexivity|]);
    (split; [intros N k Hk;
             match goal with
             | C : _ = NULL -> forall k, _ -> h' (?q + k) = 0 |- h' ?x = _ =>
                 replace x with (q + k) by lia
             end; auto|]);
    intros N D k Hk;
    match goal with
    | C : _ <> NULL -> _ -> forall k, _ -> h' (?q + k) = _ |- h' ?x = _ =>
        replace x with (q + k) by lia; rewrite C by (auto; lia)
    end; upd_simpl; reflexivity.
Qed.

(** ** Outcomes of the mutating operations *)

(** The ranges that [tb_del] hands to [memcpy] are apart exactly when no
    more bytes follow the record than it spans. *)
Lemma apart_tail dst span n :
  0 < span -> apart dst (dst + span) n = (Z.of_nat n <=? span).
Proof.
  intros Hs. unfold apart.
  destruct (Z.leb_spec (dst + Z.of_nat n) (dst + span));
    destruct (Z.leb_spec (dst + span + Z.of_nat n) dst);
    destruct (Z.leb_spec (Z.of_nat n) span); try reflexivity; lia.
Qed.





Lemma tb_addbuf_loop_eq fuel tb b l ovr t :
  tb_addbuf_loop fuel tb b l ovr t =
  ('(i, t) <- tlv_parseTLV b l t;;
   if i >? 0 then
     let t := set_v t (tlv_v t + tlv_l t) in
     let l := l - (tlv_v t - b) in
     let b := tlv_v t in
     let t := set_v t (tlv_v t - tlv_l t) in
     '(i, tb, t) <- tb_add tb t ovr;;
     if i <? 0 then ret (i, tb)
     else
       match fuel with
       | O => out_of_fuel
       | S k => tb_addbuf_loop k tb b l ovr t
       end
   else ret (if i <? 0 then i else 0, tb)).
Proof. destruct fuel; reflexivity. Qed.







(** On the sample: alone, the Overwrite deletes [81 01 aa] and is then
    refused; in the stream, [82 01 bb] is added first and stays when the
    second record is refused in the same way. *)
Example tight_run :
  result (tb_add tight_tb (mkTLV 0x81 6 NULL) 1 tight_heap)
  = Some (- EPIPE, mkTLVbuf 8 0 1000, mkTLV 0x81 6 NULL)
  /\ result (tb_addbuf tight_tb 2000 11 1 tight_heap)
     = Some (- EPIPE, mkTLVbuf 8 3 1000)
  /\ bytes_at (after (tb_addbuf tight_tb 2000 11 1 tight_heap)) 1000 3
     = [0x82; 0x01; 0xbb].
Proof. repeat split; vm_compute; reflexivity. Qed.

(** ** Decoding a canonical header *)

Lemma in_byte_values (z : Z) : 0 <= z < 256 -> In z byte_values.
Proof.
  intros Hz. unfold byte_values. apply in_map_iff.
  exists (Z.to_nat z). split; [lia|]. apply in_seq. lia.
Qed.

Lemma all_ushort_spec (P : Z -> bool) :
  all_ushort P = true -> forall z, 0 <= z < 65536 -> P z = true.
Proof.
  unfold all_ushort. intros H z Hz. rewrite forallb_forall in H.
  assert (Hhi : 0 <= z / 256 < 256).
  { split; [apply Z.div_pos; lia|apply Z.div_lt_upper_bound; lia]. }
  specialize (H (z / 256) (in_byte_values _ Hhi)).
  rewrite forallb_forall in H.
  assert (Hlo : 0 <= z mod 256 < 256) by (apply Z.mod_pos_bound; lia).
  specialize (H (z mod 256) (in_byte_values _ Hlo)).
  rewrite <- Z.div_mod in H by lia. exact H.
Qed.

Lemma tag_decodes_all (t : Z) : tag_decodes t = true.
Proof.
  destruct (Z.ltb_spec t 0) as [N|N].
  { unfold tag_decodes, tag_sound.
    replace (0 <? t) with false by lia.
    rewrite andb_false_r. reflexivity. }
  destruct (Z.ltb_spec t 65536) as [B|B].
  - apply all_ushort_spec; [vm_compute; reflexivity|lia].
  - unfold tag_decodes, tag_sound.
    replace (t <? 65536) with false by lia.
    rewrite andb_false_r. reflexivity.
Qed.

Lemma len_decodes_all (l : Z) : 0 <= l < 65536 -> len_decodes l = true.
Proof. intros H. apply all_ushort_spec; [vm_compute; reflexivity|lia]. Qed.

(** A sound tag, seen by the decoder. *)
Lemma tag_sound_cases (t : Z) :
  tag_sound t = true ->
  0 < t < 65536
  /\ ((t <= 0xff /\ uchar t = t /\ Z.land t TAG_SEQ <> TAG_SEQ)
      \/ (0xff < t
          /\ Z.land (uchar (Z.shiftr t 8)) TAG_SEQ = TAG_SEQ
          /\ Z.land (uchar t) TAG_NEXT = 0
          /\ Z.lor (ushort (Z.shiftl (uchar (Z.shiftr t 8)) 8)) (uchar t) = t)).
Proof.
  intros S. pose proof (tag_decodes_all t) as D. unfold tag_decodes in D.
  rewrite S in D. simpl implb in D.
  assert (R : 0 < t < 65536).
  { unfold tag_sound in S. repeat (apply andb_prop in S; destruct S as [S ?]).
    lia. }
  split; [assumption|].
  destruct (Z.leb_spec t 0xff).
  - left. repeat (apply andb_prop in D; destruct D as [D ?]).
    repeat split; lia.
  - right. apply andb_prop in D. destruct D as [D D3].
    apply andb_prop in D. destruct D as [D1 D2].
    apply Z.eqb_eq in D1, D2, D3. repeat split; assumption.
Qed.

Lemma len_cases (l : Z) :
  0 <= l < 65536 ->
  (l <= 0x7f /\ uchar l = l /\ Z.land l LEN_BYTES = 0)
  \/ (0x7f < l <= 0xff /\ Z.lor (ushort (Z.shiftl 0 8)) (uchar l) = l)
  \/ (0xff < l
      /\ Z.lor (ushort (Z.shiftl
                          (Z.lor (ushort (Z.shiftl 0 8)) (uchar (Z.shiftr l 8)))
                          8))
               (uchar l) = l).
Proof.
  intros R. pose proof (len_decodes_all l R) as D. unfold len_decodes in D.
  destruct (Z.leb_spec l 0x7f).
  - left. apply andb_prop in D. lia.
  - destruct (Z.leb_spec l 0xff).
    + right; left. lia.
    + right; right. lia.
Qed.

Lemma tlv_tag_canonical t h p rlen tag0 :
  tag_sound t = true -> holds h p (enc_tag t) ->
  Z.of_nat (length (enc_tag t)) <= rlen ->
  yields (tlv_tag p rlen tag0) h (Z.of_nat (length (enc_tag t)), t) h.
Proof.
  intros S H L. destruct (tag_sound_cases t S) as (R & [(W & U & NS)|(W & S0 & N1 & V)]);
    unfold enc_tag in *.
  - destruct (Z.gtb_spec t 0xff); [lia|]. cbn [length Z.of_nat holds] in *.
    destruct H as (B0 & _). rewrite U in B0.
    unfold tlv_tag. destruct (Z.ltb_spec rlen 0); [lia|].
    ybind by (rewrite skip_filler_eq; destruct (Z.ltb_spec 0 rlen); [|lia];
              rewrite Z.add_0_r; yload; rewrite B0;
              destruct (Z.eqb_spec t 0); [lia|]; apply yields_ret).
    destruct (Z.eqb_spec 0 rlen); [lia|]. rewrite Z.add_0_r.
    yload. yload. rewrite B0.
    destruct (Z.eqb_spec (Z.land t TAG_SEQ) TAG_SEQ); [contradiction|].
    apply yields_ret.
  - destruct (Z.gtb_spec t 0xff); [|lia]. cbn [length Z.of_nat holds] in *.
    destruct H as (B0 & B1 & _).
    pose proof (seq_nonzero _ S0) as NZ.
    unfold tlv_tag. destruct (Z.ltb_spec rlen 0); [lia|].
    ybind by (rewrite skip_filler_eq; destruct (Z.ltb_spec 0 rlen); [|lia];
              rewrite Z.add_0_r; yload; rewrite B0;
              destruct (Z.eqb_spec (uchar (Z.shiftr t 8)) 0); [lia|];
              apply yields_ret).
    destruct (Z.eqb_spec 0 rlen); [lia|]. rewrite Z.add_0_r.
    yload. yload. rewrite B0. rewrite (proj2 (Z.eqb_eq _ _) S0).
    ybind by (rewrite tag_more_eq; rewrite Z.add_0_l; yload; rewrite B1;
              destruct (Z.ltb_spec 1 rlen); [|lia]; yload; rewrite B1;
              rewrite N1; simpl negb; cbv iota; apply yields_ret).
    destruct (Z.geb_spec 1 rlen); [lia|].
    ybind by (yload; rewrite B1, N1; apply yields_ret).
    simpl negb. cbv iota. rewrite V. apply yields_ret.
Qed.

Lemma holds_app h p bs cs :
  holds h p (bs ++ cs) <->
  holds h p bs /\ holds h (p + Z.of_nat (length bs)) cs.
Proof.
  revert p. induction bs as [|b bs IH]; intros p.
  - simpl. rewrite Z.add_0_r. tauto.
  - cbn [app holds length]. rewrite IH.
    replace (p + 1 + Z.of_nat (length bs)) with (p + Z.of_nat (S (length bs)))
      by lia.
    tauto.
Qed.

Lemma header_size_range t l : 2 <= header_size t l <= 5.
Proof.
  unfold header_size, header, enc_tag, enc_len. rewrite length_app.
  destruct (t >? 0xff); destruct (l >? 0xff); try destruct (l >? 0x7f);
    simpl; lia.
Qed.

Lemma tlv_tlv0_canonical t l h p rlen t0 :
  tag_sound t = true -> 0 <= l < 65536 ->
  holds h p (header t l) -> header_size t l <= rlen ->
  yields (tlv_tlv0 p rlen t0) h (1, mkTLV t l (p + header_size t l)) h.
Proof.
  intros S R H L. unfold header_size, header in *.
  rewrite length_app, Nat2Z.inj_add in *.
  apply holds_app in H. destruct H as (Ht & Hl).
  set (n := Z.of_nat (length (enc_tag t))) in *.
  assert (Hn : 1 <= n <= 2).
  { unfold n, enc_tag. destruct (t >? 0xff); simpl; lia. }
  assert (Hm : 1 <= Z.of_nat (length (enc_len l)) <= 3).
  { unfold enc_len. destruct (l >? 0xff); [|destruct (l >? 0x7f)]; simpl; lia. }
  pose proof (tlv_tag_canonical t h p rlen (tlv_t t0) S Ht ltac:(fold n; lia)) as Yt.
  fold n in Yt.
  unfold tlv_tlv0. ybind by (exact Yt).
  destruct (Z.leb_spec n 0); [lia|].
  destruct (Z.leb_spec (rlen - n) 0); [lia|].
  unfold enc_len in *.
  destruct (len_cases l R) as [(W & U & B)|[(W & V)|(W & V)]].
  - destruct (Z.gtb_spec l 0xff); [lia|]. destruct (Z.gtb_spec l 0x7f); [lia|].
    cbn [holds length Z.of_nat Pos.of_succ_nat] in *. destruct Hl as (B0 & _).
    rewrite U in B0. yload. rewrite B0, B. simpl negb. cbv iota.
    cbn [set_t set_l set_v tlv_t tlv_l tlv_v].
    replace (p + n + 1) with (p + (n + 1)) by lia. apply yields_ret.
  - destruct (Z.gtb_spec l 0xff); [lia|]. destruct (Z.gtb_spec l 0x7f); [|lia].
    cbn [holds length Z.of_nat Pos.of_succ_nat Pos.succ] in *.
    destruct Hl as (B0 & B1 & _).
    yload. rewrite B0. simpl (negb _). cbv iota.
    simpl (Z.land 129 127).
    destruct (Z.gtb_spec 1 (rlen - n - 1)); [lia|]. simpl (1 >? 2). cbv iota.
    ybind by (change (Z.to_nat 1) with 1%nat; cbn [len_bytes]; yload; rewrite B1, V; apply yields_ret).
    cbn [set_t set_l set_v tlv_t tlv_l tlv_v].
    replace (p + n + 1 + 1) with (p + (n + 2)) by lia. apply yields_ret.
  - destruct (Z.gtb_spec l 0xff); [|lia].
    cbn [holds length Z.of_nat Pos.of_succ_nat Pos.succ] in *.
    destruct Hl as (B0 & B1 & B2 & _).
    yload. rewrite B0. simpl (negb _). cbv iota.
    simpl (Z.land 130 127).
    destruct (Z.gtb_spec 2 (rlen - n - 1)); [lia|]. simpl (2 >? 2). cbv iota.
    ybind by (change (Z.to_nat 2) with 2%nat; cbn [len_bytes]; yload; rewrite B1; yload; rewrite B2, V; apply yields_ret).
    cbn [set_t set_l set_v tlv_t tlv_l tlv_v].
    replace (p + n + 1 + 1 + 1) with (p + (n + 3)) by lia. apply yields_ret.
Qed.

(** [tlv_parseTLV] on the canonical encoding of a record. *)
Lemma tlv_parseTLV_canonical t l h p rlen t0 :
  tag_sound t = true -> 0 <= l < 65536 ->
  holds h p (header t l) -> encodedSpan t l <= rlen ->
  yields (tlv_parseTLV p rlen t0) h (1, mkTLV t l (p + header_size t l)) h.
Proof.
  intros S R H L. unfold encodedSpan in L.
  unfold tlv_parseTLV.
  ybind by (apply (tlv_tlv0_canonical t l); [exact S|exact R|exact H|lia]).
  destruct (Z.leb_spec 1 0); [lia|]. cbn [tlv_l tlv_v].
  destruct (Z.gtb_spec l (rlen - (p + header_size t l - p))); [lia|].
  apply yields_ret.
Qed.

Lemma tlv_check_loop_eq fuel b l t :
  tlv_check_loop fuel b l t =
  ('(i, t) <- tlv_parseTLV b l t;;
   if i >? 0 then
     match fuel with
     | O => out_of_fuel
     | S k =>
         sub <- (if negb (Z.land (tlv_tag0 (tlv_t t)) TAG_CONSTR =? 0)
                 then tlv_check_loop k (tlv_v t) (tlv_l t) TLV_undef
                 else ret 1);;
         if sub =? 0 then ret 0
         else
           let t := set_v t (tlv_v t + tlv_l t) in
           let l := l - (tlv_v t - b) in
           let b := tlv_v t in
           tlv_check_loop k b l t
     end
   else ret (if i =? 0 then 1 else 0)).
Proof. destruct fuel; reflexivity. Qed.

(** ** The decoders see the bytes below the limit only

    Two buffers that agree on [rlen] bytes are decoded alike; the byte
    that [tlv_tag] may load at index [rlen] reaches only the tag value
    of a failed decode. *)

Lemma skip_filler_rel h h' p q rlen fuel i :
  agree h h' p q rlen ->
  0 <= i <= rlen -> rlen - i <= Z.of_nat fuel ->
  exists i', yields (skip_filler fuel p rlen i) h i' h
    /\ yields (skip_filler fuel q rlen i) h' i' h'
    /\ i <= i' <= rlen.
Proof.
  intros A Hi Hf.
  destruct (skip_filler_spec fuel p rlen h i Hi Hf) as (a & Ya & Ra & Za & Na).
  destruct (skip_filler_spec fuel q rlen h' i Hi Hf) as (b & Yb & Rb & Zb & Nb).
  assert (a = b).
  { destruct (Z.lt_trichotomy a b) as [L|[E|L]]; [|assumption|].
    - exfalso. apply Na; [lia|]. rewrite <- (A a) by lia. apply Zb. lia.
    - exfalso. apply Nb; [lia|]. rewrite (A b) by lia. apply Za. lia. }
  subst b. exists a. auto.
Qed.

Lemma tag_more_rel h h' p q rlen :
  agree h h' p q rlen ->
  forall fuel i tag, 0 <= i < rlen -> rlen - i <= Z.of_nat fuel + 1 ->
  exists i' tg tg',
    yields (tag_more fuel p rlen i tag) h (i', tg) h
    /\ yields (tag_more fuel q rlen i tag) h' (i', tg') h'
    /\ i < i' <= rlen
    /\ (i' < rlen -> tg' = tg).
Proof.
  intros A. induction fuel as [|fuel IH]; intros i tag Hi Hf.
  - eexists _, _, _. split; [|split; [|split]].
    + rewrite tag_more_eq. yload. destruct (Z.ltb_spec (i + 1) rlen); [lia|].
      apply yields_ret.
    + rewrite tag_more_eq. yload. destruct (Z.ltb_spec (i + 1) rlen); [lia|].
      apply yields_ret.
    + lia.
    + intros; lia.
  - destruct (Z.ltb_spec (i + 1) rlen) as [L|L].
    + pose proof (A (i + 1) ltac:(lia)) as E1.
      destruct (Z.eqb_spec (Z.land (uchar (h (p + (i + 1)))) TAG_NEXT) 0)
        as [E|E].
      * eexists _, _, _. split; [|split; [|split]].
        { rewrite tag_more_eq. yload.
          destruct (Z.ltb_spec (i + 1) rlen); [|lia]. yload.
          rewrite (proj2 (Z.eqb_eq _ _) E). apply yields_ret. }
        { rewrite tag_more_eq. yload.
          destruct (Z.ltb_spec (i + 1) rlen); [|lia]. yload. rewrite E1.
          rewrite (proj2 (Z.eqb_eq _ _) E). apply yields_ret. }
        { lia. }
        { intros _. reflexivity. }
      * destruct (IH (i + 1)
                    (Z.lor (ushort (Z.shiftl tag 8)) (uchar (h (p + (i + 1))))))
          as (i' & tg & tg' & Y & Y' & R & T); try lia.
        exists i', tg, tg'. split; [|split; [|split]].
        { rewrite tag_more_eq. yload.
          destruct (Z.ltb_spec (i + 1) rlen); [|lia]. yload.
          rewrite (proj2 (Z.eqb_neq _ _) E). exact Y. }
        { rewrite tag_more_eq. yload.
          destruct (Z.ltb_spec (i + 1) rlen); [|lia]. yload. rewrite E1.
          rewrite (proj2 (Z.eqb_neq _ _) E). exact Y'. }
        { lia. }
        { exact T. }
    + eexists _, _, _. split; [|split; [|split]].
      * rewrite tag_more_eq. yload. destruct (Z.ltb_spec (i + 1) rlen); [lia|].
        apply yields_ret.
      * rewrite tag_more_eq. yload. destruct (Z.ltb_spec (i + 1) rlen); [lia|].
        apply yields_ret.
      * lia.
      * intros; lia.
Qed.

Lemma tlv_tag_rel h h' p q rlen tag tag' :
  agree h h' p q rlen ->
  exists n tg tg',
    yields (tlv_tag p rlen tag) h (n, tg) h
    /\ yields (tlv_tag q rlen tag') h' (n, tg') h'
    /\ (n = -1 \/ n = 0 \/ 0 < n <= rlen)
    /\ (0 < n -> tg' = tg).
Proof.
  intros A. unfold tlv_tag. destruct (Z.ltb_spec rlen 0).
  { exists (-1), tag, tag'. split; [apply yields_ret|].
    split; [apply yields_ret|]. split; [auto|intros; lia]. }
  destruct (skip_filler_rel h h' p q rlen (Z.to_nat rlen) 0 A)
    as (j & Y & Y' & R); try lia.
  destruct (Z.eqb_spec j rlen) as [E|E].
  { exists 0, tag, tag'. split; [|split; [|split; [auto|intros; lia]]].
    - ybind by (exact Y). rewrite (proj2 (Z.eqb_eq _ _) E). apply yields_ret.
    - ybind by (exact Y'). rewrite (proj2 (Z.eqb_eq _ _) E). apply yields_ret. }
  pose proof (A j ltac:(lia)) as Ej.
  destruct (Z.eqb_spec (Z.land (uchar (h (p + j))) TAG_SEQ) TAG_SEQ) as [S|S].
  - destruct (tag_more_rel h h' p q rlen A (Z.to_nat rlen) j (uchar (h (p + j))))
      as (i' & tg & tg' & Ym & Ym' & Rm & T); try lia.
    destruct (Z.geb_spec i' rlen) as [G|G].
    { exists (-1), tg, tg'. split; [|split; [|split; [auto|intros; lia]]].
      - ybind by (exact Y). rewrite (proj2 (Z.eqb_neq _ _) E).
        yload. yload. rewrite (proj2 (Z.eqb_eq _ _) S).
        ybind by (exact Ym). destruct (Z.geb_spec i' rlen); [|lia].
        ybind by (apply yields_ret). apply yields_ret.
      - ybind by (exact Y'). rewrite (proj2 (Z.eqb_neq _ _) E).
        yload. yload. rewrite Ej. rewrite (proj2 (Z.eqb_eq _ _) S).
        ybind by (exact Ym'). destruct (Z.geb_spec i' rlen); [|lia].
        ybind by (apply yields_ret). apply yields_ret. }
    rewrite (T G) in Ym'. pose proof (A i' ltac:(lia)) as Ei.
    destruct (Z.eqb_spec (Z.land (uchar (h (p + i'))) TAG_NEXT) 0) as [N|N].
    + exists (i' + 1), (if i' + 1 - j >? 2 then 0 else tg),
        (if i' + 1 - j >? 2 then 0 else tg).
      split; [|split; [|split; [lia|reflexivity]]].
      * ybind by (exact Y). rewrite (proj2 (Z.eqb_neq _ _) E).
        yload. yload. rewrite (proj2 (Z.eqb_eq _ _) S).
        ybind by (exact Ym). destruct (Z.geb_spec i' rlen); [lia|].
        ybind by (yload; apply yields_ret).
        rewrite (proj2 (Z.eqb_eq _ _) N). simpl negb. cbv iota.
        apply yields_ret.
      * ybind by (exact Y'). rewrite (proj2 (Z.eqb_neq _ _) E).
        yload. yload. rewrite Ej. rewrite (proj2 (Z.eqb_eq _ _) S).
        ybind by (exact Ym'). destruct (Z.geb_spec i' rlen); [lia|].
        ybind by (yload; apply yields_ret). rewrite Ei.
        rewrite (proj2 (Z.eqb_eq _ _) N). simpl negb. cbv iota.
        apply yields_ret.
    + exists (-1), tg, tg. split; [|split; [|split; [auto|reflexivity]]].
      * ybind by (exact Y). rewrite (proj2 (Z.eqb_neq _ _) E).
        yload. yload. rewrite (proj2 (Z.eqb_eq _ _) S).
        ybind by (exact Ym). destruct (Z.geb_spec i' rlen); [lia|].
        ybind by (yload; apply yields_ret).
        rewrite (proj2 (Z.eqb_neq _ _) N). simpl negb. cbv iota.
        apply yields_ret.
      * ybind by (exact Y'). rewrite (proj2 (Z.eqb_neq _ _) E).
        yload. yload. rewrite Ej. rewrite (proj2 (Z.eqb_eq _ _) S).
        ybind by (exact Ym'). destruct (Z.geb_spec i' rlen); [lia|].
        ybind by (yload; apply yields_ret). rewrite Ei.
        rewrite (proj2 (Z.eqb_neq _ _) N). simpl negb. cbv iota.
        apply yields_ret.
  - exists (j + 1), (if j + 1 - j >? 2 then 0 else uchar (h (p + j))),
      (if j + 1 - j >? 2 then 0 else uchar (h (p + j))).
    split; [|split; [|split; [lia|reflexivity]]].
    + ybind by (exact Y). rewrite (proj2 (Z.eqb_neq _ _) E).
      yload. yload. rewrite (proj2 (Z.eqb_neq _ _) S). apply yields_ret.
    + ybind by (exact Y'). rewrite (proj2 (Z.eqb_neq _ _) E).
      yload. yload. rewrite Ej. rewrite (proj2 (Z.eqb_neq _ _) S).
      apply yields_ret.
Qed.

Lemma len_bytes_rel h h' p q rlen :
  agree h h' p q rlen ->
  forall n o len, 0 <= o -> o + Z.of_nat n <= rlen -> 0 <= len < 65536 ->
  exists len',
    yields (len_bytes n (p + o) len) h (len', p + o + Z.of_nat n) h
    /\ yields (len_bytes n (q + o) len) h' (len', q + o + Z.of_nat n) h'
    /\ 0 <= len' < 65536.
Proof.
  intros A. induction n as [|n IH]; intros o len Ho Hn Hl.
  - exists len. rewrite !Z.add_0_r. repeat split; try apply yields_ret; lia.
  - destruct (IH (o + 1) (Z.lor (ushort (Z.shiftl len 8)) (uchar (h (p + o)))))
      as (len' & Y & Y' & B); [lia|lia|apply shift_lor_range|].
    exists len'. split; [|split; [|exact B]].
    + cbn [len_bytes]. yload.
      replace (p + o + Z.of_nat (S n)) with (p + (o + 1) + Z.of_nat n) by lia.
      replace (p + o + 1) with (p + (o + 1)) by lia. exact Y.
    + cbn [len_bytes]. yload. rewrite (A o) by lia.
      replace (q + o + Z.of_nat (S n)) with (q + (o + 1) + Z.of_nat n) by lia.
      replace (q + o + 1) with (q + (o + 1)) by lia. exact Y'.
Qed.

Lemma tlv_tlv0_rel h h' p q rlen t t' :
  agree h h' p q rlen ->
  exists i r r',
    yields (tlv_tlv0 p rlen t) h (i, r) h
    /\ yields (tlv_tlv0 q rlen t') h' (i, r') h'
    /\ (0 < i ->
        i = 1 /\ tlv_t r' = tlv_t r /\ tlv_l r' = tlv_l r
        /\ tlv_v r' - q = tlv_v r - p
        /\ p + 2 <= tlv_v r <= p + rlen /\ 0 <= tlv_l r < 65536).
Proof.
  intros A.
  destruct (tlv_tag_rel h h' p q rlen (tlv_t t) (tlv_t t') A)
    as (n & tg & tg' & Y & Y' & Rn & T).
  unfold tlv_tlv0.
  destruct (Z.leb_spec n 0) as [Hn|Hn].
  { eexists _, _, _. split; [|split].
    - ybind by (exact Y). destruct (Z.leb_spec n 0); [|lia]. apply yields_ret.
    - ybind by (exact Y'). destruct (Z.leb_spec n 0); [|lia]. apply yields_ret.
    - intros; lia. }
  rewrite (T Hn) in Y'.
  destruct (Z.leb_spec (rlen - n) 0) as [Hs|Hs].
  { exists (-1). eexists _, _. split; [|split].
    - ybind by (exact Y). destruct (Z.leb_spec n 0); [lia|].
      destruct (Z.leb_spec (rlen - n) 0); [|lia]. apply yields_ret.
    - ybind by (exact Y'). destruct (Z.leb_spec n 0); [lia|].
      destruct (Z.leb_spec (rlen - n) 0); [|lia]. apply yields_ret.
    - intros; lia. }
  pose proof (A n ltac:(lia)) as En.
  set (c := uchar (h (p + n))) in *.
  pose proof (uchar_range (h (p + n))) as Rc. fold c in Rc.
  destruct (Z.eqb_spec (Z.land c LEN_BYTES) 0) as [Lf|Lf].
  { exists 1. eexists _, _. split; [|split].
    - ybind by (exact Y). destruct (Z.leb_spec n 0); [lia|].
      destruct (Z.leb_spec (rlen - n) 0); [lia|].
      yload. fold c. rewrite (proj2 (Z.eqb_eq _ _) Lf). simpl negb. cbv iota.
      apply yields_ret.
    - ybind by (exact Y'). destruct (Z.leb_spec n 0); [lia|].
      destruct (Z.leb_spec (rlen - n) 0); [lia|].
      yload. rewrite En. rewrite (proj2 (Z.eqb_eq _ _) Lf). simpl negb.
      cbv iota. apply yields_ret.
    - intros _. cbn [set_t set_l set_v tlv_t tlv_l tlv_v]. lia. }
  pose proof (land_7f_range c) as Hk.
  destruct (Z.gtb_spec (Z.land c 0x7f) (rlen - n - 1)) as [Hg|Hg].
  { exists (-1). eexists _, _. split; [|split].
    - ybind by (exact Y). destruct (Z.leb_spec n 0); [lia|].
      destruct (Z.leb_spec (rlen - n) 0); [lia|].
      yload. fold c. rewrite (proj2 (Z.eqb_neq _ _) Lf). simpl negb. cbv iota.
      destruct (Z.gtb_spec (Z.land c 0x7f) (rlen - n - 1)); [|lia].
      apply yields_ret.
    - ybind by (exact Y'). destruct (Z.leb_spec n 0); [lia|].
      destruct (Z.leb_spec (rlen - n) 0); [lia|].
      yload. rewrite En. rewrite (proj2 (Z.eqb_neq _ _) Lf). simpl negb.
      cbv iota.
      destruct (Z.gtb_spec (Z.land c 0x7f) (rlen - n - 1)); [|lia].
      apply yields_ret.
    - intros; lia. }
  destruct (Z.gtb_spec (Z.land c 0x7f) 2) as [H2|H2].
  { exists (-2). eexists _, _. split; [|split].
    - ybind by (exact Y). destruct (Z.leb_spec n 0); [lia|].
      destruct (Z.leb_spec (rlen - n) 0); [lia|].
      yload. fold c. rewrite (proj2 (Z.eqb_neq _ _) Lf). simpl negb. cbv iota.
      destruct (Z.gtb_spec (Z.land c 0x7f) (rlen - n - 1)); [lia|].
      destruct (Z.gtb_spec (Z.land c 0x7f) 2); [|lia].
      apply yields_ret.
    - ybind by (exact Y'). destruct (Z.leb_spec n 0); [lia|].
      destruct (Z.leb_spec (rlen - n) 0); [lia|].
      yload. rewrite En. rewrite (proj2 (Z.eqb_neq _ _) Lf). simpl negb.
      cbv iota.
      destruct (Z.gtb_spec (Z.land c 0x7f) (rlen - n - 1)); [lia|].
      destruct (Z.gtb_spec (Z.land c 0x7f) 2); [|lia].
      apply yields_ret.
    - intros; lia. }
  destruct (len_bytes_rel h h' p q rlen A (Z.to_nat (Z.land c 0x7f)) (n + 1) 0)
    as (len & Yl & Yl' & Bl); [lia|lia|lia|].
  exists 1. eexists _, _. split; [|split].
  - ybind by (exact Y). destruct (Z.leb_spec n 0); [lia|].
    destruct (Z.leb_spec (rlen - n) 0); [lia|].
    yload. fold c. rewrite (proj2 (Z.eqb_neq _ _) Lf). simpl negb. cbv iota.
    destruct (Z.gtb_spec (Z.land c 0x7f) (rlen - n - 1)); [lia|].
    destruct (Z.gtb_spec (Z.land c 0x7f) 2); [lia|].
    replace (p + n + 1) with (p + (n + 1)) by lia.
    ybind by (exact Yl). apply yields_ret.
  - ybind by (exact Y'). destruct (Z.leb_spec n 0); [lia|].
    destruct (Z.leb_spec (rlen - n) 0); [lia|].
    yload. rewrite En. rewrite (proj2 (Z.eqb_neq _ _) Lf). simpl negb.
    cbv iota.
    destruct (Z.gtb_spec (Z.land c 0x7f) (rlen - n - 1)); [lia|].
    destruct (Z.gtb_spec (Z.land c 0x7f) 2); [lia|].
    replace (q + n + 1) with (q + (n + 1)) by lia.
    ybind by (exact Yl'). apply yields_ret.
  - intros _. cbn [set_t set_l set_v tlv_t tlv_l tlv_v]. lia.
Qed.

Lemma tlv_parseTLV_rel h h' p q rlen t t' :
  agree h h' p q rlen ->
  exists i r r',
    yields (tlv_parseTLV p rlen t) h (i, r) h
    /\ yields (tlv_parseTLV q rlen t') h' (i, r') h'
    /\ (0 < i ->
        i = 1 /\ tlv_t r' = tlv_t r /\ tlv_l r' = tlv_l r
        /\ tlv_v r' - q = tlv_v r - p
        /\ p + 2 <= tlv_v r /\ tlv_v r + tlv_l r <= p + rlen
        /\ 0 <= tlv_l r < 65536).
Proof.
  intros A.
  destruct (tlv_tlv0_rel h h' p q rlen t t' A) as (i & r & r' & Y & Y' & H).
  unfold tlv_parseTLV.
  destruct (Z.leb_spec i 0) as [Hn|Hn].
  { exists i, r, r'. split; [|split].
    - ybind by (exact Y). destruct (Z.leb_spec i 0); [|lia]. apply yields_ret.
    - ybind by (exact Y'). destruct (Z.leb_spec i 0); [|lia]. apply yields_ret.
    - intros; lia. }
  destruct (H Hn) as (-> & Et & El & Ev & Rv & Rl).
  destruct (Z.gtb_spec (tlv_l r) (rlen - (tlv_v r - p))) as [G|G].
  - exists (-1), r, r'. split; [|split].
    + ybind by (exact Y). destruct (Z.leb_spec 1 0); [lia|].
      destruct (Z.gtb_spec (tlv_l r) (rlen - (tlv_v r - p))); [|lia].
      apply yields_ret.
    + ybind by (exact Y'). destruct (Z.leb_spec 1 0); [lia|].
      rewrite El, Ev.
      destruct (Z.gtb_spec (tlv_l r) (rlen - (tlv_v r - p))); [|lia].
      apply yields_ret.
    + intros; lia.
  - exists 1, r, r'. split; [|split].
    + ybind by (exact Y). destruct (Z.leb_spec 1 0); [lia|].
      destruct (Z.gtb_spec (tlv_l r) (rlen - (tlv_v r - p))); [lia|].
      apply yields_ret.
    + ybind by (exact Y'). destruct (Z.leb_spec 1 0); [lia|].
      rewrite El, Ev.
      destruct (Z.gtb_spec (tlv_l r) (rlen - (tlv_v r - p))); [lia|].
      apply yields_ret.
    + intros _. repeat split; auto; lia.
Qed.

Lemma agree_sub h h' p q n o m :
  agree h h' p q n -> 0 <= o -> o + m <= n ->
  agree h h' (p + o) (q + o) m.
Proof.
  intros A Ho Hm k Hk.
  replace (q + o + k) with (q + (o + k)) by lia.
  replace (p + o + k) with (p + (o + k)) by lia. apply A. lia.
Qed.

(** [tlv_check] returns, and its answer depends on the bytes of the
    range only, not on the fuel beyond the length of the range. *)
Lemma tlv_check_loop_rel : forall fuel fuel' h h' p q l t t',
  agree h h' p q l -> l <= Z.of_nat fuel -> l <= Z.of_nat fuel' ->
  exists r,
    yields (tlv_check_loop fuel p l t) h r h
    /\ yields (tlv_check_loop fuel' q l t') h' r h'
    /\ (r = 0 \/ r = 1).
Proof.
  induction fuel as [|fuel IH]; intros fuel' h h' p q l t t' A Hf Hf';
    rewrite !tlv_check_loop_eq;
    destruct (tlv_parseTLV_rel h h' p q l t t' A) as (i & r & r' & Y & Y' & H);
    (destruct (Z.gtb_spec i 0) as [G|G];
     [| exists (if i =? 0 then 1 else 0); split; [|split];
        [ ybind by (exact Y); destruct (Z.gtb_spec i 0); [lia|];
          apply yields_ret
        | ybind by (exact Y'); destruct (Z.gtb_spec i 0); [lia|];
          apply yields_ret
        | destruct (i =? 0); auto ]]);
    destruct (H G) as (-> & Et & El & Ev & Rv & Re & Rl).
  - lia.
  - destruct fuel' as [|fuel']; [lia|].
    set (v := tlv_v r) in *. set (l0 := tlv_l r) in *.
    assert (Ev' : tlv_v r' = q + (v - p)) by lia.
    assert (Sub : exists s,
               yields (if negb (Z.land (tlv_tag0 (tlv_t r)) TAG_CONSTR =? 0)
                       then tlv_check_loop fuel v l0 TLV_undef
                       else ret 1) h s h
               /\ yields (if negb (Z.land (tlv_tag0 (tlv_t r)) TAG_CONSTR =? 0)
                          then tlv_check_loop fuel' (q + (v - p)) l0 TLV_undef
                          else ret 1) h' s h'
               /\ (s = 0 \/ s = 1)).
    { destruct (negb (Z.land (tlv_tag0 (tlv_t r)) TAG_CONSTR =? 0)).
      - destruct (IH fuel' h h' (p + (v - p)) (q + (v - p)) l0
                    TLV_undef TLV_undef) as (s & Ys & Ys' & Rs); [|lia|lia|].
        { apply (agree_sub h h' p q l); [assumption|lia|lia]. }
        replace (p + (v - p)) with v in Ys by lia. exists s. auto.
      - exists 1. repeat split; try apply yields_ret. auto. }
    destruct Sub as (s & Ys & Ys' & Rs).
    destruct (IH fuel' h h' (p + (v + l0 - p)) (q + (v + l0 - p))
                (l - (v + l0 - p)) (set_v r (v + l0)) (set_v r' (tlv_v r' + l0)))
      as (rr & Yr & Yr' & Rr); [|lia|lia|].
    { apply (agree_sub h h' p q l); [assumption|lia|lia]. }
    exists (if s =? 0 then 0 else rr). split; [|split].
    + ybind by (exact Y). change (1 >? 0) with true. cbv iota.
      fold v l0. ybind by (exact Ys).
      destruct (s =? 0); [apply yields_ret|]. cbv zeta.
      cbn [set_v tlv_v tlv_l].
      replace (p + (v + l0 - p)) with (v + l0) in Yr by lia. exact Yr.
    + ybind by (exact Y'). change (1 >? 0) with true. cbv iota.
      rewrite Et, El, Ev'. ybind by (exact Ys').
      destruct (s =? 0); [apply yields_ret|]. cbv zeta.
      cbn [set_v tlv_v tlv_l]. try rewrite El. try rewrite Ev'.
      replace (q + (v + l0 - p)) with (q + (v - p) + l0) in Yr' by lia.
      replace (l - (q + (v - p) + l0 - q)) with (l - (v + l0 - p)) by lia.
      rewrite Ev' in Yr'. exact Yr'.
    + destruct (s =? 0); auto.
Qed.

Lemma tlv_check_agree h h' p q l :
  agree h h' p q l ->
  yields (tlv_check p l) h 1 h -> yields (tlv_check q l) h' 1 h'.
Proof.
  intros A Y. unfold tlv_check in *.
  destruct (tlv_check_loop_rel (Z.to_nat l) (Z.to_nat l) h h' p q l
              TLV_undef TLV_undef A)
    as (r & Yr & Yr' & _); try lia.
  destruct (yields_fun _ _ _ _ _ _ Y Yr) as (<- & _). exact Yr'.
Qed.

(** With fuel for the length of the range, [tlv_check_loop] answers as
    [tlv_check]. *)
Lemma tlv_check_loop_fuel h p l fuel t r :
  l <= Z.of_nat fuel ->
  yields (tlv_check p l) h r h -> yields (tlv_check_loop fuel p l t) h r h.
Proof.
  intros Hf Y. unfold tlv_check in Y.
  assert (A : agree h h p p l) by (intros k _; reflexivity).
  destruct (tlv_check_loop_rel (Z.to_nat l) fuel h h p p l TLV_undef t A)
    as (r' & Yr & Yr' & _); try lia.
  destruct (yields_fun _ _ _ _ _ _ Y Yr) as (<- & _). exact Yr'.
Qed.

(** [tlv_check] is total. *)
Lemma tlv_check_total h p l :
  exists r, yields (tlv_check p l) h r h /\ (r = 0 \/ r = 1).
Proof.
  assert (A : agree h h p p l) by (intros k _; reflexivity).
  destruct (tlv_check_loop_rel (Z.to_nat l) (Z.to_nat l) h h p p l
              TLV_undef TLV_undef A)
    as (r & Yr & _ & R); try lia.
  exists r. auto.
Qed.

(** ** Well-formed record sequences *)

Lemma rec_ok_span t l : rec_ok (t, l) -> 3 <= encodedSpan t l.
Proof.
  intros (_ & R). simpl in R. unfold encodedSpan.
  pose proof (header_size_range t l). lia.
Qed.

Lemma span_of_length rs :
  Forall rec_ok rs -> Z.of_nat (length rs) <= span_of rs.
Proof.
  induction 1 as [|[t l] r H _ IH]; simpl span_of; [simpl; lia|].
  pose proof (rec_ok_span t l H). cbn [length]. lia.
Qed.

Lemma span_of_app rs ss : span_of (rs ++ ss) = span_of rs + span_of ss.
Proof. induction rs as [|[t l] r IH]; simpl; lia. Qed.

Lemma holds_shift h h' p q bs :
  (forall k, 0 <= k < Z.of_nat (length bs) ->
     uchar (h' (q + k)) = uchar (h (p + k))) ->
  holds h p bs -> holds h' q bs.
Proof.
  revert p q. induction bs as [|b bs IH]; intros p q E H; [exact I|].
  destruct H as (B & H). split.
  - specialize (E 0). rewrite !Z.add_0_r in E. rewrite E; [assumption|].
    cbn [length]. lia.
  - apply (IH (p + 1)); [|assumption]. intros k Hk.
    replace (q + 1 + k) with (q + (k + 1)) by lia.
    replace (p + 1 + k) with (p + (k + 1)) by lia.
    apply E. cbn [length]. lia.
Qed.

(** A layout depends on the bytes of its range only, wherever they lie. *)
Lemma layout_shift h h' rs : forall p q,
  Forall rec_ok rs ->
  (forall k, 0 <= k < span_of rs -> uchar (h' (q + k)) = uchar (h (p + k))) ->
  layout h p rs -> layout h' q rs.
Proof.
  induction rs as [|[t l] r IH]; intros p q F E H; [exact I|].
  inversion F as [|x y Ok F']; subst. destruct H as (Hh & Hr).
  pose proof (header_size_range t l) as Hs.
  pose proof (span_of_length r F') as Hn.
  destruct Ok as (_ & Rl). simpl in Rl.
  cbn [span_of] in E. unfold encodedSpan in *. split.
  - apply (holds_shift h h' p q); [|assumption].
    intros k Hk. apply E. fold (header_size t l) in Hk. lia.
  - apply (IH (p + (header_size t l + l))); [assumption| |assumption].
    intros k Hk. unfold encodedSpan.
    replace (q + (header_size t l + l) + k)
      with (q + (header_size t l + l + k)) by lia.
    replace (p + (header_size t l + l) + k)
      with (p + (header_size t l + l + k)) by lia.
    apply E. lia.
Qed.

Lemma layout_frame h h' rs p :
  Forall rec_ok rs ->
  (forall a, p <= a < p + span_of rs -> uchar (h' a) = uchar (h a)) ->
  layout h p rs -> layout h' p rs.
Proof.
  intros F E. apply layout_shift; [assumption|]. intros k Hk. apply E. lia.
Qed.

Lemma layout_app h rs ss : forall p,
  layout h p rs -> layout h (p + span_of rs) ss -> layout h p (rs ++ ss).
Proof.
  induction rs as [|[t l] r IH]; intros p H1 H2.
  - simpl in *. rewrite Z.add_0_r in H2. assumption.
  - destruct H1 as (Hh & Hr). split; [assumption|].
    apply IH; [assumption|]. cbn [span_of] in H2.
    replace (p + encodedSpan t l + span_of r)
      with (p + (encodedSpan t l + span_of r)) by lia. assumption.
Qed.

(** ** The scans on a well-formed record sequence *)

Lemma tlv_parseTLV_empty p t0 h :
  yields (tlv_parseTLV p 0 t0) h (0, set_t t0 (tlv_t t0)) h.
Proof. eexists. reflexivity. Qed.

Lemma tlv_find_loop_layout tag h : forall rs fuel p t0,
  Forall rec_ok rs -> layout h p rs -> (length rs <= fuel)%nat ->
  yields (tlv_find_loop fuel p (span_of rs) tag t0) h
    (match find_rec tag rs with
     | Some (off, l) => (1, mkTLV tag l (p + off + header_size tag l))
     | None => (0, mkTLV tag 0 NULL)
     end) h.
Proof.
  induction rs as [|[t l] r IH]; intros fuel p t0 F H Hf;
    rewrite tlv_find_loop_eq.
  - simpl span_of. ybind by (apply tlv_parseTLV_empty). apply yields_ret.
  - inversion F as [|x y Ok F']; subst. destruct H as (Hh & Hr).
    pose proof (span_of_length r F') as Hn.
    destruct Ok as (St & Rl). simpl in St, Rl.
    ybind by (apply (tlv_parseTLV_canonical t l);
              [exact St|lia|exact Hh|cbn [span_of]; lia]).
    destruct (Z.gtb_spec 1 0); [|lia]. cbn [tlv_t tlv_l tlv_v set_v find_rec].
    destruct (Z.eqb_spec t tag) as [E|E].
    + subst t. rewrite Z.add_0_r. apply yields_ret.
    + destruct fuel as [|k]; [simpl in Hf; lia|].
      replace (span_of ((t, l) :: r) - (p + header_size t l + l - p))
        with (span_of r) by (cbn [span_of]; unfold encodedSpan; lia).
      replace (p + header_size t l + l) with (p + encodedSpan t l)
        by (unfold encodedSpan; lia).
      specialize (IH k (p + encodedSpan t l)
                    (mkTLV t l (p + encodedSpan t l)) F' Hr
                    ltac:(simpl in Hf; lia)).
      destruct (find_rec tag r) as [[off l']|]; [|exact IH].
      replace (p + (encodedSpan t l + off) + header_size tag l')
        with (p + encodedSpan t l + off + header_size tag l') by lia.
      exact IH.
Qed.

Lemma tlv_parseTLV_zeros h p rlen t0 :
  0 <= rlen -> (forall k, 0 <= k < rlen -> uchar (h (p + k)) = 0) ->
  exists t', yields (tlv_parseTLV p rlen t0) h (0, t') h.
Proof.
  intros R Z. destruct (tlv_tag_spec p rlen h) as (n & tg0 & Y & _ & Cases).
  destruct (Y (tlv_t t0)) as (tg & Yt & _).
  assert (n = 0).
  { destruct Cases as [(_ & [C|C])|[C|C]].
    - lia.
    - destruct C as (j & Hj & _ & Nj & _). exfalso. apply Nj. apply Z. lia.
    - apply C.
    - destruct C as (j & Hj & Hjn & _ & Nj & _). exfalso. apply Nj. apply Z.
      lia. }
  subst n. eexists. unfold tlv_parseTLV, tlv_tlv0.
  ybind by (ybind by (exact Yt); apply yields_ret). apply yields_ret.
Qed.

(** A zero-filled range is consistent. *)
Lemma tlv_check_zeros h p l :
  0 <= l -> (forall k, 0 <= k < l -> uchar (h (p + k)) = 0) ->
  yields (tlv_check p l) h 1 h.
Proof.
  intros R Z. unfold tlv_check. rewrite tlv_check_loop_eq.
  destruct (tlv_parseTLV_zeros h p l TLV_undef R Z) as (t' & Y).
  ybind by (exact Y). apply yields_ret.
Qed.

Lemma nested_shift h h' rs : forall p q,
  Forall rec_ok rs -> agree h h' p q (span_of rs) ->
  nested h p rs -> nested h' q rs.
Proof.
  induction rs as [|[t l] r IH]; intros p q F A H; [exact I|].
  inversion F as [|x y Ok F']; subst. destruct H as (Hn & Hr).
  pose proof (header_size_range t l) as Hs.
  pose proof (span_of_length r F') as Hlen.
  destruct Ok as (_ & Rl). simpl in Rl.
  cbn [span_of] in A. unfold encodedSpan in *. split.
  - destruct Hn as [Hn|Hn]; [left; exact Hn|right].
    apply (tlv_check_agree h h' (p + header_size t l)); [|exact Hn].
    apply (agree_sub h h' p q (header_size t l + l + span_of r));
      [assumption|lia|lia].
  - apply (IH (p + (header_size t l + l)) (q + (header_size t l + l)));
      [assumption| |assumption].
    apply (agree_sub h h' p q (header_size t l + l + span_of r));
      [assumption|lia|lia].
Qed.

Lemma nested_frame h h' rs p :
  Forall rec_ok rs ->
  (forall a, p <= a < p + span_of rs -> uchar (h' a) = uchar (h a)) ->
  nested h p rs -> nested h' p rs.
Proof.
  intros F E. apply nested_shift; [assumption|]. intros k Hk. apply E. lia.
Qed.

Lemma nested_app h rs ss : forall p,
  nested h p rs -> nested h (p + span_of rs) ss -> nested h p (rs ++ ss).
Proof.
  induction rs as [|[t l] r IH]; intros p H1 H2.
  - simpl in *. rewrite Z.add_0_r in H2. assumption.
  - destruct H1 as (Hh & Hr). split; [assumption|].
    apply IH; [assumption|]. cbn [span_of] in H2.
    replace (p + encodedSpan t l + span_of r)
      with (p + (encodedSpan t l + span_of r)) by lia. assumption.
Qed.

Lemma tlv_check_loop_layout h : forall rs fuel p t0,
  Forall rec_ok rs -> layout h p rs -> nested h p rs ->
  span_of rs <= Z.of_nat fuel ->
  yields (tlv_check_loop fuel p (span_of rs) t0) h 1 h.
Proof.
  induction rs as [|[t l] r IH]; intros fuel p t0 F H N Hf;
    rewrite tlv_check_loop_eq.
  - simpl span_of. ybind by (apply tlv_parseTLV_empty). apply yields_ret.
  - inversion F as [|x y Ok F']; subst. destruct H as (Hh & Hr).
    destruct N as (Nh & Nr).
    pose proof (span_of_length r F') as Hn.
    pose proof (header_size_range t l) as Hs.
    destruct Ok as (St & Rl). simpl in St, Rl.
    cbn [span_of] in Hf. unfold encodedSpan in Hf.
    ybind by (apply (tlv_parseTLV_canonical t l);
              [exact St|lia|exact Hh|cbn [span_of]; lia]).
    destruct (Z.gtb_spec 1 0); [|lia]. cbn [tlv_t tlv_l tlv_v set_v].
    destruct fuel as [|k]; [simpl in Hf; lia|].
    assert (Sub : yields
                    (if negb (Z.land (tlv_tag0 t) TAG_CONSTR =? 0)
                     then tlv_check_loop k (p + header_size t l) l TLV_undef
                     else ret 1) h 1 h).
    { destruct Nh as [Pt|Ck].
      - unfold primitive in Pt. rewrite Pt. apply yields_ret.
      - destruct (negb (Z.land (tlv_tag0 t) TAG_CONSTR =? 0));
          [apply tlv_check_loop_fuel; [lia|exact Ck]|apply yields_ret]. }
    ybind by (exact Sub).
    simpl (1 =? 0). cbv iota zeta. cbn [tlv_t tlv_l tlv_v set_v].
    replace (span_of ((t, l) :: r) - (p + header_size t l + l - p))
      with (span_of r) by (cbn [span_of]; unfold encodedSpan; lia).
    replace (p + header_size t l + l) with (p + encodedSpan t l)
      by (unfold encodedSpan; lia).
    apply IH; [assumption|assumption|assumption|lia].
Qed.

Lemma well_formed_check tb h :
  well_formed tb h ->
  yields (tlv_check (tb_buf tb) (tb_len tb)) h 1 h.
Proof.
  intros (rs & F & L & N & E & _). unfold tlv_check. rewrite E.
  apply tlv_check_loop_layout; [assumption|assumption|assumption|].
  pose proof (span_of_length rs F). lia.
Qed.

(** ** Round trip *)

Lemma tag_sound_not_wrong t : tag_sound t = true -> tag_wrong t = false.
Proof.
  unfold tag_sound. intros S.
  repeat (apply andb_prop in S; destruct S as [S ?]).
  destruct (tag_wrong t); [discriminate S|reflexivity].
Qed.

Lemma tb_find_well_formed tb h rs tag :
  Forall rec_ok rs -> layout h (tb_buf tb) rs -> tb_len tb = span_of rs ->
  tag <> 0 ->
  yields (tb_find tb tag TLV_undef) h
    (match find_rec tag rs with
     | Some (off, l) => (1, mkTLV tag l (tb_buf tb + off + header_size tag l))
     | None => (0, mkTLV tag 0 NULL)
     end) h.
Proof.
  intros F L E N. unfold tb_find, tlv_find.
  destruct (Z.eqb_spec tag 0); [contradiction|]. rewrite E.
  apply tlv_find_loop_layout; [assumption|assumption|].
  pose proof (span_of_length rs F). lia.
Qed.

(** Appending a record to an empty collection and decoding the buffer
    gives the record back. *)
Lemma tb_add_round_trip buf mlen tag l v vs ovr h :
  tag_sound tag = true -> 0 < l < 65536 ->
  0 <= mlen < 65536 ->
  v <> NULL -> Z.of_nat (length vs) = l -> holds h v vs ->
  v + l <= buf \/ buf + encodedSpan tag l <= v ->
  encodedSpan tag l <= mlen -> l + 2 < mlen ->
  exists tb' tlv' h',
    yields (tb_add (tb_init buf mlen) (mkTLV tag l v) ovr) h (1, tb', tlv') h'
    /\ tb_len tb' = encodedSpan tag l
    /\ exists t',
         yields (tlv_parseTLV buf (tb_len tb') TLV_undef) h' (1, t') h'
         /\ tlv_t t' = tag /\ tlv_l t' = l /\ holds h' (tlv_v t') vs.
Proof.
  intros S Rl Rm Nv Lv Hv D Fit Cap.
  destruct (tag_sound_cases tag S) as (Rt & _).
  destruct (tb_add_append_spec (tb_init buf mlen) (mkTLV tag l v) h)
    as ([[r tb'] tlv'] & h' & Ya & [(_ & _ & _ & _ & C)|(-> & _ & A)]);
    [simpl; lia|simpl in C; lia|].
  exists tb', tlv', h'.
  unfold appended in A. cbn [tb_init tb_buf tb_len tlv_t tlv_l tlv_v] in A.
  rewrite Z.add_0_r, Z.add_0_l in A.
  destruct A as (-> & -> & Hh & _ & _ & Cv).
  assert (Hlen : ushort (encodedSpan tag l) = encodedSpan tag l).
  { apply ushort_small. unfold encodedSpan in *.
    pose proof (header_size_range tag l). lia. }
  split; [|split].
  - unfold tb_add. cbn [tlv_l tlv_t].
    destruct (Z.eqb_spec l 0); [lia|]. rewrite (tag_sound_not_wrong _ S).
    destruct (ovr <? 3); [|exact Ya].
    ybind by (apply (tb_find_well_formed (tb_init buf mlen) h []);
              [constructor|exact I|reflexivity|lia]).
    simpl. exact Ya.
  - cbn [set_len tb_len]. exact Hlen.
  - exists (mkTLV tag l (buf + header_size tag l)).
    cbn [set_len tb_len tlv_t tlv_l tlv_v]. rewrite Hlen.
    split; [|split; [reflexivity|split; [reflexivity|]]].
    + apply tlv_parseTLV_canonical; [assumption|lia|assumption|lia].
    + apply (holds_shift h h' v); [|assumption].
      intros k Hk. rewrite Cv by (auto; lia). apply uchar_idem.
Qed.

(** C6: for tag [82] or [9f02], length 1, 0x7f, 0x80 or 0x1234 and any
    value of that length, [tb_add] to an empty collection that has room
    succeeds, and [tlv_parseTLV] over the used part of the buffer returns
    the tag, the length and the value bytes. *)
Theorem add_then_decode_round_trip buf mlen tag l v vs ovr h :
  tag = 0x82 \/ tag = 0x9f02 ->
  l = 1 \/ l = 0x7f \/ l = 0x80 \/ l = 0x1234 ->
  0 <= mlen < 65536 ->
  v <> NULL -> Z.of_nat (length vs) = l -> holds h v vs ->
  v + l <= buf \/ buf + encodedSpan tag l <= v ->
  encodedSpan tag l <= mlen -> l + 2 < mlen ->
  exists tb' tlv' h',
    yields (tb_add (tb_init buf mlen) (mkTLV tag l v) ovr) h (1, tb', tlv') h'
    /\ tb_len tb' = encodedSpan tag l
    /\ exists t',
         yields (tlv_parseTLV buf (tb_len tb') TLV_undef) h' (1, t') h'
         /\ tlv_t t' = tag /\ tlv_l t' = l /\ holds h' (tlv_v t') vs.
Proof.
  intros Ht Hl. apply tb_add_round_trip.
  - destruct Ht; subst tag; reflexivity.
  - lia.
Qed.

Lemma add_then_decode_round_trip_witness :
  exists tb' tlv' h',
    yields (tb_add (tb_init 1000 300) (mkTLV 0x9f02 0x80 2000) 0)
      (heap_of 2000 (repeat 0x5a 128)) (1, tb', tlv') h'
    /\ tb_len tb' = encodedSpan 0x9f02 0x80
    /\ exists t',
         yields (tlv_parseTLV 1000 (tb_len tb') TLV_undef) h' (1, t') h'
         /\ tlv_t t' = 0x9f02 /\ tlv_l t' = 0x80
         /\ holds h' (tlv_v t') (repeat 0x5a 128).
Proof.
  apply (add_then_decode_round_trip 1000 300 0x9f02 0x80 2000
           (repeat 0x5a 128) 0 (heap_of 2000 (repeat 0x5a 128)));
    try (vm_compute; intuition congruence); lia.
Defined.

(** ** Mutations of a well-formed collection *)

Lemma find_rec_inv tag rs off l :
  Forall rec_ok rs -> find_rec tag rs = Some (off, l) ->
  rec_ok (tag, l) /\ 0 <= off /\ off + encodedSpan tag l <= span_of rs
  /\ Forall rec_ok (remove_rec tag rs)
  /\ span_of (remove_rec tag rs) = span_of rs - encodedSpan tag l.
Proof.
  revert off. induction rs as [|[t l0] r IH]; intros off F E; [discriminate E|].
  inversion F as [|x y Ok F']; subst. cbn [find_rec remove_rec span_of] in *.
  pose proof (span_of_length r F') as Hn.
  pose proof (rec_ok_span t l0 Ok) as Hs.
  destruct (Z.eqb_spec t tag) as [Et|Et].
  - inversion E; subst. repeat split; try assumption; try lia; apply Ok.
  - destruct (find_rec tag r) as [[off' l']|]; [|discriminate E].
    inversion E; subst. destruct (IH off' F' eq_refl) as (A & B & C & D & G).
    repeat split; try apply A; try lia.
    + constructor; assumption.
    + cbn [span_of]. lia.
Qed.

(** Overwriting the value bytes of a record keeps the layout. *)
Lemma layout_value_update h h1 tag : forall rs p off l0,
  Forall rec_ok rs -> layout h p rs -> find_rec tag rs = Some (off, l0) ->
  (forall a, ~ (p + off + header_size tag l0 <= a
                < p + off + header_size tag l0 + l0) -> h1 a = h a) ->
  layout h1 p rs.
Proof.
  induction rs as [|[t l] r IH]; intros p off l0 F L E Fr; [exact I|].
  inversion F as [|x y Ok F']; subst. destruct L as (Hh & Hr).
  cbn [find_rec] in E.
  pose proof (header_size_range t l) as Hs.
  pose proof (span_of_length r F') as Hn.
  destruct (Z.eqb_spec t tag) as [Et|Et].
  - inversion E; subst. split.
    + apply (holds_shift h h1 p p); [|assumption].
      intros k Hk. unfold header_size in *. rewrite Fr by lia.
      reflexivity.
    + apply (layout_frame h); [assumption| |assumption].
      intros a Ha. unfold encodedSpan in Ha.
      destruct Ok as (_ & Rl). simpl in Rl. rewrite Fr by lia. reflexivity.
  - destruct (find_rec tag r) as [[off' l']|] eqn:Er; [|discriminate E].
    inversion E; subst.
    destruct (find_rec_inv tag r off' l0 F' Er) as (_ & Hoff & _).
    split.
    + apply (holds_shift h h1 p p); [|assumption].
      intros k Hk. unfold encodedSpan, header_size in *.
      destruct Ok as (_ & Rl). simpl in Rl.
      rewrite Fr by lia. reflexivity.
    + apply (IH (p + encodedSpan t l) off' l0);
        try assumption; try reflexivity.
      intros a Ha. apply Fr. lia.
Qed.

(** Closing the gap left by a record keeps the layout of the others. *)
Lemma layout_remove h h1 tag : forall rs p off l0,
  Forall rec_ok rs -> layout h p rs -> find_rec tag rs = Some (off, l0) ->
  (forall a, a < p + off -> h1 a = h a) ->
  (forall k, 0 <= k < span_of rs - off - encodedSpan tag l0 ->
     h1 (p + off + k) = uchar (h (p + off + encodedSpan tag l0 + k))) ->
  layout h1 p (remove_rec tag rs).
Proof.
  induction rs as [|[t l] r IH]; intros p off l0 F L E Fr Sh; [exact I|].
  inversion F as [|x y Ok F']; subst. destruct L as (Hh & Hr).
  cbn [find_rec remove_rec span_of] in *.
  pose proof (header_size_range t l) as Hs.
  destruct (Z.eqb_spec t tag) as [Et|Et].
  - inversion E; subst.
    apply (layout_shift h h1 r (p + encodedSpan tag l0) p);
      [assumption| |assumption].
    intros k Hk. specialize (Sh k). rewrite !Z.add_0_r in Sh.
    rewrite Sh by lia. apply uchar_idem.
  - destruct (find_rec tag r) as [[off' l']|] eqn:Er; [|discriminate E].
    inversion E; subst.
    destruct (find_rec_inv tag r off' l0 F' Er) as (_ & Hoff & _).
    destruct Ok as (_ & Rl). simpl in Rl.
    split.
    + apply (holds_shift h h1 p p); [|assumption].
      intros k Hk. unfold encodedSpan, header_size in *.
      rewrite Fr by lia. reflexivity.
    + apply (IH (p + encodedSpan t l) off' l0);
        try assumption; try reflexivity.
      * intros a Ha. apply Fr. lia.
      * intros k Hk.
        replace (p + encodedSpan t l + off' + k)
          with (p + (encodedSpan t l + off') + k) by lia.
        rewrite Sh by lia. f_equal. f_equal. lia.
Qed.

(** The same for the consistency of the nested values. *)
Lemma nested_value_update h h1 tag : forall rs p off l0,
  Forall rec_ok rs -> nested h p rs -> find_rec tag rs = Some (off, l0) ->
  (forall a, ~ (p + off + header_size tag l0 <= a
                < p + off + header_size tag l0 + l0) -> h1 a = h a) ->
  primitive tag = true
  \/ yields (tlv_check (p + off + header_size tag l0) l0) h1 1 h1 ->
  nested h1 p rs.
Proof.
  induction rs as [|[t l] r IH]; intros p off l0 F L E Fr New; [exact I|].
  inversion F as [|x y Ok F']; subst. destruct L as (Hh & Hr).
  cbn [find_rec] in E.
  pose proof (header_size_range t l) as Hs.
  pose proof (header_size_range tag l0) as Hs0.
  pose proof (span_of_length r F') as Hn.
  destruct Ok as (_ & Rl). simpl in Rl.
  destruct (Z.eqb_spec t tag) as [Et|Et].
  - inversion E; subst. rewrite Z.add_0_r in New. split; [exact New|].
    apply (nested_frame h); [assumption| |assumption].
    intros a Ha. unfold encodedSpan in Ha. rewrite Fr by lia. reflexivity.
  - destruct (find_rec tag r) as [[off' l']|] eqn:Er; [|discriminate E].
    inversion E; subst.
    destruct (find_rec_inv tag r off' l0 F' Er) as (_ & Hoff & _).
    split.
    + destruct Hh as [Hh|Hh]; [left; exact Hh|right].
      apply (tlv_check_agree h h1 (p + header_size t l)); [|exact Hh].
      intros k Hk. unfold encodedSpan in Fr. rewrite Fr by lia. reflexivity.
    + apply (IH (p + encodedSpan t l) off' l0);
        try assumption; try reflexivity.
      * intros a Ha. apply Fr. lia.
      * replace (p + encodedSpan t l + off') with (p + (encodedSpan t l + off'))
          by lia. exact New.
Qed.

Lemma nested_remove h h1 tag : forall rs p off l0,
  Forall rec_ok rs -> nested h p rs -> find_rec tag rs = Some (off, l0) ->
  (forall a, a < p + off -> h1 a = h a) ->
  (forall k, 0 <= k < span_of rs - off - encodedSpan tag l0 ->
     h1 (p + off + k) = uchar (h (p + off + encodedSpan tag l0 + k))) ->
  nested h1 p (remove_rec tag rs).
Proof.
  induction rs as [|[t l] r IH]; intros p off l0 F L E Fr Sh; [exact I|].
  inversion F as [|x y Ok F']; subst. destruct L as (Hh & Hr).
  cbn [find_rec remove_rec span_of] in *.
  pose proof (header_size_range t l) as Hs.
  destruct (Z.eqb_spec t tag) as [Et|Et].
  - inversion E; subst.
    apply (nested_shift h h1 r (p + encodedSpan tag l0) p);
      [assumption| |assumption].
    intros k Hk. specialize (Sh k). rewrite !Z.add_0_r in Sh.
    rewrite Sh by lia. apply uchar_idem.
  - destruct (find_rec tag r) as [[off' l']|] eqn:Er; [|discriminate E].
    inversion E; subst.
    destruct (find_rec_inv tag r off' l0 F' Er) as (_ & Hoff & _).
    destruct Ok as (_ & Rl). simpl in Rl.
    split.
    + destruct Hh as [Hh|Hh]; [left; exact Hh|right].
      apply (tlv_check_agree h h1 (p + header_size t l)); [|exact Hh].
      intros k Hk. unfold encodedSpan in Fr. rewrite Fr by lia. reflexivity.
    + apply (IH (p + encodedSpan t l) off' l0);
        try assumption; try reflexivity.
      * intros a Ha. apply Fr. lia.
      * intros k Hk.
        replace (p + encodedSpan t l + off' + k)
          with (p + (encodedSpan t l + off') + k) by lia.
        rewrite Sh by lia. f_equal. f_equal. lia.
Qed.

Lemma widen_small t l v :
  0 <= l + 1 < 65536 -> widen (mkTLV t l v) = mkTLV t (l + 1) (v - 1).
Proof. intros R. unfold widen. cbn. rewrite ushort_small by lia. reflexivity. Qed.

Ltac widen_steps :=
  repeat first
    [ rewrite widen_small by lia
    | progress cbn [tlv_t tlv_l tlv_v]
    | match goal with
      | |- context [if ?a >? ?b then _ else _] =>
          lazymatch a with
          | context [tlv_l _] => fail
          | context [tlv_t _] => fail
          | _ => destruct (Z.gtb_spec a b); try lia
          end
      end ].

(** [tb_del] re-derives the record's start and span from the decoded
    length; the result is exact for every length but 0xff. *)
Lemma whole_record_exact tag l v :
  0 < tag < 65536 -> 0 < l -> l <> 0xff -> encodedSpan tag l < 65536 ->
  whole_record (mkTLV tag l v)
  = mkTLV tag (encodedSpan tag l) (v - header_size tag l).
Proof.
  intros Rt Rl N B. unfold encodedSpan, header_size, header, enc_tag, enc_len in *.
  rewrite length_app in *. unfold whole_record.
  destruct (Z.gtb_spec tag 0xff); destruct (Z.gtb_spec l 0xff);
    destruct (Z.gtb_spec l 0x7f); try lia;
    cbn [length Nat.add Z.of_nat Pos.of_succ_nat Pos.succ] in *;
    widen_steps; f_equal; lia.
Qed.

(** For length 0xff it is off by one on both. *)
Lemma whole_record_ff tag v :
  0 < tag < 65536 ->
  whole_record (mkTLV tag 0xff v)
  = mkTLV tag (encodedSpan tag 0xff + 1) (v - header_size tag 0xff - 1).
Proof.
  intros Rt. unfold encodedSpan, header_size, header, enc_tag, enc_len.
  rewrite length_app. unfold whole_record.
  destruct (Z.gtb_spec tag 0xff);
    change (255 >? 255) with false; change (255 >? 127) with true;
    cbn [length Nat.add Z.of_nat Pos.of_succ_nat Pos.succ];
    widen_steps; f_equal; lia.
Qed.

(** When more bytes follow the record than it spans, the ranges that
    [tb_del] hands to [memcpy] overlap, and [tb_del] has no value. *)
Lemma tb_del_overlap tb h rs tag off l0 :
  Forall rec_ok rs -> layout h (tb_buf tb) rs ->
  tb_len tb = span_of rs -> span_of rs < 65536 ->
  find_rec tag rs = Some (off, l0) -> l0 <> 0xff ->
  encodedSpan tag l0 < span_of rs - off - encodedSpan tag l0 ->
  tb_del tb tag h = None.
Proof.
  intros F L E B Fi N T.
  destruct (find_rec_inv tag rs off l0 F Fi) as (Ok & Hoff & Hend & _).
  destruct Ok as (St & Rl). simpl in St, Rl.
  destruct (tag_sound_cases tag St) as (Rt & _).
  pose proof (header_size_range tag l0) as Hs.
  assert (Hsp : 3 <= encodedSpan tag l0) by (unfold encodedSpan; lia).
  pose proof (tb_find_well_formed tb h rs tag F L E ltac:(lia)) as Yf.
  rewrite Fi in Yf.
  assert (W : whole_record (mkTLV tag l0 (tb_buf tb + off + header_size tag l0))
              = mkTLV tag (encodedSpan tag l0) (tb_buf tb + off)).
  { rewrite whole_record_exact by lia. f_equal. lia. }
  unfold tb_del. apply (bind_none _ _ _ _ _ Yf).
  simpl (1 =? 0). cbv iota zeta. rewrite W. cbn [tlv_t tlv_l tlv_v].
  rewrite apart_tail by lia. rewrite Z2Nat.id by lia.
  destruct (Z.leb_spec (tb_buf tb + tb_len tb
                        - (tb_buf tb + off + encodedSpan tag l0))
                       (encodedSpan tag l0)); [lia|reflexivity].
Qed.

(** So a [tb_del] that returns has moved down no more bytes than the
    record spans. *)
Lemma tb_del_defined tb h rs tag off l0 x h1 :
  Forall rec_ok rs -> layout h (tb_buf tb) rs ->
  tb_len tb = span_of rs -> span_of rs < 65536 ->
  find_rec tag rs = Some (off, l0) -> l0 <> 0xff ->
  yields (tb_del tb tag) h x h1 ->
  span_of rs - off - encodedSpan tag l0 <= encodedSpan tag l0.
Proof.
  intros F L E B Fi N [tr Y].
  destruct (Z.le_gt_cases (span_of rs - off - encodedSpan tag l0)
                          (encodedSpan tag l0)) as [T|T]; [exact T|].
  rewrite (tb_del_overlap tb h rs tag off l0 F L E B Fi N T) in Y.
  discriminate Y.
Qed.

(** [tb_del] of a record whose length is not 0xff, followed by no more
    bytes than it spans, removes exactly that record. *)
Lemma tb_del_well_formed tb h rs tag off l0 :
  Forall rec_ok rs -> layout h (tb_buf tb) rs -> nested h (tb_buf tb) rs ->
  tb_len tb = span_of rs -> span_of rs < 65536 ->
  find_rec tag rs = Some (off, l0) -> l0 <> 0xff ->
  span_of rs - off - encodedSpan tag l0 <= encodedSpan tag l0 ->
  exists h1,
    yields (tb_del tb tag) h
      (1, set_len tb (span_of rs - encodedSpan tag l0)) h1
    /\ layout h1 (tb_buf tb) (remove_rec tag rs)
    /\ nested h1 (tb_buf tb) (remove_rec tag rs)
    /\ (forall a, ~ (tb_buf tb <= a < tb_buf tb + tb_len tb) -> h1 a = h a).
Proof.
  intros F L Ne E B Fi N T.
  destruct (find_rec_inv tag rs off l0 F Fi) as (Ok & Hoff & Hend & _).
  destruct Ok as (St & Rl). simpl in St, Rl.
  destruct (tag_sound_cases tag St) as (Rt & _).
  pose proof (header_size_range tag l0) as Hs.
  assert (Hsp : 3 <= encodedSpan tag l0) by (unfold encodedSpan; lia).
  pose proof (tb_find_well_formed tb h rs tag F L E ltac:(lia)) as Yf.
  rewrite Fi in Yf.
  assert (W : whole_record (mkTLV tag l0 (tb_buf tb + off + header_size tag l0))
              = mkTLV tag (encodedSpan tag l0) (tb_buf tb + off)).
  { rewrite whole_record_exact by lia. f_equal. lia. }
  assert (A : apart (tb_buf tb + off) (tb_buf tb + off + encodedSpan tag l0)
                (Z.to_nat (tb_buf tb + tb_len tb
                           - (tb_buf tb + off + encodedSpan tag l0)))
              = true).
  { rewrite apart_tail by lia. rewrite Z2Nat.id by lia.
    apply Z.leb_le. lia. }
  destruct (memcpy_apart _ _ _ h A) as (h1 & Ym & Fm & Cm).
  rewrite Z2Nat.id in Fm, Cm by lia.
  exists h1. split; [|split; [|split]].
  - unfold tb_del. ybind by (exact Yf). simpl (1 =? 0). cbv iota zeta.
    rewrite W. cbn [tlv_t tlv_l tlv_v]. rewrite A.
    ybind by (exact Ym).
    rewrite ushort_small by (unfold encodedSpan in *; lia).
    rewrite E. apply yields_ret.
  - apply (layout_remove h h1 tag rs (tb_buf tb) off l0); try assumption.
    + intros a Ha. apply Fm. lia.
    + intros k Hk. apply Cm. lia.
  - apply (nested_remove h h1 tag rs (tb_buf tb) off l0); try assumption.
    + intros a Ha. apply Fm. lia.
    + intros k Hk. apply Cm. lia.
  - intros a Ha. apply Fm. lia.
Qed.

(** The value stored by [put_value], seen by [tlv_check]. *)
Lemma stored_value_nested tb h h' tlv b :
  value_in_scope tb h tlv -> 0 <= tlv_l tlv ->
  tb_buf tb <= b -> b + tlv_l tlv <= tb_buf tb + tb_mlen tb ->
  (tlv_v tlv = NULL -> forall k, 0 <= k < tlv_l tlv -> h' (b + k) = 0) ->
  (tlv_v tlv <> NULL ->
   tlv_v tlv + tlv_l tlv <= tb_buf tb
   \/ tb_buf tb + tb_mlen tb <= tlv_v tlv ->
   forall k, 0 <= k < tlv_l tlv -> h' (b + k) = uchar (h (tlv_v tlv + k))) ->
  primitive (tlv_t tlv) = true
  \/ yields (tlv_check b (tlv_l tlv)) h' 1 h'.
Proof.
  intros [P|V] Rl Hb He C0 C1; [left; exact P|right].
  destruct (Z.eq_dec (tlv_v tlv) NULL) as [N|N].
  - apply tlv_check_zeros; [assumption|]. intros k Hk.
    rewrite (C0 N k Hk). reflexivity.
  - destruct V as [V|(Ck & D)]; [contradiction|].
    apply (tlv_check_agree h h' (tlv_v tlv)); [|exact Ck].
    intros k Hk. rewrite C1 by (auto; lia). apply uchar_idem.
Qed.

Lemma tb_add_append_well_formed tb h tlv :
  well_formed tb h ->
  tag_sound (tlv_t tlv) = true -> value_in_scope tb h tlv ->
  0 < tlv_l tlv < 65536 ->
  post (tb_add_append tb tlv) h (fun '(r, tb', tlv') h' =>
    0 <= r -> add_in_capacity tb r tlv' -> well_formed tb' h').
Proof.
  intros (rs & F & L & Ne & E & Cap) St Vs Rl.
  eapply post_weaken; [apply tb_add_append_spec; lia|].
  intros [[r tb'] tlv'] h' [(-> & _)|(-> & _ & A)] Hr Hc.
  { exfalso. cbv [EPIPE] in Hr. lia. }
  unfold appended in A. destruct A as (-> & -> & Hh & Fr & C0 & C1).
  specialize (Hc eq_refl). cbn [set_v tlv_v tlv_l] in Hc.
  pose proof (header_size_range (tlv_t tlv) (tlv_l tlv)) as Hs.
  pose proof (span_of_length rs F) as Hn.
  exists (rs ++ [(tlv_t tlv, tlv_l tlv)]).
  cbn [set_len tb_buf tb_len tb_mlen].
  split; [|split; [|split; [|split]]].
  - apply Forall_app. split; [assumption|]. constructor; [|constructor].
    split; [exact St|exact Rl].
  - apply layout_app.
    + apply (layout_frame h); [assumption| |assumption].
      intros a Ha. rewrite Fr by lia. reflexivity.
    + rewrite <- E. split; [assumption|exact I].
  - apply nested_app.
    + apply (nested_frame h); [assumption| |assumption].
      intros a Ha. rewrite Fr by lia. reflexivity.
    + rewrite <- E. split; [|exact I].
      apply (stored_value_nested tb h h' tlv); try assumption; try lia.
      intros N D. apply C1; [assumption|]. unfold encodedSpan. lia.
  - rewrite span_of_app. cbn [span_of].
    unfold encodedSpan in *. rewrite ushort_small by lia. lia.
  - unfold encodedSpan in *. rewrite ushort_small by lia. lia.
Qed.

(** A successful [tb_add] in scope keeps the collection well formed. *)
Lemma tb_add_well_formed tb h tlv ovr :
  well_formed tb h -> 0 <= ovr < 256 -> add_in_scope tb h tlv ovr ->
  forall r tb' tlv' h',
    yields (tb_add tb tlv ovr) h (r, tb', tlv') h' ->
    0 <= r -> add_in_capacity tb r tlv' -> well_formed tb' h'.
Proof.
  intros WF Hovr (St & Vs & Rl & Ff) r0 tb0 tlv0 h0 Y0 Hr0 Hc0.
  assert (C : post (tb_add tb tlv ovr) h (fun '(r, tb', tlv') h' =>
                0 <= r -> add_in_capacity tb r tlv' -> well_formed tb' h')
              \/ tb_add tb tlv ovr h = None).
  2:{ destruct C as [P|U].
      - exact (post_inv _ _ _ _ _ P Y0 Hr0 Hc0).
      - destruct Y0 as [tr Y0]. rewrite U in Y0. discriminate Y0. }
  clear r0 tb0 tlv0 h0 Y0 Hr0 Hc0.
  assert (Neg : - EINVAL < 0 /\ - EEXIST < 0) by (cbv [EINVAL EEXIST]; lia).
  unfold tb_add.
  destruct (Z.eqb_spec (tlv_l tlv) 0) as [Z0|Z0].
  { left. apply post_ret. intros; lia. }
  rewrite (tag_sound_not_wrong _ St).
  assert (App : post (tb_add_append tb tlv) h (fun '(r, tb', tlv') h' =>
                  0 <= r -> add_in_capacity tb r tlv' -> well_formed tb' h'))
    by (apply tb_add_append_well_formed; auto; lia).
  destruct (Z.ltb_spec ovr 3) as [H3|H3]; [|left; exact App].
  destruct WF as (rs & F & L & Ne & E & Cap).
  destruct (tag_sound_cases _ St) as (Rt & _).
  pose proof (tb_find_well_formed tb h rs (tlv_t tlv) F L E ltac:(lia)) as Yf.
  destruct (find_rec (tlv_t tlv) rs) as [[off l0]|] eqn:Fi.
  2:{ left. apply post_bind. apply (post_yields _ _ _ _ _ Yf).
      simpl (negb _). cbv iota. exact App. }
  destruct (find_rec_inv _ rs off l0 F Fi) as (Ok & Hoff & Hend & F1 & S1).
  pose proof (header_size_range (tlv_t tlv) l0) as Hs.
  destruct (Z.eqb_spec ovr 0).
  { left. apply post_bind. apply (post_yields _ _ _ _ _ Yf).
    simpl (negb _). cbv iota. apply post_ret. intros; lia. }
  destruct (Z.eqb_spec ovr 2).
  { left. apply post_bind. apply (post_yields _ _ _ _ _ Yf).
    simpl (negb _). cbv iota. apply post_ret. intros _ _. exists rs. auto. }
  assert (ovr = 1) by lia.
  destruct (Z.eqb_spec (tlv_l tlv) l0) as [El|El].
  - left. apply post_bind. apply (post_yields _ _ _ _ _ Yf).
    simpl (negb _). cbv iota. cbn [tlv_l tlv_v].
    rewrite (proj2 (Z.eqb_eq _ _) El).
    subst l0. apply post_bind. apply post_put_value; [lia|].
    intros h' Fr C0 C1. apply post_ret. intros _ _.
    exists rs. split; [assumption|]. split; [|split; [|auto]].
    + apply (layout_value_update h h' (tlv_t tlv) rs (tb_buf tb) off
               (tlv_l tlv)); try assumption.
    + apply (nested_value_update h h' (tlv_t tlv) rs (tb_buf tb) off
               (tlv_l tlv)); try assumption.
      apply (stored_value_nested tb h h' tlv); try assumption;
        try (unfold encodedSpan in *; lia).
      intros N D. apply C1; [assumption|]. unfold encodedSpan in *. lia.
  - assert (N : l0 <> 0xff).
    { intros Eff. apply El. rewrite Eff.
      apply (Ff ltac:(assumption) _ (yields_result _ _ _ _ Yf)). exact Eff. }
    destruct (tb_del tb (tlv_t tlv) h) as [[[[rd tbd] hd] trd]|] eqn:D.
    2:{ right. apply (bind_none _ _ _ _ _ Yf).
        simpl (negb _). cbv iota. cbn [tlv_l tlv_v].
        rewrite (proj2 (Z.eqb_neq _ _) El).
        unfold bind. rewrite D. reflexivity. }
    left.
    assert (T : span_of rs - off - encodedSpan (tlv_t tlv) l0
                <= encodedSpan (tlv_t tlv) l0).
    { apply (tb_del_defined tb h rs (tlv_t tlv) off l0 (rd, tbd) hd F L E
               ltac:(lia) Fi N). exists trd. exact D. }
    clear D.
    destruct (tb_del_well_formed tb h rs (tlv_t tlv) off l0 F L Ne E
                ltac:(lia) Fi N T)
      as (h1 & Yd & L1 & N1 & Fd).
    apply post_bind. apply (post_yields _ _ _ _ _ Yf).
    simpl (negb _). cbv iota. cbn [tlv_l tlv_v].
    rewrite (proj2 (Z.eqb_neq _ _) El).
    apply post_bind. apply (post_yields _ _ _ _ _ Yd).
    eapply post_weaken.
    + apply (tb_add_append_well_formed
               (set_len tb (span_of rs - encodedSpan (tlv_t tlv) l0)) h1 tlv);
        [|assumption| |lia].
      * exists (remove_rec (tlv_t tlv) rs).
        cbn [set_len tb_buf tb_len tb_mlen].
        pose proof (rec_ok_span _ _ Ok).
        repeat split; try assumption; lia.
      * destruct Vs as [P|[V|(Ck & D)]]; [left; exact P|right; left; exact V|].
        right; right. cbn [set_len tb_buf tb_mlen]. split; [|exact D].
        apply (tlv_check_agree h h1 (tlv_v tlv)); [|exact Ck].
        intros k Hk. rewrite Fd by lia. reflexivity.
    + intros [[r tb'] tlv'] h'. cbn [set_len tb_buf tb_mlen]. auto.
Qed.

Lemma set_v_back t :
  set_v (set_v t (tlv_v t + tlv_l t))
        (tlv_v (set_v t (tlv_v t + tlv_l t))
         - tlv_l (set_v t (tlv_v t + tlv_l t))) = t.
Proof. destruct t as [a b c]. unfold set_v. cbn. f_equal. lia. Qed.

(** A successful [tb_addbuf] whose adds are in scope keeps the
    collection well formed. *)
Lemma tb_addbuf_loop_well_formed ovr :
  0 <= ovr < 256 ->
  forall tb h b l, stream_in_scope ovr tb h b l ->
  forall fuel t tb' h',
    well_formed tb h ->
    yields (tb_addbuf_loop fuel tb b l ovr t) h (0, tb') h' ->
    well_formed tb' h'.
Proof.
  intros Hovr tb h b l S.
  induction S as [tb h b l i t0 P Hi | tb h b l t1 P Sc Hcap Hnext IH];
    intros fuel t tb' h' WF Y;
    rewrite tb_addbuf_loop_eq in Y; apply yields_bind_inv in Y;
    destruct Y as ([i' t'] & h1 & Yp & Y);
    destruct (tlv_parseTLV_spec b l h) as (i0 & r0 & Ysp & _ & _);
    destruct (Ysp t) as (ta & Yta & Eta);
    destruct (Ysp TLV_undef) as (tu & Ytu & Etu);
    rewrite (yields_result _ _ _ _ Ytu) in P; inversion P; subst;
    destruct (yields_fun _ _ _ _ _ _ Yp Yta) as (Ea & ->);
    inversion Ea; subst.
  - destruct (Z.gtb_spec i 0); [lia|].
    apply yields_ret_inv in Y. destruct Y as (Ey & ->).
    inversion Ey; subst. exact WF.
  - assert (Et : ta = t1)
      by (rewrite (Eta ltac:(lia)), (Etu ltac:(lia)); reflexivity).
    subst ta. simpl (1 >? 0) in Y. cbv iota zeta in Y. rewrite set_v_back in Y.
    apply yields_bind_inv in Y.
    destruct Y as ([[ra tb1] ta'] & h2 & Ya & Y).
    destruct (Z.ltb_spec ra 0) as [N|N].
    { apply yields_ret_inv in Y. destruct Y as (Ey & _). inversion Ey. lia. }
    pose proof (tb_add_well_formed tb h t1 ovr WF Hovr Sc _ _ _ _ Ya
                  N (Hcap _ _ _ _ Ya N)) as Q.
    destruct fuel as [|k].
    { destruct Y as [tr Y]. discriminate Y. }
    cbn [set_v tlv_v tlv_l] in Y.
    apply (IH _ _ _ _ Ya N k _ tb' h' Q Y).
Qed.

Lemma built_well_formed tb h : built tb h -> well_formed tb h.
Proof.
  induction 1 as [buf size h R | tb h h' B IH Fr
                 | tb h tlv ovr r tb' tlv' h' B IH Hovr Sc Ya Hr Hc
                 | tb h b l ovr tb' h' B IH Hovr Sc Ya].
  - exists []. cbn. repeat split; auto; lia.
  - destruct IH as (rs & F & L & N & E & Cap). exists rs.
    split; [assumption|]. split; [|split; [|split; [assumption|lia]]].
    + apply (layout_frame h); [assumption| |assumption].
      intros a Ha. rewrite Fr by lia. reflexivity.
    + apply (nested_frame h); [assumption| |assumption].
      intros a Ha. rewrite Fr by lia. reflexivity.
  - exact (tb_add_well_formed tb h tlv ovr IH Hovr Sc _ _ _ _ Ya Hr Hc).
  - exact (tb_addbuf_loop_well_formed ovr Hovr tb h b l Sc _ _ tb' h' IH Ya).
Qed.

(** C5, amended: a collection reached from an empty one by successful
    calls of [tb_add] and [tb_addbuf] is consistent for [tlv_check],
    provided every record added has a sound tag and, when the tag is
    constructed, a value that is zero-filled or itself consistent and
    outside the buffer, every append stays within the capacity, and
    Overwrite never replaces a record of length 0xff by one of another
    length.  An Overwrite that has to delete a record followed by more
    bytes than it spans is no successful call: [tb_del] hands
    overlapping ranges to [memcpy] there, and the call has no value. *)
Theorem built_collection_is_consistent tb h :
  built tb h ->
  result (tlv_check (tb_buf tb) (tb_len tb) h) = Some 1.
Proof.
  intros B. apply yields_result with (h1 := h).
  apply well_formed_check. apply built_well_formed. exact B.
Qed.

(** ** The consistency claim *)

Lemma yields_after {A : Type} (m : M A) h a :
  result (m h) = Some a -> yields m h a (after (m h)).
Proof.
  unfold yields. destruct (m h) as [[[x h'] tr]|]; simpl; intros E;
    inversion E. eexists. reflexivity.
Qed.

(** C5, as stated, fails: a constructed tag is added with a value that
    is not a sequence of records, and [tlv_check] descends into it. *)
Lemma built_consistency_counterexample :
  ~ (forall tb h, reached tb h ->
       result (tlv_check (tb_buf tb) (tb_len tb) h) = Some 1).
Proof.
  intros H.
  assert (R : reached (mkTLVbuf 16 3 1000) (after bad_nested)).
  { apply (reached_add (tb_init 1000 16) (heap_of 2000 [0x81])
             (mkTLV 0x20 1 2000) 0 1 _ (mkTLV 0x20 1 1002));
      try (cbn; lia).
    - apply reached_init. lia.
    - apply (yields_after (tb_add (tb_init 1000 16) (mkTLV 0x20 1 2000) 0)).
      vm_compute. reflexivity. }
  apply H in R. vm_compute in R. discriminate R.
Qed.

(** The other limits of the amended claim: a two-byte tag whose first
    byte does not announce a second one is accepted by [tb_add] and
    decoded as a one-byte tag. *)
Example unsound_tag_is_not_decoded_back :
  tag_wrong 0x8102 = false /\ tag_sound 0x8102 = false
  /\ result bad_two_byte
     = Some (1, mkTLVbuf 16 5 1000, mkTLV 0x8102 2 1003)
  /\ result (tlv_check 1000 5 (after bad_two_byte)) = Some 0.
Proof. repeat split. Qed.

Ltac computed_step Y :=
  match type of Y with
  | yields ?m ?h _ _ =>
      let Y0 := fresh "Y0" in
      let E := fresh "E" in
      assert (Y0 := yields_after m h _ ltac:(vm_compute; reflexivity));
      destruct (yields_fun _ _ _ _ _ _ Y Y0) as (E & ->);
      inversion E; subst; clear E Y Y0
  end.

Lemma tlv_check_yields h p l r :
  result (tlv_check p l h) = Some r -> yields (tlv_check p l) h r h.
Proof.
  intros R. destruct (tlv_check_total h p l) as (r' & Y & _).
  rewrite (yields_result _ _ _ _ Y) in R. inversion R; subst. exact Y.
Qed.

Lemma demo_stream_in_scope :
  stream_in_scope 2 demo_tb3 (after demo_step3) 3000 10.
Proof.
  apply (stream_rec 2 _ _ _ _ (mkTLV 0xa0 3 3002)); [reflexivity| | |].
  - split; [reflexivity|]. split; [|split; cbn; lia].
    right; right. split; [|cbn; lia].
    apply tlv_check_yields. vm_compute. reflexivity.
  - intros r tb' t' h' Y Hr. computed_step Y.
    unfold add_in_capacity. cbn. lia.
  - intros r tb' t' h' Y Hr. computed_step Y.
    apply (stream_rec 2 _ _ _ _ (mkTLV 0x9f02 2 3008));
      [vm_compute; reflexivity| | |].
    + split; [reflexivity|]. split; [left; reflexivity|]. split; cbn; lia.
    + intros r tb' t' h' Y Hr'. computed_step Y.
      unfold add_in_capacity. cbn. lia.
    + intros r tb' t' h' Y Hr'. computed_step Y.
      apply (stream_end 2 _ _ _ _ 0 TLV_undef); [vm_compute; reflexivity|lia].
Qed.

Lemma demo_built : built demo_tb4 (after demo_step4).
Proof.
  apply (built_addbuf demo_tb3 (after demo_step3) 3000 10 2);
    [|lia|exact demo_stream_in_scope
     |apply (yields_after (tb_addbuf demo_tb3 3000 10 2)); vm_compute; reflexivity].
  apply (built_add demo_tb2 (after demo_step2) (mkTLV 0x81 3 2002) 1 1
           demo_tb3 (mkTLV 0x81 3 1005));
    [|lia| |apply (yields_after (tb_add demo_tb2 (mkTLV 0x81 3 2002) 1));
            vm_compute; reflexivity
     |lia|unfold add_in_capacity; cbn; lia].
  2:{ split; [reflexivity|]. split; [left; reflexivity|].
      split; [cbn; lia|].
      intros _ t0 F. vm_compute in F. inversion F. cbn. lia. }
  apply (built_add demo_tb1 (after demo_step1) (mkTLV 0x82 1 2002) 3 1
           demo_tb2 (mkTLV 0x82 1 1006));
    [|lia| |apply (yields_after (tb_add demo_tb1 (mkTLV 0x82 1 2002) 3));
            vm_compute; reflexivity
     |lia|unfold add_in_capacity; cbn; lia].
  2:{ split; [reflexivity|]. split; [left; reflexivity|]. split; cbn; lia. }
  apply (built_add demo_tb0 demo_heap (mkTLV 0x81 2 2000) 0 1
           demo_tb1 (mkTLV 0x81 2 1002));
    [|lia| |apply (yields_after (tb_add demo_tb0 (mkTLV 0x81 2 2000) 0));
            vm_compute; reflexivity
     |lia|unfold add_in_capacity; cbn; lia].
  2:{ split; [reflexivity|]. split; [left; reflexivity|]. split; cbn; lia. }
  apply built_init. lia.
Qed.

Lemma built_collection_is_consistent_witness :
  result (tlv_check (tb_buf demo_tb4) (tb_len demo_tb4) (after demo_step4))
  = Some 1.
Proof.
  apply (built_collection_is_consistent demo_tb4 (after demo_step4)).
  exact demo_built.
Defined.

(** * Further properties of tlv.c *)

(** ** Footprint of the decoders *)

Lemma reads_ret {A : Type} lo hi (x : A) h : reads_in lo hi (ret x) h x.
Proof. exists []. split; reflexivity. Qed.

Lemma reads_load lo hi a h :
  lo <= a < hi -> reads_in lo hi (load a) h (uchar (h a)).
Proof.
  intros R. exists [Load a]. split; [reflexivity|].
  unfold loads_within. simpl.
  destruct (Z.leb_spec lo a); [|lia]. destruct (Z.ltb_spec a hi); [|lia].
  reflexivity.
Qed.

Lemma reads_bind {A B : Type} lo hi (m : M A) (f : A -> M B) h a b :
  reads_in lo hi m h a -> reads_in lo hi (f a) h b ->
  reads_in lo hi (bind m f) h b.
Proof.
  intros (t1 & E1 & W1) (t2 & E2 & W2). exists (t1 ++ t2). split.
  - unfold bind. rewrite E1, E2. reflexivity.
  - unfold loads_within in *. rewrite forallb_app, W1, W2. reflexivity.
Qed.

Lemma reads_weaken {A : Type} lo hi lo' hi' (m : M A) h a :
  lo' <= lo -> hi <= hi' -> reads_in lo hi m h a -> reads_in lo' hi' m h a.
Proof.
  intros Hl Hh (tr & E & W). exists tr. split; [exact E|].
  unfold loads_within in *. rewrite forallb_forall in *.
  intros e He. specialize (W e He).
  apply andb_prop in W. destruct W as (W1 & W2).
  apply andb_prop in W2. rewrite W1. simpl.
  destruct (Z.leb_spec lo' (addr_of e)); [|lia].
  destruct (Z.ltb_spec (addr_of e) hi'); [|lia]. reflexivity.
Qed.

Lemma reads_yields {A : Type} lo hi (m : M A) h a :
  reads_in lo hi m h a -> yields m h a h.
Proof. intros (tr & E & _). exists tr. exact E. Qed.

Tactic Notation "rbind" "by" tactic3(t) :=
  eapply reads_bind; [ t | cbv beta iota ].
Ltac rload := eapply reads_bind; [apply reads_load; lia | cbv beta iota ].

Lemma skip_filler_reads fuel rbuf rlen h : forall i,
  0 <= i <= rlen -> rlen - i <= Z.of_nat fuel ->
  exists i', reads_in rbuf (rbuf + rlen) (skip_filler fuel rbuf rlen i) h i'
    /\ i <= i' <= rlen.
Proof.
  induction fuel as [|fuel IH]; intros i Hi Hf; rewrite skip_filler_eq.
  - destruct (Z.ltb_spec i rlen); [lia|].
    exists i. split; [apply reads_ret|lia].
  - destruct (Z.ltb_spec i rlen).
    + destruct (Z.eqb_spec (uchar (h (rbuf + i))) 0) as [E|E].
      * destruct (IH (i + 1)) as (i' & Y & R); try lia.
        exists i'. split; [|lia].
        rload. rewrite (proj2 (Z.eqb_eq _ _) E). exact Y.
      * exists i. split; [|lia].
        rload. rewrite (proj2 (Z.eqb_neq _ _) E). apply reads_ret.
    + exists i. split; [apply reads_ret|lia].
Qed.

(** The continuation loop loads up to the index it stops at, which may
    be the limit. *)
Lemma tag_more_reads fuel rbuf rlen h : forall i tag,
  0 <= i < rlen -> rlen - i <= Z.of_nat fuel + 1 ->
  exists i' tag',
    reads_in rbuf (rbuf + i' + 1) (tag_more fuel rbuf rlen i tag) h (i', tag')
    /\ i < i' <= rlen.
Proof.
  induction fuel as [|fuel IH]; intros i tag Hi Hf; rewrite tag_more_eq.
  - destruct (Z.ltb_spec (i + 1) rlen); [lia|].
    exists (i + 1), (Z.lor (ushort (Z.shiftl tag 8)) (uchar (h (rbuf + (i + 1))))).
    split; [|lia].
    rload. apply reads_ret.
  - destruct (Z.ltb_spec (i + 1) rlen).
    + destruct (Z.eqb_spec (Z.land (uchar (h (rbuf + (i + 1)))) TAG_NEXT) 0)
        as [E|E].
      * exists (i + 1), (Z.lor (ushort (Z.shiftl tag 8)) (uchar (h (rbuf + (i + 1))))).
    split; [|lia].
        rload. rload. rewrite (proj2 (Z.eqb_eq _ _) E). apply reads_ret.
      * destruct (IH (i + 1)
                    (Z.lor (ushort (Z.shiftl tag 8)) (uchar (h (rbuf + (i + 1))))))
          as (i' & tag' & Y & R); try lia.
        exists i', tag'. split; [|lia].
        rload. rload. rewrite (proj2 (Z.eqb_neq _ _) E). exact Y.
    + exists (i + 1), (Z.lor (ushort (Z.shiftl tag 8)) (uchar (h (rbuf + (i + 1))))).
    split; [|lia].
      rload. apply reads_ret.
Qed.

Ltac ruse Y :=
  eapply reads_bind;
  [ eapply reads_weaken; [| |exact Y]; lia | cbv beta iota ].

Lemma len_bytes_reads h : forall n rbuf len,
  exists len',
    reads_in rbuf (rbuf + Z.of_nat n) (len_bytes n rbuf len) h
      (len', rbuf + Z.of_nat n).
Proof.
  induction n as [|n IH]; intros rbuf len.
  - exists len. replace (rbuf + Z.of_nat 0) with rbuf by lia. apply reads_ret.
  - destruct (IH (rbuf + 1) (Z.lor (ushort (Z.shiftl len 8)) (uchar (h rbuf))))
      as (len' & Y).
    exists len'. cbn [len_bytes].
    replace (rbuf + Z.of_nat (S n)) with (rbuf + 1 + Z.of_nat n) by lia.
    rload. eapply reads_weaken; [| |exact Y]; lia.
Qed.

(** [tlv_tag] loads below the limit, except that a tag whose
    continuation bytes run to the limit makes it load the byte at the
    limit and answer -1. *)
Lemma tlv_tag_reads rbuf rlen tag h :
  exists n tg,
    reads_in rbuf (rbuf + rlen + (if n <? 0 then 1 else 0))
      (tlv_tag rbuf rlen tag) h (n, tg)
    /\ (n = -1 \/ n = 0 \/ 0 < n <= rlen).
Proof.
  unfold tlv_tag. destruct (Z.ltb_spec rlen 0).
  { exists (-1), tag. split; [apply reads_ret|lia]. }
  destruct (skip_filler_reads (Z.to_nat rlen) rbuf rlen h 0)
    as (j & Y & R); try lia.
  destruct (Z.eqb_spec j rlen) as [E|E].
  { exists 0, tag. split; [|lia]. change (0 <? 0) with false. cbv iota.
    ruse Y. rewrite (proj2 (Z.eqb_eq _ _) E). apply reads_ret. }
  destruct (Z.eqb_spec (Z.land (uchar (h (rbuf + j))) TAG_SEQ) TAG_SEQ) as [S|S].
  - destruct (tag_more_reads (Z.to_nat rlen) rbuf rlen h j (uchar (h (rbuf + j))))
      as (i' & tag' & Y' & R'); try lia.
    destruct (Z.geb_spec i' rlen) as [G|G].
    { exists (-1), tag'. split; [|lia]. change (-1 <? 0) with true. cbv iota.
      ruse Y. rewrite (proj2 (Z.eqb_neq _ _) E).
      rload. rload. rewrite (proj2 (Z.eqb_eq _ _) S).
      ruse Y'. destruct (Z.geb_spec i' rlen); [|lia].
      rbind by (apply reads_ret). apply reads_ret. }
    destruct (Z.eqb_spec (Z.land (uchar (h (rbuf + i'))) TAG_NEXT) 0) as [T|T].
    + exists (i' + 1), (if i' + 1 - j >? 2 then 0 else tag').
      split; [|lia]. destruct (Z.ltb_spec (i' + 1) 0); [lia|].
      ruse Y. rewrite (proj2 (Z.eqb_neq _ _) E).
      rload. rload. rewrite (proj2 (Z.eqb_eq _ _) S).
      ruse Y'. destruct (Z.geb_spec i' rlen); [lia|].
      rbind by (rload; apply reads_ret).
      rewrite (proj2 (Z.eqb_eq _ _) T). simpl negb. cbv iota.
      apply reads_ret.
    + exists (-1), tag'. split; [|lia]. change (-1 <? 0) with true. cbv iota.
      ruse Y. rewrite (proj2 (Z.eqb_neq _ _) E).
      rload. rload. rewrite (proj2 (Z.eqb_eq _ _) S).
      ruse Y'. destruct (Z.geb_spec i' rlen); [lia|].
      rbind by (rload; apply reads_ret).
      rewrite (proj2 (Z.eqb_neq _ _) T). simpl negb. cbv iota.
      apply reads_ret.
  - exists (j + 1), (uchar (h (rbuf + j))). split; [|lia].
    destruct (Z.ltb_spec (j + 1) 0); [lia|].
    ruse Y. rewrite (proj2 (Z.eqb_neq _ _) E).
    rload. rload. rewrite (proj2 (Z.eqb_neq _ _) S). unfold tag_done.
    destruct (Z.gtb_spec (j + 1 - j) 2); [lia|]. apply reads_ret.
Qed.

Lemma tlv_tlv0_reads rbuf rlen t h :
  exists i t',
    reads_in rbuf (rbuf + rlen + (if i <? 0 then 1 else 0))
      (tlv_tlv0 rbuf rlen t) h (i, t').
Proof.
  destruct (tlv_tag_reads rbuf rlen (tlv_t t) h) as (n & tg & Y & R).
  unfold tlv_tlv0.
  destruct (Z.leb_spec n 0) as [N|N].
  { exists n, (set_t t tg). rbind by (exact Y).
    destruct (Z.leb_spec n 0); [|lia]. apply reads_ret. }
  destruct (Z.ltb_spec n 0) as [N'|_]; [lia|].
  destruct (Z.leb_spec (rlen - n) 0) as [L|L].
  { exists (-1), (set_t t tg). change (-1 <? 0) with true. cbv iota.
    ruse Y. destruct (Z.leb_spec n 0); [lia|].
    destruct (Z.leb_spec (rlen - n) 0); [|lia]. apply reads_ret. }
  set (c := uchar (h (rbuf + n))).
  destruct (Z.eqb_spec (Z.land c LEN_BYTES) 0) as [Lf|Lf].
  { exists 1, (set_v (set_l (set_t t tg) c) (rbuf + n + 1)).
    change (1 <? 0) with false. cbv iota.
    ruse Y. destruct (Z.leb_spec n 0); [lia|].
    destruct (Z.leb_spec (rlen - n) 0); [lia|].
    rload. fold c. rewrite (proj2 (Z.eqb_eq _ _) Lf). simpl negb. cbv iota.
    apply reads_ret. }
  pose proof (land_7f_range c) as K.
  destruct (Z.gtb_spec (Z.land c 0x7f) (rlen - n - 1)) as [G|G].
  { exists (-1), (set_l (set_t t tg) c). change (-1 <? 0) with true. cbv iota.
    ruse Y. destruct (Z.leb_spec n 0); [lia|].
    destruct (Z.leb_spec (rlen - n) 0); [lia|].
    rload. fold c. rewrite (proj2 (Z.eqb_neq _ _) Lf). simpl negb. cbv iota.
    destruct (Z.gtb_spec (Z.land c 0x7f) (rlen - n - 1)); [|lia].
    apply reads_ret. }
  destruct (Z.gtb_spec (Z.land c 0x7f) 2) as [G2|G2].
  { exists (-2), (set_l (set_t t tg) c). change (-2 <? 0) with true. cbv iota.
    ruse Y. destruct (Z.leb_spec n 0); [lia|].
    destruct (Z.leb_spec (rlen - n) 0); [lia|].
    rload. fold c. rewrite (proj2 (Z.eqb_neq _ _) Lf). simpl negb. cbv iota.
    destruct (Z.gtb_spec (Z.land c 0x7f) (rlen - n - 1)); [lia|].
    destruct (Z.gtb_spec (Z.land c 0x7f) 2); [|lia].
    apply reads_ret. }
  destruct (len_bytes_reads h (Z.to_nat (Z.land c 0x7f)) (rbuf + n + 1) 0)
    as (len & Yl).
  eexists 1, _. change (1 <? 0) with false. cbv iota.
  ruse Y. destruct (Z.leb_spec n 0); [lia|].
  destruct (Z.leb_spec (rlen - n) 0); [lia|].
  rload. fold c. rewrite (proj2 (Z.eqb_neq _ _) Lf). simpl negb. cbv iota.
  destruct (Z.gtb_spec (Z.land c 0x7f) (rlen - n - 1)); [lia|].
  destruct (Z.gtb_spec (Z.land c 0x7f) 2); [lia|].
  ruse Yl. apply reads_ret.
Qed.

Lemma tlv_parseTLV_reads rbuf rlen t h :
  exists i t',
    reads_in rbuf (rbuf + rlen + (if i <? 0 then 1 else 0))
      (tlv_parseTLV rbuf rlen t) h (i, t').
Proof.
  destruct (tlv_tlv0_reads rbuf rlen t h) as (i & t' & Y).
  unfold tlv_parseTLV.
  destruct (Z.leb_spec i 0) as [N|N].
  { exists i, t'. rbind by (exact Y).
    destruct (Z.leb_spec i 0); [|lia]. apply reads_ret. }
  destruct (Z.ltb_spec i 0) as [N'|_]; [lia|].
  destruct (Z.gtb_spec (tlv_l t') (rlen - (tlv_v t' - rbuf))) as [G|G].
  - exists (-1), t'. change (-1 <? 0) with true. cbv iota.
    ruse Y. destruct (Z.leb_spec i 0); [lia|].
    destruct (Z.gtb_spec (tlv_l t') (rlen - (tlv_v t' - rbuf))); [|lia].
    apply reads_ret.
  - exists 1, t'. change (1 <? 0) with false. cbv iota.
    ruse Y. destruct (Z.leb_spec i 0); [lia|].
    destruct (Z.gtb_spec (tlv_l t') (rlen - (tlv_v t' - rbuf))); [lia|].
    apply reads_ret.
Qed.

(** X1: [tlv_parseTLV] returns on every input; it stores nothing and
    leaves the heap as it is; every load is from [rbuf, rbuf + rlen],
    that is at most one byte past the limit; and when the result is not
    negative every load is from [rbuf, rbuf + rlen). *)
Theorem tlv_parseTLV_footprint rbuf rlen t h :
  exists i t' tr,
    tlv_parseTLV rbuf rlen t h = Some ((i, t'), h, tr)
    /\ loads_within rbuf (rbuf + rlen + 1) tr = true
    /\ (0 <= i -> loads_within rbuf (rbuf + rlen) tr = true).
Proof.
  destruct (tlv_parseTLV_reads rbuf rlen t h) as (i & t' & Y).
  assert (Y1 : reads_in rbuf (rbuf + rlen + 1) (tlv_parseTLV rbuf rlen t) h
                 (i, t')).
  { eapply reads_weaken; [| |exact Y]; [lia|destruct (i <? 0); lia]. }
  destruct Y as (tr & E & W). destruct Y1 as (tr1 & E1 & W1).
  rewrite E in E1. inversion E1; subst tr1.
  exists i, t', tr. split; [exact E|]. split; [exact W1|].
  intros P. destruct (Z.ltb_spec i 0); [lia|].
  replace (rbuf + rlen) with (rbuf + rlen + 0) by lia. exact W.
Qed.

(** ** Results of the decoders *)

Lemma tlv_tlv0_zero_inv rbuf rlen t h t' h' :
  yields (tlv_tlv0 rbuf rlen t) h (0, t') h' ->
  exists tg, yields (tlv_tag rbuf rlen (tlv_t t)) h (0, tg) h'.
Proof.
  unfold tlv_tlv0. intros Y.
  apply yields_bind_inv in Y. destruct Y as ([n tg] & h1 & Y1 & Y2).
  destruct (Z.leb_spec n 0).
  { apply yields_ret_inv in Y2. destruct Y2 as (E & ->).
    inversion E; subst. exists tg. exact Y1. }
  exfalso.
  destruct (rlen - n <=? 0).
  { apply yields_ret_inv in Y2. destruct Y2 as (E & _). discriminate E. }
  apply yields_bind_inv in Y2. destruct Y2 as (c & h2 & _ & Y2).
  destruct (negb (Z.land c LEN_BYTES =? 0)).
  - destruct (Z.land c 127 >? rlen - n - 1).
    { apply yields_ret_inv in Y2. destruct Y2 as (E & _). discriminate E. }
    destruct (Z.land c 127 >? 2).
    { apply yields_ret_inv in Y2. destruct Y2 as (E & _). discriminate E. }
    apply yields_bind_inv in Y2. destruct Y2 as ([len p] & h3 & _ & Y2).
    apply yields_ret_inv in Y2. destruct Y2 as (E & _). discriminate E.
  - apply yields_ret_inv in Y2. destruct Y2 as (E & _). discriminate E.
Qed.

Lemma tlv_parseTLV_zero_inv rbuf rlen t h t' h' :
  yields (tlv_parseTLV rbuf rlen t) h (0, t') h' ->
  exists tg, yields (tlv_tag rbuf rlen (tlv_t t)) h (0, tg) h'.
Proof.
  unfold tlv_parseTLV. intros Y.
  apply yields_bind_inv in Y. destruct Y as ([i t1] & h1 & Y1 & Y2).
  destruct (Z.leb_spec i 0).
  { apply yields_ret_inv in Y2. destruct Y2 as (E & ->).
    inversion E; subst. eapply tlv_tlv0_zero_inv. exact Y1. }
  exfalso. destruct (tlv_l t1 >? rlen - (tlv_v t1 - rbuf));
    apply yields_ret_inv in Y2; destruct Y2 as (E & _); discriminate E.
Qed.

(** X2: [tlv_parseTLV] answers 1, 0, -1 or -2.  It answers 0 exactly
    when the limit is not negative and every byte below it is 0 (an
    empty buffer included); when it answers 1 the header took at least
    two bytes and the value slice ends within the limit. *)
Theorem tlv_parseTLV_answers rbuf rlen t h :
  exists i t',
    yields (tlv_parseTLV rbuf rlen t) h (i, t') h
    /\ (i = 1 \/ i = 0 \/ i = -1 \/ i = -2)
    /\ (i = 0 <->
        0 <= rlen /\ forall k, 0 <= k < rlen -> uchar (h (rbuf + k)) = 0)
    /\ (i = 1 ->
        rbuf + 2 <= tlv_v t' /\ tlv_v t' + tlv_l t' <= rbuf + rlen
        /\ 0 <= tlv_l t' < 65536 /\ 0 <= tlv_t t' < 65536).
Proof.
  destruct (tlv_parseTLV_spec rbuf rlen h) as (i & r & Y & C & B).
  destruct (Y t) as (t' & Yt & Er).
  exists i, t'. split; [exact Yt|]. split; [exact C|]. split.
  - split.
    + intros ->. apply tlv_parseTLV_zero_inv in Yt. destruct Yt as (tg & Yg).
      destruct (tlv_tag_spec rbuf rlen h) as (n & tg0 & Yn & _ & Cs).
      destruct (Yn (tlv_t t)) as (tg1 & Y1 & _).
      destruct (yields_fun _ _ _ _ _ _ Yg Y1) as (E & _).
      inversion E; subst n.
      destruct Cs as [(N & _)|[(_ & P & Zs)|(j & Hj & Hn & _)]];
        [discriminate N| |lia].
      split; assumption.
    + intros (P & Zs).
      destruct (tlv_parseTLV_zeros h rbuf rlen t P Zs) as (t0 & Y0).
      destruct (yields_fun _ _ _ _ _ _ Yt Y0) as (E & _).
      inversion E. reflexivity.
  - intros ->. rewrite (Er ltac:(lia)). apply B. reflexivity.
Qed.

(** ** The scans see the bytes of their range only *)

Lemma tlv_find_loop_rel tag : forall fuel h h' p q l t t',
  agree h h' p q l -> l <= Z.of_nat fuel ->
  exists i r r',
    yields (tlv_find_loop fuel p l tag t) h (i, r) h
    /\ yields (tlv_find_loop fuel q l tag t') h' (i, r') h'
    /\ tlv_t r' = tlv_t r /\ tlv_l r' = tlv_l r
    /\ (i = 0 /\ r = mkTLV tag 0 NULL /\ r' = r
        \/ i = 1 /\ tlv_v r' - q = tlv_v r - p).
Proof.
  induction fuel as [|fuel IH]; intros h h' p q l t t' A Hf;
    rewrite !tlv_find_loop_eq;
    destruct (tlv_parseTLV_rel h h' p q l t t' A) as (i & r & r' & Y & Y' & H);
    (destruct (Z.gtb_spec i 0) as [G|G];
     [| exists 0, (mkTLV tag 0 NULL), (mkTLV tag 0 NULL);
        split; [|split; [|split; [|split]]];
        [ ybind by (exact Y); destruct (Z.gtb_spec i 0); [lia|];
          apply yields_ret
        | ybind by (exact Y'); destruct (Z.gtb_spec i 0); [lia|];
          apply yields_ret
        | reflexivity | reflexivity | left; auto ]]);
    destruct (H G) as (-> & Et & El & Ev & Rv & Re & Rl).
  - lia.
  - destruct (Z.eqb_spec (tlv_t r) tag) as [E|E].
    + exists 1, r, r'. split; [|split; [|split; [|split]]]; auto.
      * ybind by (exact Y). change (1 >? 0) with true. cbv iota.
        rewrite (proj2 (Z.eqb_eq _ _) E). apply yields_ret.
      * ybind by (exact Y'). change (1 >? 0) with true. cbv iota.
        rewrite Et, (proj2 (Z.eqb_eq _ _) E). apply yields_ret.
    + set (v := tlv_v r) in *. set (l0 := tlv_l r) in *.
      assert (Ev' : tlv_v r' = q + (v - p)) by lia.
      destruct (IH h h' (p + (v + l0 - p)) (q + (v + l0 - p))
                  (l - (v + l0 - p)) (set_v r (v + l0))
                  (set_v r' (tlv_v r' + tlv_l r')))
        as (i2 & r2 & r2' & Y2 & Y2' & Et2 & El2 & C2); [|lia|].
      { apply (agree_sub h h' p q l); [assumption|lia|lia]. }
      exists i2, r2, r2'. split; [|split; [|split; [|split]]]; auto.
      * ybind by (exact Y). change (1 >? 0) with true. cbv iota.
        rewrite (proj2 (Z.eqb_neq _ _) E). fold v l0.
        replace (p + (v + l0 - p)) with (v + l0) in Y2 by lia. exact Y2.
      * ybind by (exact Y'). change (1 >? 0) with true. cbv iota.
        rewrite Et, (proj2 (Z.eqb_neq _ _) E). rewrite El in *. fold l0 in Y2' |- *.
        rewrite Ev' in *.
        replace (q + (v + l0 - p)) with (q + (v - p) + l0) in Y2' by lia.
        replace (l - (q + (v - p) + l0 - q)) with (l - (v + l0 - p)) by lia.
        exact Y2'.
      * destruct C2 as [C2|(I2 & V2)]; [left; exact C2|right].
        split; [exact I2|]. lia.
Qed.

(** X3: two ranges of [l] bytes with the same content, wherever they
    lie and whatever follows them, are treated alike: [tlv_parseTLV]
    gives the same answer and, on success, the same tag, length and
    value offset; [tlv_find] gives the same answer and the same view up
    to the base address; [tlv_check] gives the same verdict.  The byte
    that the tag decoder may load at the limit has no influence. *)
Theorem scans_depend_on_range_only h h' p q l t t' tag :
  agree h h' p q l ->
  (exists i r r',
      yields (tlv_parseTLV p l t) h (i, r) h
      /\ yields (tlv_parseTLV q l t') h' (i, r') h'
      /\ (0 < i -> tlv_t r' = tlv_t r /\ tlv_l r' = tlv_l r
                   /\ tlv_v r' - q = tlv_v r - p))
  /\ (tag <> 0 ->
      exists i r r',
        yields (tlv_find p l tag t) h (i, r) h
        /\ yields (tlv_find q l tag t') h' (i, r') h'
        /\ tlv_t r' = tlv_t r /\ tlv_l r' = tlv_l r
        /\ (i = 1 -> tlv_v r' - q = tlv_v r - p))
  /\ result (tlv_check p l h) = result (tlv_check q l h').
Proof.
  intros A. split; [|split].
  - destruct (tlv_parseTLV_rel h h' p q l t t' A) as (i & r & r' & Y & Y' & H).
    exists i, r, r'. split; [exact Y|]. split; [exact Y'|].
    intros P. destruct (H P) as (_ & Et & El & Ev & _). auto.
  - intros T. unfold tlv_find. destruct (Z.eqb_spec tag 0); [contradiction|].
    destruct (tlv_find_loop_rel tag (Z.to_nat l) h h' p q l TLV_undef TLV_undef A)
      as (i & r & r' & Y & Y' & Et & El & C); [lia|].
    exists i, r, r'. repeat (split; [assumption|]).
    intros ->. destruct C as [(C & _)|(_ & C)]; [discriminate C|exact C].
  - unfold tlv_check.
    destruct (tlv_check_loop_rel (Z.to_nat l) (Z.to_nat l) h h' p q l
                TLV_undef TLV_undef A) as (r & Y & Y' & _); try lia.
    rewrite (yields_result _ _ _ _ Y), (yields_result _ _ _ _ Y').
    reflexivity.
Qed.

(** Two copies of the record [81 02 aa bb], followed by different
    bytes. *)
Lemma scans_depend_on_range_only_witness :
  result (tlv_check 100 4 (heap_of 100 [0x81; 0x02; 0xaa; 0xbb; 0x9f]))
  = result (tlv_check 200 4 (heap_of 200 [0x81; 0x02; 0xaa; 0xbb; 0x00])).
Proof.
  apply (scans_depend_on_range_only
           (heap_of 100 [0x81; 0x02; 0xaa; 0xbb; 0x9f])
           (heap_of 200 [0x81; 0x02; 0xaa; 0xbb; 0x00])
           100 200 4 TLV_undef TLV_undef 0x81).
  intros k Hk.
  assert (k = 0 \/ k = 1 \/ k = 2 \/ k = 3) as [E|[E|[E|E]]] by lia;
    subst k; reflexivity.
Defined.

(** ** The recursive search *)

Lemma priv_findr_loop_eq fuel b l tag t out :
  priv_findr_loop fuel b l tag t out =
  ('(i, t) <- tlv_parseTLV b l t;;
   if i >? 0 then
     if tlv_t t =? tag then ret (1, t)
     else
       match fuel with
       | O => out_of_fuel
       | S k =>
           '(r, out) <- (if negb (Z.land (tlv_tag0 (tlv_t t)) TAG_CONSTR =? 0)
                         then priv_findr_loop k (tlv_v t) (tlv_l t) tag
                                TLV_undef out
                         else ret (0, out));;
           if negb (r =? 0) then ret (1, out)
           else priv_findr_loop k (tlv_v t + tlv_l t)
                  (l - (tlv_v t + tlv_l t - b)) tag
                  (set_v t (tlv_v t + tlv_l t)) out
       end
   else ret (0, out)).
Proof. destruct fuel; reflexivity. Qed.

(** With fuel for the length of the range the recursive search returns;
    a view reported as found carries the tag and lies in the range. *)
Lemma priv_findr_loop_spec tag : forall fuel h b l t out,
  l <= Z.of_nat fuel ->
  exists r out', yields (priv_findr_loop fuel b l tag t out) h (r, out') h
    /\ (r = 0 /\ out' = out
        \/ r = 1 /\ tlv_t out' = tag /\ b + 2 <= tlv_v out'
           /\ tlv_v out' + tlv_l out' <= b + l
           /\ 0 <= tlv_l out' < 65536).
Proof.
  induction fuel as [|fuel IH]; intros h b l t out Hf;
    rewrite priv_findr_loop_eq;
    destruct (tlv_parseTLV_spec b l h) as (i & r & Y & Hi & Hr);
    destruct (Y t) as (t' & Yt & Et);
    (destruct (Z.gtb_spec i 0) as [G|G];
     [| exists 0, out; split; [|left; auto];
        ybind by (exact Yt); destruct (Z.gtb_spec i 0); [lia|];
        apply yields_ret ]);
    assert (i = 1) by lia; subst i; rewrite (Et G) in Yt;
    destruct (Hr eq_refl) as (Hv & He & Hl & _).
  - lia.
  - destruct (Z.eqb_spec (tlv_t r) tag) as [E|E].
    { exists 1, r. split.
      - ybind by (exact Yt). change (1 >? 0) with true. cbv iota.
        rewrite (proj2 (Z.eqb_eq _ _) E). apply yields_ret.
      - right. repeat split; auto; lia. }
    assert (Sub : exists s o,
               yields (if negb (Z.land (tlv_tag0 (tlv_t r)) TAG_CONSTR =? 0)
                       then priv_findr_loop fuel (tlv_v r) (tlv_l r) tag
                              TLV_undef out
                       else ret (0, out)) h (s, o) h
               /\ (s = 0 /\ o = out
                   \/ s = 1 /\ tlv_t o = tag /\ tlv_v r + 2 <= tlv_v o
                      /\ tlv_v o + tlv_l o <= tlv_v r + tlv_l r
                      /\ 0 <= tlv_l o < 65536)).
    { destruct (negb (Z.land (tlv_tag0 (tlv_t r)) TAG_CONSTR =? 0)).
      - apply IH. lia.
      - exists 0, out. split; [apply yields_ret|left; auto]. }
    destruct Sub as (s & o & Ys & [(-> & ->)|(-> & Ct & Cv & Ce & Cl)]).
    + destruct (IH h (tlv_v r + tlv_l r) (l - (tlv_v r + tlv_l r - b))
                  (set_v r (tlv_v r + tlv_l r)) out)
        as (r2 & o2 & Y2 & C2); [lia|].
      exists r2, o2. split.
      * ybind by (exact Yt). change (1 >? 0) with true. cbv iota.
        rewrite (proj2 (Z.eqb_neq _ _) E).
        ybind by (exact Ys). change (negb (0 =? 0)) with false. cbv iota.
        exact Y2.
      * destruct C2 as [C2|(R2 & T2 & V2 & E2 & L2)]; [left; exact C2|right].
        repeat split; auto; lia.
    + exists 1, o. split.
      * ybind by (exact Yt). change (1 >? 0) with true. cbv iota.
        rewrite (proj2 (Z.eqb_neq _ _) E).
        ybind by (exact Ys). change (negb (1 =? 0)) with true. cbv iota.
        apply yields_ret.
      * right. repeat split; auto; lia.
Qed.

(** X4: [priv_findr] returns on every input and leaves the heap as it
    is.  When it answers 0, [*tlv] is as before the call (it is not
    cleared as [tlv_find] does); when it answers 1, the view carries the
    requested tag and its value lies inside the searched range.  The
    first record is reported whenever its decoded tag is the requested
    one, tag 0 included. *)
Theorem priv_findr_answers b l tag out h :
  (exists r out',
      yields (priv_findr b l tag out) h (r, out') h
      /\ (r = 0 /\ out' = out
          \/ r = 1 /\ tlv_t out' = tag /\ b + 2 <= tlv_v out'
             /\ tlv_v out' + tlv_l out' <= b + l
             /\ 0 <= tlv_l out' < 65536))
  /\ (forall t,
        yields (tlv_parseTLV b l TLV_undef) h (1, t) h -> tlv_t t = tag ->
        yields (priv_findr b l tag out) h (1, t) h).
Proof.
  split.
  - apply priv_findr_loop_spec. lia.
  - intros t Y E. unfold priv_findr. rewrite priv_findr_loop_eq.
    ybind by (exact Y). change (1 >? 0) with true. cbv iota.
    rewrite (proj2 (Z.eqb_eq _ _) E). apply yields_ret.
Qed.

(** The record [9f 82 83 04 01 aa], whose overlong tag decodes to 0, is
    found under tag 0. *)
Lemma priv_findr_answers_witness :
  yields (priv_findr 100 6 0 TLV_undef) (heap_of 100 overlong_record)
    (1, mkTLV 0 1 105) (heap_of 100 overlong_record).
Proof.
  apply (proj2 (priv_findr_answers 100 6 0 TLV_undef
                  (heap_of 100 overlong_record))).
  - eexists. vm_compute. reflexivity.
  - reflexivity.
Defined.

(** What the flat search finds, the recursive search finds or finds
    earlier, inside a constructed record. *)
Lemma tlv_find_loop_then_findr tag : forall fuel fuel' h b l t t' out r,
  l <= Z.of_nat fuel' ->
  yields (tlv_find_loop fuel b l tag t) h (1, r) h ->
  exists r', yields (priv_findr_loop fuel' b l tag t' out) h (1, r') h
             /\ tlv_t r' = tag.
Proof.
  induction fuel as [|fuel IH]; intros fuel' h b l t t' out r Hf Y;
    rewrite tlv_find_loop_eq in Y;
    apply yields_bind_inv in Y; destruct Y as ([i t1] & h1 & Y1 & Y2);
    destruct (tlv_parseTLV_spec b l h) as (i0 & r0 & Y0 & Hi & Hr);
    destruct (Y0 t) as (t0 & Yt & Et);
    destruct (yields_fun _ _ _ _ _ _ Y1 Yt) as (E1 & ->);
    inversion E1; subst i0 t0; clear E1;
    (destruct (Z.gtb_spec i 0) as [G|G];
     [| apply yields_ret_inv in Y2; destruct Y2 as (E2 & _); discriminate E2]);
    assert (i = 1) by lia; subst i; rewrite (Et G) in *;
    destruct (Hr eq_refl) as (Hv & He & Hl & _);
    destruct (Y0 t') as (t0' & Yt' & Et'); rewrite (Et' G) in Yt';
    rewrite priv_findr_loop_eq.
  - destruct (Z.eqb_spec (tlv_t r0) tag) as [E|E].
    + exists r0. split; [|exact E].
      ybind by (exact Yt'). change (1 >? 0) with true. cbv iota.
      rewrite (proj2 (Z.eqb_eq _ _) E). apply yields_ret.
    + destruct Y2 as (tr & Y2). discriminate Y2.
  - destruct (Z.eqb_spec (tlv_t r0) tag) as [E|E].
    + exists r0. split; [|exact E].
      ybind by (exact Yt'). change (1 >? 0) with true. cbv iota.
      rewrite (proj2 (Z.eqb_eq _ _) E). apply yields_ret.
    + destruct fuel' as [|fuel']; [lia|].
      assert (Sub : exists s o,
                 yields (if negb (Z.land (tlv_tag0 (tlv_t r0)) TAG_CONSTR =? 0)
                         then priv_findr_loop fuel' (tlv_v r0) (tlv_l r0) tag
                                TLV_undef out
                         else ret (0, out)) h (s, o) h
                 /\ (s = 0 /\ o = out \/ s = 1 /\ tlv_t o = tag)).
      { destruct (negb (Z.land (tlv_tag0 (tlv_t r0)) TAG_CONSTR =? 0)).
        - destruct (priv_findr_loop_spec tag fuel' h (tlv_v r0) (tlv_l r0)
                      TLV_undef out) as (s & o & Ys & C); [lia|].
          exists s, o. split; [exact Ys|].
          destruct C as [C|(C1 & C2 & _)]; auto.
        - exists 0, out. split; [apply yields_ret|left; auto]. }
      destruct Sub as (s & o & Ys & [(-> & ->)|(-> & Ct)]).
      * destruct (IH fuel' h (tlv_v r0 + tlv_l r0)
                    (l - (tlv_v r0 + tlv_l r0 - b))
                    (set_v r0 (tlv_v r0 + tlv_l r0))
                    (set_v r0 (tlv_v r0 + tlv_l r0)) out r)
          as (r' & Y' & T'); [lia|exact Y2|].
        exists r'. split; [|exact T'].
        ybind by (exact Yt'). change (1 >? 0) with true. cbv iota.
        rewrite (proj2 (Z.eqb_neq _ _) E).
        ybind by (exact Ys). change (negb (0 =? 0)) with false. cbv iota.
        exact Y'.
      * exists o. split; [|exact Ct].
        ybind by (exact Yt'). change (1 >? 0) with true. cbv iota.
        rewrite (proj2 (Z.eqb_neq _ _) E).
        ybind by (exact Ys). change (negb (1 =? 0)) with true. cbv iota.
        apply yields_ret.
Qed.

(** X5: a tag that [tb_find] finds in a collection is found by
    [tb_findr] too (possibly at another place: inside a constructed
    record that comes earlier). *)
Theorem tb_find_found_then_tb_findr_found tb tag out out' t h :
  yields (tb_find tb tag out) h (1, t) h ->
  exists t', yields (tb_findr tb tag out') h (1, t') h /\ tlv_t t' = tag.
Proof.
  unfold tb_find, tlv_find, tb_findr, priv_findr.
  destruct (tag =? 0).
  { intros Y. apply yields_ret_inv in Y. destruct Y as (E & _). discriminate E. }
  apply tlv_find_loop_then_findr. lia.
Qed.

(** Tag [83] occurs inside the constructed record [a0] and again after
    it: the flat search reports the second one, the recursive search
    the nested one. *)
Lemma tb_find_found_then_tb_findr_found_witness :
  exists t',
    yields (tb_findr (mkTLVbuf 16 8 100) 0x83 TLV_undef)
      (heap_of 100 [0xa0; 0x03; 0x83; 0x01; 0x66; 0x83; 0x01; 0x77])
      (1, t') (heap_of 100 [0xa0; 0x03; 0x83; 0x01; 0x66; 0x83; 0x01; 0x77])
    /\ tlv_t t' = 0x83.
Proof.
  apply (tb_find_found_then_tb_findr_found (mkTLVbuf 16 8 100) 0x83
           TLV_undef TLV_undef (mkTLV 0x83 1 107)).
  eexists. vm_compute. reflexivity.
Defined.

(** ** Building a tag *)

Lemma enc_tag_length t :
  Z.of_nat (length (enc_tag t)) = if t >? 0xff then 2 else 1.
Proof. unfold enc_tag. destruct (t >? 0xff); reflexivity. Qed.

(** What [tlv_buildT] does with a tag that passes its test. *)
Lemma tlv_buildT_spec rbuf rlen tag h :
  tag_wrong tag = false ->
  exists h',
    tlv_buildT rbuf rlen tag h
    = Some (Z.of_nat (length (enc_tag tag)), h',
            map (fun k => Store (rbuf + Z.of_nat k))
                (seq 0 (length (enc_tag tag))))
    /\ holds h' rbuf (enc_tag tag)
    /\ (forall a, ~ (rbuf <= a < rbuf + Z.of_nat (length (enc_tag tag))) ->
        h' a = h a).
Proof.
  intros W. unfold tlv_buildT, enc_tag. rewrite W.
  destruct (Z.gtb_spec tag 0xff).
  - eexists. split; [|split].
    + unfold bind, store, ret. cbn [app length seq map Z.of_nat].
      repeat f_equal; lia.
    + cbn [holds]. upd_simpl. repeat split; try apply uchar_idem.
    + cbn [length]. intros a Ha. upd_simpl. reflexivity.
  - eexists. split; [|split].
    + unfold bind, store, ret. cbn [app length seq map Z.of_nat].
      repeat f_equal; lia.
    + cbn [holds]. upd_simpl. repeat split; try apply uchar_idem.
    + cbn [length]. intros a Ha. upd_simpl. reflexivity.
Qed.

(** X6: [tlv_buildT] answers 0 for a tag that fails its test, with no
    access to memory.  For any other tag it stores the one or two tag
    bytes at [rbuf] and answers their number, and it does so whatever
    [rlen] is: the limit is never consulted, so the bytes are stored
    even when [rlen] is 0. *)
Theorem tlv_buildT_stores_without_limit rbuf rlen tag h :
  (tag_wrong tag = true -> tlv_buildT rbuf rlen tag h = Some (0, h, []))
  /\ (tag_wrong tag = false ->
      exists h',
        tlv_buildT rbuf rlen tag h
        = Some (Z.of_nat (length (enc_tag tag)), h',
                map (fun k => Store (rbuf + Z.of_nat k))
                    (seq 0 (length (enc_tag tag))))
        /\ Z.of_nat (length (enc_tag tag)) = (if tag >? 0xff then 2 else 1)
        /\ holds h' rbuf (enc_tag tag)
        /\ (forall a, ~ (rbuf <= a < rbuf + Z.of_nat (length (enc_tag tag))) ->
            h' a = h a)).
Proof.
  split.
  - intros W. unfold tlv_buildT. rewrite W. reflexivity.
  - intros W. destruct (tlv_buildT_spec rbuf rlen tag h W) as (h' & E & H & F).
    exists h'. split; [exact E|]. split; [apply enc_tag_length|]. auto.
Qed.

(** Tag [9f02] built with limit 0: two bytes are stored. *)
Lemma tlv_buildT_stores_without_limit_witness :
  exists h',
    tlv_buildT 100 0 0x9f02 (heap_of 0 [])
    = Some (Z.of_nat (length (enc_tag 0x9f02)), h',
            map (fun k => Store (100 + Z.of_nat k))
                (seq 0 (length (enc_tag 0x9f02))))
    /\ Z.of_nat (length (enc_tag 0x9f02)) = (if 0x9f02 >? 0xff then 2 else 1)
    /\ holds h' 100 (enc_tag 0x9f02)
    /\ (forall a, ~ (100 <= a < 100 + Z.of_nat (length (enc_tag 0x9f02))) ->
        h' a = heap_of 0 [] a).
Proof.
  apply (proj2 (tlv_buildT_stores_without_limit 100 0 0x9f02 (heap_of 0 []))).
  reflexivity.
Defined.

(** X7: a tag built by [tlv_buildT] is read back by [tlv_tag], with the
    same number of bytes, when it is sound: one byte, or two bytes of
    which the first has its low five bits set. *)
Theorem tlv_buildT_then_tlv_tag rbuf rlen rlen' tag tag0 h :
  tag_sound tag = true ->
  Z.of_nat (length (enc_tag tag)) <= rlen' ->
  exists n h',
    yields (tlv_buildT rbuf rlen tag) h n h'
    /\ n = Z.of_nat (length (enc_tag tag))
    /\ yields (tlv_tag rbuf rlen' tag0) h' (n, tag) h'.
Proof.
  intros S R.
  destruct (tlv_buildT_spec rbuf rlen tag h (tag_sound_not_wrong _ S))
    as (h' & E & H & _).
  exists (Z.of_nat (length (enc_tag tag))), h'.
  split; [eexists; exact E|]. split; [reflexivity|].
  apply tlv_tag_canonical; assumption.
Qed.

Lemma tlv_buildT_then_tlv_tag_witness :
  exists n h',
    yields (tlv_buildT 100 2 0x9f02) (heap_of 0 []) n h'
    /\ n = Z.of_nat (length (enc_tag 0x9f02))
    /\ yields (tlv_tag 100 2 0) h' (n, 0x9f02) h'.
Proof.
  apply (tlv_buildT_then_tlv_tag 100 2 2 0x9f02 0 (heap_of 0 []));
    [reflexivity|simpl; lia].
Defined.

(** What the decoder needs from a two-byte tag that [tlv_buildT]
    accepts and that is not sound, as a test on the tag. *)
Lemma split_tag_all t :
  0 <= t < 65536 ->
  implb (negb (tag_wrong t) && negb (tag_sound t) )
    ((0xff <? t)
     && negb (uchar (Z.shiftr t 8) =? 0)
     && negb (Z.land (uchar (Z.shiftr t 8)) TAG_SEQ =? TAG_SEQ)
     && (uchar (Z.shiftr t 8) =? Z.shiftr t 8)) = true.
Proof.
  revert t. apply all_ushort_spec. vm_compute. reflexivity.
Qed.

(** X8: the other tags that [tlv_buildT] accepts are two-byte tags
    whose first byte does not announce a second one; [tlv_tag] reads
    such a tag back as the one-byte tag made of its first byte. *)
Theorem tlv_buildT_unsound_tag_is_split rbuf rlen rlen' tag tag0 h :
  0 <= tag < 65536 -> tag_wrong tag = false -> tag_sound tag = false ->
  1 <= rlen' ->
  exists h',
    yields (tlv_buildT rbuf rlen tag) h 2 h'
    /\ yields (tlv_tag rbuf rlen' tag0) h' (1, Z.shiftr tag 8) h'.
Proof.
  intros R W S L.
  pose proof (split_tag_all tag R) as A. rewrite W, S in A. simpl in A.
  apply andb_prop in A. destruct A as (A & A4).
  apply andb_prop in A. destruct A as (A & A3).
  apply andb_prop in A. destruct A as (A1 & A2).
  apply Z.ltb_lt in A1. apply Z.eqb_eq in A4.
  apply negb_true_iff in A2, A3. apply Z.eqb_neq in A2, A3.
  destruct (tlv_buildT_spec rbuf rlen tag h W) as (h' & E & H & _).
  unfold enc_tag in E, H. destruct (Z.gtb_spec tag 0xff); [|lia].
  exists h'. split; [eexists; exact E|].
  cbn [holds] in H. destruct H as (Hb & _).
  destruct (tlv_tag_spec rbuf rlen' h') as (n & tg0 & Y & _ & Cs).
  destruct (Y tag0) as (tg & Yt & Etg).
  destruct Cs as [(-> & [C|(j & Hj & Zs & Nz & Sq & _)])
                 |[(-> & _ & Zs)|(j & Hj & Hn & Zs & Nz & C)]].
  - lia.
  - exfalso. destruct (Z.eq_dec j 0) as [->|J].
    + replace (rbuf + 0) with rbuf in Sq by lia. rewrite Hb in Sq. contradiction.
    + specialize (Zs 0 ltac:(lia)). replace (rbuf + 0) with rbuf in Zs by lia.
      rewrite Hb in Zs. contradiction.
  - exfalso. specialize (Zs 0 ltac:(lia)).
    replace (rbuf + 0) with rbuf in Zs by lia. rewrite Hb in Zs. contradiction.
  - assert (j = 0).
    { destruct (Z.eq_dec j 0) as [->|J]; [reflexivity|exfalso].
      specialize (Zs 0 ltac:(lia)). replace (rbuf + 0) with rbuf in Zs by lia.
      rewrite Hb in Zs. contradiction. }
    subst j. replace (rbuf + 0) with rbuf in * by lia. rewrite Hb in *.
    destruct C as [(_ & -> & ->)|(Sq & _)]; [|contradiction].
    rewrite (Etg ltac:(lia)) in Yt. rewrite A4 in Yt. exact Yt.
Qed.

Lemma tlv_buildT_unsound_tag_is_split_witness :
  exists h',
    yields (tlv_buildT 100 2 0x8102) (heap_of 0 []) 2 h'
    /\ yields (tlv_tag 100 2 0) h' (1, Z.shiftr 0x8102 8) h'.
Proof.
  apply (tlv_buildT_unsound_tag_is_split 100 2 2 0x8102 0 (heap_of 0 []));
    [lia|reflexivity|reflexivity|lia].
Defined.

(** ** Lookup *)

Lemma agree_refl h p n : agree h h p p n.
Proof. intros k _. reflexivity. Qed.

(** X9: [tlv_find] returns on every input and leaves the heap as it
    is.  For a tag other than 0 it answers 1 with a view that carries
    the tag and whose value lies inside the searched range, or 0 with
    the view cleared but for its tag. *)
Theorem tlv_find_answers b l tag out h :
  tag <> 0 ->
  exists r t,
    yields (tlv_find b l tag out) h (r, t) h
    /\ (r = 0 /\ t = mkTLV tag 0 NULL
        \/ r = 1 /\ tlv_t t = tag /\ b + 2 <= tlv_v t
           /\ tlv_v t + tlv_l t <= b + l /\ 0 <= tlv_l t < 65536).
Proof.
  intros T.
  destruct (tlv_find_spec b l tag out h) as (r & t & Y & C & B).
  exists r, t. split; [exact Y|].
  destruct C as [->| ->]; [left|right; split; [reflexivity|apply B; reflexivity]].
  split; [reflexivity|].
  unfold tlv_find in Y. destruct (Z.eqb_spec tag 0); [contradiction|].
  destruct (tlv_find_loop_rel tag (Z.to_nat l) h h b b l TLV_undef TLV_undef
              (agree_refl h b l)) as (i & r1 & r2 & Y1 & _ & _ & _ & D); [lia|].
  destruct (yields_fun _ _ _ _ _ _ Y Y1) as (E & _). inversion E; subst i r1.
  destruct D as [(_ & D & _)|(D & _)]; [exact D|discriminate D].
Qed.

Lemma tlv_find_answers_witness :
  exists r t,
    yields (tlv_find 2000 5 0x82 TLV_undef) bad_stream (r, t) bad_stream
    /\ (r = 0 /\ t = mkTLV 0x82 0 NULL
        \/ r = 1 /\ tlv_t t = 0x82 /\ 2000 + 2 <= tlv_v t
           /\ tlv_v t + tlv_l t <= 2000 + 5 /\ 0 <= tlv_l t < 65536).
Proof.
  apply (tlv_find_answers 2000 5 0x82 TLV_undef bad_stream). lia.
Defined.

Lemma find_rec_none tag rs :
  (forall l, ~ In (tag, l) rs) -> find_rec tag rs = None.
Proof.
  induction rs as [|[t l] rs IH]; intros N; [reflexivity|].
  cbn [find_rec]. destruct (Z.eqb_spec t tag) as [->|E].
  - exfalso. apply (N l). left. reflexivity.
  - rewrite IH; [reflexivity|]. intros l' I. apply (N l'). right. exact I.
Qed.

Lemma find_rec_first tag l pre post :
  (forall l', ~ In (tag, l') pre) ->
  find_rec tag (pre ++ (tag, l) :: post) = Some (span_of pre, l).
Proof.
  induction pre as [|[t0 l0] pre IH]; intros N.
  - cbn [app find_rec span_of]. rewrite Z.eqb_refl. reflexivity.
  - cbn [app find_rec span_of]. destruct (Z.eqb_spec t0 tag) as [->|E].
    + exfalso. apply (N l0). left. reflexivity.
    + rewrite IH; [reflexivity|]. intros l' I. apply (N l'). right. exact I.
Qed.

(** X10: on a collection that holds the records [rs], [tb_find] of a
    tag other than 0 answers 0 when no record carries the tag, and
    otherwise answers 1 with the length and the value address of the
    first record that carries it. *)
Theorem tb_find_first_match tb h rs tag :
  Forall rec_ok rs -> layout h (tb_buf tb) rs -> tb_len tb = span_of rs ->
  tag <> 0 ->
  ((forall l, ~ In (tag, l) rs) ->
   yields (tb_find tb tag TLV_undef) h (0, mkTLV tag 0 NULL) h)
  /\ (forall pre l post,
        rs = pre ++ (tag, l) :: post -> (forall l', ~ In (tag, l') pre) ->
        yields (tb_find tb tag TLV_undef) h
          (1, mkTLV tag l (tb_buf tb + span_of pre + header_size tag l)) h).
Proof.
  intros F L E T.
  pose proof (tb_find_well_formed tb h rs tag F L E T) as Y.
  split.
  - intros N. rewrite (find_rec_none tag rs N) in Y. exact Y.
  - intros pre l post -> N. rewrite (find_rec_first tag l pre post N) in Y.
    exact Y.
Qed.

(** The records [81 01 aa] and [82 01 bb]; tag [82] is the second. *)
Lemma tb_find_first_match_witness :
  yields (tb_find (mkTLVbuf 16 6 1000) 0x82 TLV_undef)
    (heap_of 1000 [0x81; 0x01; 0xaa; 0x82; 0x01; 0xbb])
    (1, mkTLV 0x82 1 (1000 + span_of [(0x81, 1)] + header_size 0x82 1))
    (heap_of 1000 [0x81; 0x01; 0xaa; 0x82; 0x01; 0xbb]).
Proof.
  apply (proj2 (tb_find_first_match (mkTLVbuf 16 6 1000)
                  (heap_of 1000 [0x81; 0x01; 0xaa; 0x82; 0x01; 0xbb])
                  [(0x81, 1); (0x82, 1)] 0x82
                  ltac:(repeat constructor; simpl; lia)
                  ltac:(vm_compute; tauto)
                  ltac:(reflexivity) ltac:(lia))
          [(0x81, 1)] 1 []).
  - reflexivity.
  - intros l' [I|[]]. inversion I.
Defined.

(** ** Insert and lookup *)

Lemma find_rec_app_other tag tag' l rs :
  tag' <> tag ->
  find_rec tag' (rs ++ [(tag, l)]) = find_rec tag' rs.
Proof.
  intros N. induction rs as [|[t0 l0] rs IH].
  - cbn [app find_rec]. destruct (Z.eqb_spec tag tag'); [congruence|reflexivity].
  - cbn [app find_rec]. rewrite IH. reflexivity.
Qed.

Lemma find_rec_app_new tag l rs :
  find_rec tag rs = None ->
  find_rec tag (rs ++ [(tag, l)]) = Some (span_of rs, l).
Proof.
  induction rs as [|[t0 l0] rs IH]; intros N.
  - cbn [app find_rec span_of]. rewrite Z.eqb_refl. reflexivity.
  - cbn [app find_rec span_of] in *. destruct (t0 =? tag); [discriminate N|].
    destruct (find_rec tag rs) as [[o l']|]; [discriminate N|].
    rewrite IH by reflexivity. reflexivity.
Qed.

Lemma holds_length_agree h h' p q bs :
  (forall k, 0 <= k < Z.of_nat (length bs) -> h' (q + k) = uchar (h (p + k))) ->
  holds h p bs -> holds h' q bs.
Proof.
  intros A. apply holds_shift. intros k Hk. rewrite A by assumption.
  apply uchar_idem.
Qed.

(** The append of [tb_add] on a collection that holds the records
    [rs]. *)
Lemma tb_add_append_layout tb h rs tlv :
  Forall rec_ok rs -> layout h (tb_buf tb) rs -> tb_len tb = span_of rs ->
  tag_sound (tlv_t tlv) = true -> 0 < tlv_l tlv < 65536 ->
  tb_len tb + encodedSpan (tlv_t tlv) (tlv_l tlv) <= tb_mlen tb < 65536 ->
  tb_len tb + tlv_l tlv + 2 < tb_mlen tb ->
  exists tb' tlv' h',
    yields (tb_add_append tb tlv) h (1, tb', tlv') h'
    /\ appended tb tlv h tb' tlv' h'
    /\ tb_len tb' = tb_len tb + encodedSpan (tlv_t tlv) (tlv_l tlv)
    /\ layout h' (tb_buf tb) (rs ++ [(tlv_t tlv, tlv_l tlv)]).
Proof.
  intros F L E St Rl Cap Test.
  destruct (tb_add_append_spec tb tlv h ltac:(lia))
    as ([[r tb'] tlv'] & h' & Y & [(_ & _ & _ & _ & C)|(-> & _ & A)]); [lia|].
  exists tb', tlv', h'. split; [exact Y|]. split; [exact A|].
  pose proof (span_of_length rs F) as Hn.
  pose proof (header_size_range (tlv_t tlv) (tlv_l tlv)) as Hs.
  destruct A as (-> & -> & Hh & Fr & C0 & C1).
  cbn [set_len tb_len]. split.
  - unfold encodedSpan in *. apply ushort_small. lia.
  - apply layout_app.
    + apply (layout_frame h); [assumption| |assumption].
      intros a Ha. rewrite Fr by lia. reflexivity.
    + rewrite <- E. split; [assumption|exact I].
Qed.

(** X11: a record added under a tag that the collection does not hold
    yet is found afterwards: [tb_add] answers 1 whatever the policy,
    the used length grows by the span of the record, and [tb_find] of
    the tag answers 1 with the view that [tb_add] left in [*tlv], of the
    length added and with the bytes of the source value; the search for
    any other tag answers as before. *)
Theorem tb_add_then_tb_find tb h rs tag l v vs ovr :
  Forall rec_ok rs -> layout h (tb_buf tb) rs -> tb_len tb = span_of rs ->
  (forall l', ~ In (tag, l') rs) ->
  tag_sound tag = true -> 0 < l < 65536 ->
  v <> NULL -> Z.of_nat (length vs) = l -> holds h v vs ->
  v + l <= tb_buf tb + tb_len tb
  \/ tb_buf tb + tb_len tb + encodedSpan tag l <= v ->
  tb_len tb + encodedSpan tag l <= tb_mlen tb < 65536 ->
  tb_len tb + l + 2 < tb_mlen tb ->
  0 <= ovr < 256 ->
  exists tb' tlv' h',
    yields (tb_add tb (mkTLV tag l v) ovr) h (1, tb', tlv') h'
    /\ tb_len tb' = tb_len tb + encodedSpan tag l
    /\ yields (tb_find tb' tag TLV_undef) h' (1, tlv') h'
    /\ tlv_l tlv' = l /\ holds h' (tlv_v tlv') vs
    /\ (forall tag' x,
          tag' <> tag -> tag' <> 0 ->
          yields (tb_find tb tag' TLV_undef) h x h ->
          yields (tb_find tb' tag' TLV_undef) h' x h').
Proof.
  intros F L E N St Rl Vn Lv Hv D Cap Test Hovr.
  destruct (tag_sound_cases _ St) as (Rt & _).
  pose proof (find_rec_none tag rs N) as Fi.
  destruct (tb_add_append_layout tb h rs (mkTLV tag l v) F L E St Rl Cap Test)
    as (tb' & tlv' & h' & Ya & A & El & L').
  cbn [tlv_t tlv_l] in *.
  pose proof (header_size_range tag l) as Hs.
  assert (F' : Forall rec_ok (rs ++ [(tag, l)])).
  { apply Forall_app. split; [assumption|]. constructor; [|constructor].
    split; [exact St|exact Rl]. }
  assert (Eb : tb_buf tb' = tb_buf tb /\ tlv' = mkTLV tag l (tb_buf tb + tb_len tb + header_size tag l)).
  { destruct A as (-> & -> & _). split; reflexivity. }
  destruct Eb as (Eb & Ev).
  assert (E' : tb_len tb' = span_of (rs ++ [(tag, l)])).
  { rewrite span_of_app. cbn [span_of]. lia. }
  exists tb', tlv', h'. split; [|split; [exact El|split; [|split; [|split]]]].
  - unfold tb_add. cbn [tlv_t tlv_l].
    destruct (Z.eqb_spec l 0); [lia|].
    rewrite (tag_sound_not_wrong _ St).
    destruct (Z.ltb_spec ovr 3); [|exact Ya].
    pose proof (tb_find_well_formed tb h rs tag F L E ltac:(lia)) as Yf.
    rewrite Fi in Yf. ybind by (exact Yf).
    change (negb (0 =? 0)) with false. cbv iota. exact Ya.
  - pose proof (tb_find_well_formed tb' h' (rs ++ [(tag, l)]) tag F'
                  ltac:(rewrite Eb; exact L') E' ltac:(lia)) as Yf.
    rewrite (find_rec_app_new tag l rs Fi) in Yf.
    rewrite Eb in Yf. rewrite Ev, E. exact Yf.
  - rewrite Ev. reflexivity.
  - rewrite Ev. cbn [tlv_v].
    destruct A as (_ & _ & _ & _ & _ & C1). cbn [tlv_t tlv_l tlv_v] in C1.
    apply (holds_length_agree h h' v); [|exact Hv].
    intros k Hk. apply C1; [assumption| |lia].
    unfold encodedSpan in *. lia.
  - intros tag' x Nt Nz Yx.
    pose proof (tb_find_well_formed tb h rs tag' F L E Nz) as Y0.
    destruct (yields_fun _ _ _ _ _ _ Yx Y0) as (-> & _).
    pose proof (tb_find_well_formed tb' h' (rs ++ [(tag, l)]) tag' F'
                  ltac:(rewrite Eb; exact L') E' Nz) as Y1.
    rewrite (find_rec_app_other tag tag' l rs Nt), Eb in Y1. exact Y1.
Qed.

(** The collection [81 02 11 22] receives tag [82] with the value byte
    [33]. *)
Lemma tb_add_then_tb_find_witness :
  exists tb' tlv' h',
    yields (tb_add demo_tb1 (mkTLV 0x82 1 2002) 0) (after demo_step1)
      (1, tb', tlv') h'
    /\ tb_len tb' = tb_len demo_tb1 + encodedSpan 0x82 1
    /\ yields (tb_find tb' 0x82 TLV_undef) h' (1, tlv') h'
    /\ tlv_l tlv' = 1 /\ holds h' (tlv_v tlv') [0x33]
    /\ (forall tag' x,
          tag' <> 0x82 -> tag' <> 0 ->
          yields (tb_find demo_tb1 tag' TLV_undef) (after demo_step1) x
            (after demo_step1) ->
          yields (tb_find tb' tag' TLV_undef) h' x h').
Proof.
  apply (tb_add_then_tb_find demo_tb1 (after demo_step1) [(0x81, 2)]
           0x82 1 2002 [0x33] 0).
  - repeat constructor; simpl; lia.
  - vm_compute; tauto.
  - reflexivity.
  - intros l' [I|[]]. inversion I.
  - reflexivity.
  - lia.
  - discriminate.
  - reflexivity.
  - vm_compute; tauto.
  - right. vm_compute. discriminate.
  - vm_compute. split; [discriminate|reflexivity].
  - vm_compute. reflexivity.
  - lia.
Defined.

(** ** The policies of [tb_add] on a tag that is present *)



(** ** Deleting a record *)

Lemma remove_rec_first tag l pre suf :
  (forall l', ~ In (tag, l') pre) ->
  remove_rec tag (pre ++ (tag, l) :: suf) = pre ++ suf.
Proof.
  induction pre as [|[t0 l0] pre IH]; intros N.
  - cbn [app remove_rec]. rewrite Z.eqb_refl. reflexivity.
  - cbn [app remove_rec]. destruct (Z.eqb_spec t0 tag) as [->|E].
    + exfalso. apply (N l0). left. reflexivity.
    + rewrite IH; [reflexivity|]. intros l' I. apply (N l'). right. exact I.
Qed.

(** [tb_del] of the first record of a tag, when its length is not 0xff
    and no more bytes follow it than it spans. *)
Lemma tb_del_first tb h pre suf tag l0 :
  let rs := pre ++ (tag, l0) :: suf in
  Forall rec_ok rs -> layout h (tb_buf tb) rs -> tb_len tb = span_of rs ->
  span_of rs < 65536 ->
  (forall l', ~ In (tag, l') pre) -> l0 <> 0xff ->
  span_of suf <= encodedSpan tag l0 ->
  exists h1,
    yields (tb_del tb tag) h
      (1, set_len tb (tb_len tb - encodedSpan tag l0)) h1
    /\ layout h1 (tb_buf tb) (pre ++ suf)
    /\ (forall a, a < tb_buf tb + span_of pre
                  \/ tb_buf tb + tb_len tb <= a -> h1 a = h a)
    /\ (forall k, 0 <= k < span_of suf ->
          h1 (tb_buf tb + span_of pre + k)
          = uchar (h (tb_buf tb + span_of pre + encodedSpan tag l0 + k))).
Proof.
  intros rs0 F L E B N Nff T. subst rs0.
  pose proof (find_rec_first tag l0 pre suf N) as Fi.
  set (rs := pre ++ (tag, l0) :: suf) in *.
  destruct (find_rec_inv tag rs _ l0 F Fi) as (Ok & Hoff & Hend & _).
  destruct Ok as (St & Rl). cbn [fst snd] in St, Rl.
  destruct (tag_sound_cases tag St) as (Rt & _).
  pose proof (header_size_range tag l0) as Hs.
  assert (Hsp : 3 <= encodedSpan tag l0) by (unfold encodedSpan; lia).
  assert (Esp : span_of rs = span_of pre + encodedSpan tag l0 + span_of suf).
  { unfold rs. rewrite span_of_app. cbn [span_of]. lia. }
  pose proof (tb_find_well_formed tb h rs tag F L E ltac:(lia)) as Yf.
  rewrite Fi in Yf.
  assert (W : whole_record
                (mkTLV tag l0 (tb_buf tb + span_of pre + header_size tag l0))
              = mkTLV tag (encodedSpan tag l0) (tb_buf tb + span_of pre)).
  { rewrite whole_record_exact by lia. f_equal. lia. }
  assert (A : apart (tb_buf tb + span_of pre)
                (tb_buf tb + span_of pre + encodedSpan tag l0)
                (Z.to_nat (tb_buf tb + tb_len tb
                           - (tb_buf tb + span_of pre + encodedSpan tag l0)))
              = true).
  { rewrite apart_tail by lia. rewrite Z2Nat.id by lia.
    apply Z.leb_le. lia. }
  destruct (memcpy_apart _ _ _ h A) as (h1 & Ym & Fm & Cm).
  rewrite Z2Nat.id in Fm, Cm by lia.
  exists h1. split; [|split; [|split]].
  - unfold tb_del. ybind by (exact Yf). change (1 =? 0) with false.
    cbv iota zeta. rewrite W. cbn [tlv_t tlv_l tlv_v]. rewrite A.
    ybind by (exact Ym).
    rewrite ushort_small by (unfold encodedSpan in *; lia).
    apply yields_ret.
  - rewrite <- (remove_rec_first tag l0 pre suf N). fold rs.
    apply (layout_remove h h1 tag rs (tb_buf tb) (span_of pre) l0);
      try assumption.
    + intros a Ha. apply Fm. lia.
    + intros k Hk. apply Cm. lia.
  - intros a Ha. apply Fm. lia.
  - intros k Hk. apply Cm. lia.
Qed.

(** X13: [tb_del] of a tag that no record carries, or of tag 0,
    answers 0 and changes nothing.  Otherwise take the first record of
    the tag, of a length other than 0xff.  When no more bytes follow it
    than it spans, [tb_del] answers 1 and removes exactly that record:
    the used length shrinks by its span, the records before it stay, the
    bytes of the records after it move down by its span, and memory
    outside the used part of the buffer is untouched.  When more bytes
    follow it, the ranges handed to [memcpy] overlap, which C leaves
    undefined: [tb_del] has no value. *)
Theorem tb_del_removes_first_record tb h rs tag :
  Forall rec_ok rs -> layout h (tb_buf tb) rs -> tb_len tb = span_of rs ->
  span_of rs < 65536 ->
  (tag = 0 \/ (forall l, ~ In (tag, l) rs) ->
   yields (tb_del tb tag) h (0, tb) h)
  /\ (forall pre l0 suf,
        rs = pre ++ (tag, l0) :: suf -> (forall l', ~ In (tag, l') pre) ->
        l0 <> 0xff ->
        (span_of suf <= encodedSpan tag l0 ->
         exists h1,
           yields (tb_del tb tag) h
             (1, set_len tb (tb_len tb - encodedSpan tag l0)) h1
           /\ layout h1 (tb_buf tb) (pre ++ suf)
           /\ (forall a, a < tb_buf tb + span_of pre
                         \/ tb_buf tb + tb_len tb <= a -> h1 a = h a)
           /\ (forall k, 0 <= k < span_of suf ->
                 h1 (tb_buf tb + span_of pre + k)
                 = uchar (h (tb_buf tb + span_of pre
                             + encodedSpan tag l0 + k))))
        /\ (encodedSpan tag l0 < span_of suf -> tb_del tb tag h = None)).
Proof.
  intros F L E B. split.
  - intros A. unfold tb_del.
    assert (Yf : exists t, yields (tb_find tb tag TLV_undef) h (0, t) h).
    { destruct (Z.eq_dec tag 0) as [->|Nz].
      - exists TLV_undef. apply yields_ret.
      - destruct A as [A|A]; [contradiction|].
        pose proof (tb_find_well_formed tb h rs tag F L E Nz) as Y.
        rewrite (find_rec_none tag rs A) in Y. eexists. exact Y. }
    destruct Yf as (t & Yf). ybind by (exact Yf).
    change (0 =? 0) with true. cbv iota. apply yields_ret.
  - intros pre l0 suf -> N Nff. split.
    + intros T. apply (tb_del_first tb h pre suf tag l0); assumption.
    + intros T.
      apply (tb_del_overlap tb h (pre ++ (tag, l0) :: suf) tag
               (span_of pre) l0 F L E B (find_rec_first tag l0 pre suf N) Nff).
      rewrite span_of_app. cbn [span_of]. lia.
Qed.

(** From [81 02 11 22] [82 01 33], the record of tag [81] is deleted;
    from [81 01 aa] [82 01 33] [83 01 44], where six bytes would have
    to move down by three, the call has no value. *)
Lemma tb_del_removes_first_record_witness :
  (exists h1,
     yields (tb_del demo_tb2 0x81) (after demo_step2)
       (1, set_len demo_tb2 (tb_len demo_tb2 - encodedSpan 0x81 2)) h1
     /\ layout h1 (tb_buf demo_tb2) ([] ++ [(0x82, 1)])
     /\ (forall a, a < tb_buf demo_tb2 + span_of []
                   \/ tb_buf demo_tb2 + tb_len demo_tb2 <= a ->
                   h1 a = after demo_step2 a)
     /\ (forall k, 0 <= k < span_of [(0x82, 1)] ->
           h1 (tb_buf demo_tb2 + span_of [] + k)
           = uchar (after demo_step2
                      (tb_buf demo_tb2 + span_of [] + encodedSpan 0x81 2 + k))))
  /\ tb_del crowded_tb 0x81 crowded_heap = None.
Proof.
  split.
  - apply (proj2 (tb_del_removes_first_record demo_tb2 (after demo_step2)
                    [(0x81, 2); (0x82, 1)] 0x81
                    ltac:(repeat constructor; simpl; lia)
                    ltac:(vm_compute; tauto)
                    ltac:(reflexivity) ltac:(vm_compute; reflexivity))
            [] 2 [(0x82, 1)]).
    + reflexivity.
    + intros l' [].
    + discriminate.
    + vm_compute. discriminate.
  - apply (proj2 (tb_del_removes_first_record crowded_tb crowded_heap
                    [(0x81, 1); (0x82, 1); (0x83, 1)] 0x81
                    ltac:(repeat constructor; simpl; lia)
                    ltac:(vm_compute; tauto)
                    ltac:(reflexivity) ltac:(vm_compute; reflexivity))
            [] 1 [(0x82, 1); (0x83, 1)]).
    + reflexivity.
    + intros l' [].
    + discriminate.
    + vm_compute. reflexivity.
Defined.

(** ** The memory written by [tb_add] *)

(** Under a policy other than 1, [tb_add] keeps the buffer and the
    capacity of the collection and writes from the end of the used part
    on, at most two bytes past the capacity. *)
Lemma tb_add_frame tb tlv ovr h :
  0 <= ovr < 256 -> ovr <> 1 -> 0 <= tlv_l tlv < 65536 -> 0 <= tb_len tb ->
  post (tb_add tb tlv ovr) h (fun '(r, tb', tlv') h' =>
    tb_buf tb' = tb_buf tb /\ tb_mlen tb' = tb_mlen tb
    /\ (forall a, ~ (tb_buf tb + tb_len tb <= a
                     < tb_buf tb + tb_mlen tb + 2) -> h' a = h a)).
Proof.
  intros Hovr N1 Rl Hlen.
  assert (App : post (tb_add_append tb tlv) h (fun '(r, tb', tlv') h' =>
                  tb_buf tb' = tb_buf tb /\ tb_mlen tb' = tb_mlen tb
                  /\ (forall a, ~ (tb_buf tb + tb_len tb <= a
                                   < tb_buf tb + tb_mlen tb + 2) ->
                      h' a = h a))).
  { eapply post_weaken; [apply tb_add_append_spec; lia|].
    intros [[r tb'] tlv'] h' [(_ & -> & _ & -> & _)|(_ & T & A)]; [auto|].
    destruct A as (-> & _ & _ & Fr & _).
    pose proof (header_size_range (tlv_t tlv) (tlv_l tlv)) as Hs.
    cbn [set_len tb_buf tb_mlen]. repeat split.
    intros a Ha. apply Fr. unfold encodedSpan. lia. }
  unfold tb_add.
  destruct (tlv_l tlv =? 0); [apply post_ret; auto|].
  destruct (tag_wrong (tlv_t tlv)); [apply post_ret; auto|].
  destruct (Z.ltb_spec ovr 3); [|exact App].
  apply post_bind.
  destruct (tlv_find_spec (tb_buf tb) (tb_len tb) (tlv_t tlv) TLV_undef h)
    as (r & t & Y & _).
  apply (post_yields _ _ _ _ _ Y).
  destruct (negb (r =? 0)); [|exact App].
  destruct (Z.eqb_spec ovr 0); [apply post_ret; auto|].
  destruct (Z.eqb_spec ovr 2); [apply post_ret; auto|]. lia.
Qed.



(** ** Importing a stream *)

Lemma holds_agree h h' p q bs :
  holds h p bs -> holds h' q bs ->
  agree h h' p q (Z.of_nat (length bs)).
Proof.
  revert p q. induction bs as [|x bs IH]; intros p q H H' k Hk.
  - simpl in Hk. lia.
  - destruct H as (H0 & H), H' as (H0' & H').
    destruct (Z.eq_dec k 0) as [->|Nk].
    + replace (q + 0) with q by lia. replace (p + 0) with p by lia. congruence.
    + replace (q + k) with (q + 1 + (k - 1)) by lia.
      replace (p + k) with (p + 1 + (k - 1)) by lia.
      apply IH; try assumption. cbn [length] in Hk. lia.
Qed.

(** Policy 3 appends every record of a well-formed stream; the bytes
    appended are those of the stream. *)
Lemma tb_addbuf_loop_copies : forall rs fuel tb h b t0,
  Forall rec_ok rs -> layout h b rs -> 0 < b ->
  0 <= tb_len tb -> tb_len tb + span_of rs < tb_mlen tb < 65536 ->
  b + span_of rs <= tb_buf tb + tb_len tb
  \/ tb_buf tb + tb_len tb + span_of rs <= b ->
  (length rs <= fuel)%nat ->
  exists h',
    yields (tb_addbuf_loop fuel tb b (span_of rs) 3 t0) h
      (0, set_len tb (tb_len tb + span_of rs)) h'
    /\ agree h h' b (tb_buf tb + tb_len tb) (span_of rs)
    /\ (forall a, ~ (tb_buf tb + tb_len tb <= a
                     < tb_buf tb + tb_len tb + span_of rs) -> h' a = h a).
Proof.
  induction rs as [|[t l] rs IH]; intros fuel tb h b t0 F L Hb Hlen Cap D Hf.
  - exists h. cbn [span_of]. split; [|split].
    + rewrite tb_addbuf_loop_eq.
      ybind by (apply tlv_parseTLV_empty). change (0 >? 0) with false.
      cbv iota. change (0 <? 0) with false. cbv iota.
      replace (set_len tb (tb_len tb + 0)) with tb; [apply yields_ret|].
      destruct tb. unfold set_len. cbn. f_equal. lia.
    + intros k Hk. lia.
    + reflexivity.
  - inversion F as [|x xs Ok F']; subst x xs.
    destruct L as (Hh & L'). cbn [span_of] in *.
    destruct Ok as (St & Rl). cbn [fst snd] in St, Rl.
    pose proof (header_size_range t l) as Hs.
    pose proof (span_of_length rs F') as Hn.
    assert (Hsp : encodedSpan t l = header_size t l + l) by reflexivity.
    destruct fuel as [|fuel]; [simpl in Hf; lia|].
    pose proof (tlv_parseTLV_canonical t l h b (encodedSpan t l + span_of rs) t0
                  St ltac:(lia) Hh ltac:(lia)) as Yp.
    set (tb1 := set_len tb (tb_len tb + encodedSpan t l)).
    destruct (tb_add_append_spec tb (mkTLV t l (b + header_size t l)) h
                ltac:(cbn; lia))
      as ([[r tb'] tlv'] & h1 & Ya & [(_ & _ & _ & _ & C)|(-> & _ & A)]);
      [cbn [tlv_l] in C; lia|].
    destruct A as (-> & -> & Hh1 & Fr & _ & C1). cbn [tlv_t tlv_l tlv_v] in *.
    rewrite ushort_small in Ya by lia. fold tb1 in Ya.
    destruct (IH fuel tb1 h1 (b + encodedSpan t l)
                (mkTLV t l (tb_buf tb + tb_len tb + header_size t l)))
      as (h' & Yr & Ag & Fr');
      try assumption.
    { apply (layout_frame h); [assumption| |assumption].
      intros a Ha. rewrite Fr by lia. reflexivity. }
    { lia. }
    { unfold tb1. cbn. lia. }
    { unfold tb1. cbn. lia. }
    { unfold tb1. cbn. lia. }
    { simpl in Hf. lia. }
    unfold tb1 in Yr, Ag, Fr'. cbn [set_len tb_len tb_buf tb_mlen] in Yr, Ag, Fr'.
    fold (set_len tb (tb_len tb + encodedSpan t l)) in Yr.
    fold (set_len tb (tb_len tb + encodedSpan t l + span_of rs)) in Yr.
    exists h'. split; [|split].
    + rewrite tb_addbuf_loop_eq.
      ybind by (exact Yp). change (1 >? 0) with true. cbv iota zeta.
      cbn [set_v tlv_t tlv_l tlv_v].
      replace (b + header_size t l + l - l) with (b + header_size t l) by lia.
      assert (Yadd : yields (tb_add tb (mkTLV t l (b + header_size t l)) 3) h
                       (1, tb1, mkTLV t l (tb_buf tb + tb_len tb + header_size t l))
                       h1).
      { unfold tb_add. cbn [tlv_t tlv_l].
        destruct (Z.eqb_spec l 0); [lia|].
        rewrite (tag_sound_not_wrong _ St). change (3 <? 3) with false.
        cbv iota. exact Ya. }
      ybind by (exact Yadd). change (1 <? 0) with false. cbv iota.
      replace (b + header_size t l + l) with (b + encodedSpan t l) by lia.
      replace (encodedSpan t l + span_of rs - (b + encodedSpan t l - b))
        with (span_of rs) by lia.
      replace (set_len tb (tb_len tb + (encodedSpan t l + span_of rs)))
        with (set_len tb (tb_len tb + encodedSpan t l + span_of rs))
        by (f_equal; lia).
      unfold tb1. exact Yr.
    + intros k Hk.
      destruct (Z.ltb_spec k (encodedSpan t l)) as [K|K].
      * rewrite Fr' by lia.
        destruct (Z.ltb_spec k (header_size t l)) as [Kh|Kh].
        -- apply (holds_agree h h1 b (tb_buf tb + tb_len tb) _ Hh Hh1).
           unfold header_size in Kh. lia.
        -- replace (tb_buf tb + tb_len tb + k)
             with (tb_buf tb + tb_len tb + header_size t l
                   + (k - header_size t l)) by lia.
           rewrite C1; try lia.
           ++ rewrite uchar_idem. f_equal. f_equal. lia.
           ++ unfold NULL. lia.
      * replace (tb_buf tb + tb_len tb + k)
          with (tb_buf tb + (tb_len tb + encodedSpan t l)
                + (k - encodedSpan t l)) by lia.
        rewrite Ag by lia. rewrite Fr by lia. f_equal. f_equal. lia.
    + intros a Ha. rewrite Fr' by lia. apply Fr. lia.
Qed.

(** X15: under policy 3, [tb_addbuf] of a stream of well-formed
    records, into a collection with more free room than the stream is
    long, answers 0, lengthens the used part by the length of the
    stream and fills it with a copy of the stream, byte for byte;
    nothing else is written. *)
Theorem tb_addbuf_copies_stream tb h b rs :
  Forall rec_ok rs -> layout h b rs -> 0 < b ->
  0 <= tb_len tb -> tb_len tb + span_of rs < tb_mlen tb < 65536 ->
  b + span_of rs <= tb_buf tb + tb_len tb
  \/ tb_buf tb + tb_len tb + span_of rs <= b ->
  exists h',
    yields (tb_addbuf tb b (span_of rs) 3) h
      (0, set_len tb (tb_len tb + span_of rs)) h'
    /\ agree h h' b (tb_buf tb + tb_len tb) (span_of rs)
    /\ layout h' (tb_buf tb + tb_len tb) rs
    /\ (forall a, ~ (tb_buf tb + tb_len tb <= a
                     < tb_buf tb + tb_len tb + span_of rs) -> h' a = h a).
Proof.
  intros F L Hb Hlen Cap D.
  pose proof (span_of_length rs F) as Hn.
  destruct (tb_addbuf_loop_copies rs (Z.to_nat (span_of rs)) tb h b TLV_undef
              F L Hb Hlen Cap D ltac:(lia)) as (h' & Y & Ag & Fr).
  exists h'. split; [exact Y|]. split; [exact Ag|]. split; [|exact Fr].
  apply (layout_shift h h' rs b); assumption.
Qed.

(** The stream [81 02 11 22] [82 01 33] imported into an empty
    collection. *)
Lemma tb_addbuf_copies_stream_witness :
  exists h',
    yields (tb_addbuf (tb_init 1000 64) 2000
              (span_of [(0x81, 2); (0x82, 1)]) 3)
      (heap_of 2000 [0x81; 0x02; 0x11; 0x22; 0x82; 0x01; 0x33])
      (0, set_len (tb_init 1000 64) (0 + span_of [(0x81, 2); (0x82, 1)])) h'
    /\ agree (heap_of 2000 [0x81; 0x02; 0x11; 0x22; 0x82; 0x01; 0x33]) h'
         2000 (1000 + 0) (span_of [(0x81, 2); (0x82, 1)])
    /\ layout h' (1000 + 0) [(0x81, 2); (0x82, 1)]
    /\ (forall a, ~ (1000 + 0 <= a
                     < 1000 + 0 + span_of [(0x81, 2); (0x82, 1)]) ->
        h' a = heap_of 2000 [0x81; 0x02; 0x11; 0x22; 0x82; 0x01; 0x33] a).
Proof.
  apply (tb_addbuf_copies_stream (tb_init 1000 64)
           (heap_of 2000 [0x81; 0x02; 0x11; 0x22; 0x82; 0x01; 0x33])
           2000 [(0x81, 2); (0x82, 1)]).
  - repeat constructor; simpl; lia.
  - vm_compute; tauto.
  - lia.
  - simpl; lia.
  - vm_compute. split; [reflexivity|reflexivity].
  - right. vm_compute. discriminate.
Defined.

(** ** Copying the tags of a list *)

Lemma tb_addtags_loop_eq fuel dst src buf len i tlv :
  tb_addtags_loop fuel dst src buf len i tlv =
  if i <? len then
    '(r, tg) <- tlv_tag (buf + i) (len - i) (tlv_t tlv);;
    let tlv := set_t tlv tg in
    if r <? 0 then ret dst else
    '(f, tlv) <- tb_find src (tlv_t tlv) tlv;;
    '(dst, tlv) <- (if negb (f =? 0)
                    then '(_, dst, tlv) <- tb_add dst tlv 2;; ret (dst, tlv)
                    else ret (dst, tlv));;
    match fuel with
    | O => out_of_fuel
    | S k => tb_addtags_loop k dst src buf len (i + r) tlv
    end
  else ret dst.
Proof. destruct fuel; reflexivity. Qed.

(** The step that [tb_addtags] makes between the tag decode and the
    next round: the lookup in [src] and the conditional add to [dst]. *)
Lemma tb_addtags_step dst src tlv h :
  0 <= tb_len dst ->
  exists f t1 dst' t2 h',
    yields (tb_find src (tlv_t tlv) tlv) h (f, t1) h
    /\ yields (if negb (f =? 0)
               then '(_, dst, tlv) <- tb_add dst t1 2;; ret (dst, tlv)
               else ret (dst, t1)) h (dst', t2) h'
    /\ tb_buf dst' = tb_buf dst /\ tb_mlen dst' = tb_mlen dst
    /\ 0 <= tb_len dst'
    /\ (forall a, ~ (tb_buf dst <= a < tb_buf dst + tb_mlen dst + 2) ->
        h' a = h a).
Proof.
  intros Hlen.
  destruct (tlv_find_spec (tb_buf src) (tb_len src) (tlv_t tlv) tlv h)
    as (f & t1 & Yf & Cf & Bf).
  exists f, t1.
  destruct Cf as [->| ->].
  - exists dst, t1, h. repeat split; auto. apply yields_ret.
  - destruct (Bf eq_refl) as (_ & _ & _ & Rl).
    destruct (tb_add_frame dst t1 2 h ltac:(lia) ltac:(lia) Rl Hlen)
      as ([[r dst'] t2] & h' & Ya & Eb & Em & Fr).
    assert (Hl' : 0 <= tb_len dst').
    { unfold tb_add in Ya.
      destruct (tlv_l t1 =? 0);
        [apply yields_ret_inv in Ya; destruct Ya as (E & _);
         inversion E; subst; assumption|].
      destruct (tag_wrong (tlv_t t1));
        [apply yields_ret_inv in Ya; destruct Ya as (E & _);
         inversion E; subst; assumption|].
      change (2 <? 3) with true in Ya. cbv iota in Ya.
      apply yields_bind_inv in Ya. destruct Ya as ([rf tf] & hf & Yf' & Ya).
      destruct (tlv_find_spec (tb_buf dst) (tb_len dst) (tlv_t t1) TLV_undef h)
        as (rf0 & tf0 & Yf0 & _).
      destruct (yields_fun _ _ _ _ _ _ Yf' Yf0) as (_ & ->).
      assert (App : forall x hx,
                 yields (tb_add_append dst t1) h x hx ->
                 0 <= tb_len (snd (fst x))).
      { intros [[rx tbx] tx] hx Yx.
        destruct (tb_add_append_spec dst t1 h ltac:(lia))
          as ([[ry tby] ty] & hy & Yy & Cy).
        destruct (yields_fun _ _ _ _ _ _ Yx Yy) as (E & _).
        inversion E; subst. cbn [fst snd].
        destruct Cy as [(_ & -> & _)|(_ & _ & A)]; [assumption|].
        destruct A as (-> & _). cbn [set_len tb_len].
        apply ushort_range. }
      destruct (negb (rf =? 0)).
      - change (2 =? 0) with false in Ya. change (2 =? 2) with true in Ya.
        cbv iota in Ya. apply yields_ret_inv in Ya. destruct Ya as (E & _).
        inversion E; subst; assumption.
      - apply (App _ _ Ya). }
    exists dst', t2, h'. split; [exact Yf|]. split; [|auto].
    change (negb (1 =? 0)) with true. cbv iota.
    ybind by (exact Ya). apply yields_ret.
    split; [exact Eb|]. split; [exact Em|]. split; [exact Hl'|].
    intros a Ha. apply Fr. lia.
Qed.

(** A run of zero bytes that reaches the end of the list is never left:
    [tlv_tag] answers 0 on it, the index does not advance, and no fuel
    is enough. *)
Lemma tb_addtags_loop_stuck src buf len i :
  forall fuel dst tlv h,
  0 <= i < len ->
  (forall k, i <= k < len -> uchar (h (buf + k)) = 0) ->
  0 <= tb_len dst ->
  buf + len <= tb_buf dst \/ tb_buf dst + tb_mlen dst + 2 <= buf ->
  tb_addtags_loop fuel dst src buf len i tlv h = None.
Proof.
  induction fuel as [|fuel IH]; intros dst tlv h Hi Zs Hlen D;
    rewrite tb_addtags_loop_eq;
    (destruct (Z.ltb_spec i len); [|lia]);
    destruct (tlv_parseTLV_zeros h (buf + i) (len - i) tlv ltac:(lia))
      as (t0 & Yz);
    try (intros k Hk; replace (buf + i + k) with (buf + (i + k)) by lia;
         apply Zs; lia);
    apply tlv_parseTLV_zero_inv in Yz; destruct Yz as (tg & Yt);
    (eapply bind_none; [exact Yt|]); cbv beta iota zeta;
    change (0 <? 0) with false; cbv iota;
    destruct (tb_addtags_step dst src (set_t tlv tg) h Hlen)
      as (f & t1 & dst' & t2 & h' & Yf & Ya & Eb & Em & Hl' & Fr);
    (eapply bind_none; [exact Yf|]); cbv beta iota;
    (eapply bind_none; [exact Ya|]); cbv beta iota.
  - reflexivity.
  - replace (i + 0) with i by lia. apply IH; try assumption.
    + intros k Hk. rewrite Fr by lia. apply Zs. exact Hk.
    + rewrite Eb, Em. exact D.
Qed.

(** X16: [tb_addtags] does not return when its tag list is a run of
    zero bytes, or once its index stands before a run of zero bytes
    that reaches the end of the list: [tlv_tag] answers 0 there, the
    index is advanced by 0, and the loop repeats for ever.  (The list
    lies apart from the buffer of [dst], so that the adds do not
    change it.) *)
Theorem tb_addtags_never_returns_on_filler fuel dst src buf len i tlv h :
  0 <= i < len ->
  (forall k, i <= k < len -> uchar (h (buf + k)) = 0) ->
  0 <= tb_len dst ->
  buf + len <= tb_buf dst \/ tb_buf dst + tb_mlen dst + 2 <= buf ->
  tb_addtags_loop fuel dst src buf len i tlv h = None
  /\ (i = 0 -> tb_addtags fuel dst src buf len h = None).
Proof.
  intros Hi Zs Hlen D. split.
  - apply tb_addtags_loop_stuck; assumption.
  - intros ->. unfold tb_addtags. apply tb_addtags_loop_stuck; assumption.
Qed.

(** A list of one zero byte. *)
Lemma tb_addtags_never_returns_on_filler_witness :
  tb_addtags 1000 (tb_init 1000 64) (tb_init 2000 64) 3000 1 (heap_of 0 [])
  = None.
Proof.
  apply (proj2 (tb_addtags_never_returns_on_filler 1000 (tb_init 1000 64)
                  (tb_init 2000 64) 3000 1 0 TLV_undef (heap_of 0 [])
                  ltac:(lia)
                  ltac:(intros k Hk; assert (k = 0) as -> by lia; reflexivity)
                  ltac:(simpl; lia) ltac:(right; simpl; lia))
          eq_refl).
Defined.




(** ** The search over ASCII headers *)

Lemma ltv_find_loop_eq skip fuel b l tag t :
  ltv_find_loop skip fuel b l tag t =
  ('(i, t) <- tlv_parseLTV skip b l t;;
   if i >? 0 then
     if tlv_t t =? tag then ret (1, t)
     else
       match fuel with
       | O => out_of_fuel
       | S k => ltv_find_loop skip k (tlv_v t + tlv_l t)
                  (l - (tlv_v t + tlv_l t - b)) tag
                  (set_v t (tlv_v t + tlv_l t))
       end
   else ret (0, mkTLV tag 0 NULL)).
Proof. destruct fuel; reflexivity. Qed.

(** [tlv_parseLTV] on a header that starts with the four digits of
    [n]: the tag is the number made of the first two digits. *)
Lemma tlv_parseLTV_digits4 skip h p n rlen t :
  ltv_number n -> holds h p (digits4 n) -> n + 4 <= rlen ->
  yields (tlv_parseLTV skip p rlen t) h
    (1, mkTLV (n / 100) (n - 2) (p + 6)) h.
Proof.
  intros R H Hr. unfold ltv_number in R.
  cbn [holds digits4] in H. destruct H as (H0 & H1 & H2 & H3 & _).
  replace (p + 1 + 1) with (p + 2) in H2, H3 by lia.
  replace (p + 2 + 1) with (p + 3) in H3 by lia.
  assert (B0 : 0 <= n / 1000 mod 10 < 10) by (apply Z.mod_pos_bound; lia).
  assert (B1 : 0 <= n / 100 mod 10 < 10) by (apply Z.mod_pos_bound; lia).
  assert (B2 : 0 <= n / 10 mod 10 < 10) by (apply Z.mod_pos_bound; lia).
  assert (B3 : 0 <= n mod 10 < 10) by (apply Z.mod_pos_bound; lia).
  assert (D : forall k, 0 <= k < 4 -> isdigit (uchar (h (p + k))) = true).
  { intros k Hk.
    assert (k = 0 \/ k = 1 \/ k = 2 \/ k = 3) as [->|[->|[->| ->]]] by lia;
      [replace (p + 0) with p by lia; rewrite H0
      |rewrite H1|rewrite H2|rewrite H3];
      unfold isdigit; lia. }
  assert (E0 : digit h p 0 = n / 1000 mod 10)
    by (unfold digit; replace (p + 0) with p by lia; lia).
  assert (E1 : digit h p 1 = n / 100 mod 10) by (unfold digit; lia).
  assert (E2 : digit h p 2 = n / 10 mod 10) by (unfold digit; lia).
  assert (E3 : digit h p 3 = n mod 10) by (unfold digit; lia).
  assert (En : 1000 * (n / 1000 mod 10) + 100 * (n / 100 mod 10)
               + 10 * (n / 10 mod 10) + n mod 10 = n)
    by (Z.div_mod_to_equations; lia).
  assert (Et : 10 * (n / 1000 mod 10) + n / 100 mod 10 = n / 100)
    by (Z.div_mod_to_equations; lia).
  assert (Rt : 0 <= n / 100 < 100) by (Z.div_mod_to_equations; lia).
  destruct (sscanf_u_digits skip 4 p 0 h) as (a4 & Y4 & _ & A4);
    [lia|intros k Hk; apply D; lia|].
  specialize (A4 eq_refl). rewrite E0, E1, E2, E3, En in A4. subst a4.
  destruct (sscanf_u_digits skip 2 p (n mod 2 ^ 32) h)
    as (a2 & Y2 & A2 & _); [lia|intros k Hk; apply D; lia|].
  specialize (A2 eq_refl). rewrite E0, E1, Et in A2. subst a2.
  rewrite (Z.mod_small n) in * by lia.
  rewrite (Z.mod_small (n / 100)) in Y2 by lia.
  unfold tlv_parseLTV. destruct (Z.ltb_spec rlen 6); [lia|].
  ybind by (exact Y4). change (negb (1 =? 1)) with false. cbv iota.
  rewrite (ushort_small n) by lia.
  ybind by (exact Y2). change (negb (1 =? 1)) with false. cbv iota.
  rewrite (ushort_small (n / 100)) by lia.
  cbn [tlv_l set_t set_l set_v tlv_t tlv_v].
  destruct (Z.ltb_spec n 2); [lia|].
  rewrite (ushort_small (n - 2)) by lia.
  destruct (Z.gtb_spec (n - 2) (rlen - (p + 6 - p))); [lia|].
  apply yields_ret.
Qed.

Lemma ltv_span_length ns :
  Forall ltv_number ns -> Z.of_nat (length ns) <= ltv_span ns.
Proof.
  induction 1 as [|n ns R F IH]; [simpl; lia|].
  unfold ltv_number in R. cbn [length ltv_span]. lia.
Qed.

Lemma ltv_span_app ns ms : ltv_span (ns ++ ms) = ltv_span ns + ltv_span ms.
Proof. induction ns as [|n ns IH]; cbn [app ltv_span]; lia. Qed.

Lemma ltv_find_loop_absent skip tag h : forall ns fuel p t0,
  Forall ltv_number ns -> ltv_layout h p ns -> (length ns <= fuel)%nat ->
  (forall n, In n ns -> n / 100 <> tag) ->
  yields (ltv_find_loop skip fuel p (ltv_span ns) tag t0) h
    (0, mkTLV tag 0 NULL) h.
Proof.
  induction ns as [|n ns IH]; intros fuel p t0 F L Hf N;
    rewrite ltv_find_loop_eq.
  - cbn [ltv_span]. unfold tlv_parseLTV. change (0 <? 6) with true. cbv iota.
    ybind by (apply yields_ret). change (-1 >? 0) with false. cbv iota.
    apply yields_ret.
  - inversion F as [|x xs R F']; subst x xs. destruct L as (H & L').
    pose proof (ltv_span_length ns F') as Hn. cbn [ltv_span].
    ybind by (apply (tlv_parseLTV_digits4 skip h p n); [exact R|exact H|lia]).
    change (1 >? 0) with true. cbv iota. cbn [tlv_t tlv_l tlv_v set_v].
    destruct (Z.eqb_spec (n / 100) tag) as [E|E].
    { exfalso. apply (N n); [left; reflexivity|exact E]. }
    destruct fuel as [|fuel]; [simpl in Hf; lia|].
    replace (p + 6 + (n - 2)) with (p + (n + 4)) by lia.
    replace (n + 4 + ltv_span ns - (p + (n + 4) - p)) with (ltv_span ns) by lia.
    apply IH; try assumption.
    + simpl in Hf. lia.
    + intros m I. apply N. right. exact I.
Qed.

Lemma ltv_find_loop_first skip tag h n suf : forall pre fuel p t0,
  Forall ltv_number (pre ++ n :: suf) -> ltv_layout h p (pre ++ n :: suf) ->
  (length pre <= fuel)%nat ->
  (forall m, In m pre -> m / 100 <> tag) -> n / 100 = tag ->
  yields (ltv_find_loop skip fuel p (ltv_span (pre ++ n :: suf)) tag t0) h
    (1, mkTLV tag (n - 2) (p + ltv_span pre + 6)) h.
Proof.
  induction pre as [|m pre IH]; intros fuel p t0 F L Hf N E;
    rewrite ltv_find_loop_eq; cbn [app] in *;
    inversion F as [|x xs R F']; subst x xs; destruct L as (H & L');
    pose proof (ltv_span_length _ F') as Hn; cbn [ltv_span].
  - ybind by (apply (tlv_parseLTV_digits4 skip h p n); [exact R|exact H|lia]).
    change (1 >? 0) with true. cbv iota. cbn [tlv_t].
    rewrite (proj2 (Z.eqb_eq _ _) E). rewrite E.
    replace (p + 0 + 6) with (p + 6) by lia. apply yields_ret.
  - ybind by (apply (tlv_parseLTV_digits4 skip h p m); [exact R|exact H|lia]).
    change (1 >? 0) with true. cbv iota. cbn [tlv_t tlv_l tlv_v set_v].
    destruct (Z.eqb_spec (m / 100) tag) as [Em|Em].
    { exfalso. apply (N m); [left; reflexivity|exact Em]. }
    destruct fuel as [|fuel]; [simpl in Hf; lia|].
    replace (p + 6 + (m - 2)) with (p + (m + 4)) by lia.
    replace (m + 4 + ltv_span (pre ++ n :: suf) - (p + (m + 4) - p))
      with (ltv_span (pre ++ n :: suf)) by lia.
    replace (p + (m + 4 + ltv_span pre) + 6)
      with (p + (m + 4) + ltv_span pre + 6) by lia.
    apply IH; try assumption.
    + simpl in Hf. lia.
    + intros k I. apply N. right. exact I.
Qed.

(** X18: over a stream of records with ASCII headers, [ltv_find]
    takes as the tag of a record the number made of the first two of
    its four length digits.  It answers 0, with the view cleared but
    for the tag, when no record has the requested tag in that sense,
    and otherwise 1 with the first such record: length [n - 2], value
    at offset 6 of the record. *)
Theorem ltv_find_first_match skip h b ns tag :
  Forall ltv_number ns -> ltv_layout h b ns ->
  ((forall n, In n ns -> n / 100 <> tag) ->
   yields (ltv_find skip b (ltv_span ns) tag) h (0, mkTLV tag 0 NULL) h)
  /\ (forall pre n suf,
        ns = pre ++ n :: suf -> (forall m, In m pre -> m / 100 <> tag) ->
        n / 100 = tag ->
        yields (ltv_find skip b (ltv_span ns) tag) h
          (1, mkTLV tag (n - 2) (b + ltv_span pre + 6)) h).
Proof.
  intros F L. pose proof (ltv_span_length ns F) as Hn. split.
  - intros N. apply ltv_find_loop_absent; try assumption. lia.
  - intros pre n suf -> N E. apply ltv_find_loop_first; try assumption.
    rewrite length_app in Hn. lia.
Qed.

(** Two records, numbered 0012 and 0103: the second has tag 1. *)
Lemma ltv_find_first_match_witness :
  yields (ltv_find 0 100 (ltv_span [12; 103]) 1)
    (heap_of 100 (ltv_sample ++ [0x30; 0x31; 0x30; 0x33]))
    (1, mkTLV 1 (103 - 2) (100 + ltv_span [12] + 6))
    (heap_of 100 (ltv_sample ++ [0x30; 0x31; 0x30; 0x33])).
Proof.
  apply (proj2 (ltv_find_first_match 0
                  (heap_of 100 (ltv_sample ++ [0x30; 0x31; 0x30; 0x33]))
                  100 [12; 103] 1
                  ltac:(repeat constructor; unfold ltv_number; lia)
                  ltac:(vm_compute; tauto))
          [12] 103 []).
  - reflexivity.
  - intros m [<-|[]]. vm_compute. discriminate.
  - reflexivity.
Defined.

(** ** Overwrite and Append on a tag that is present *)

(** X19: under policy 1, a value whose length differs from that of the
    first record of the tag replaces that record by deleting it and
    appending the new one, when no more bytes follow the record than it
    spans (so that the [memcpy] of [tb_del] has ranges that are apart):
    the other records close up in their order and the new record comes
    last.  The view is retargeted to the stored value; [tb_find] of the
    tag returns it, unless a later record of the same tag was there
    before. *)
Theorem tb_add_overwrite_moves_record tb h pre suf tag l0 l v vs :
  let rs := pre ++ (tag, l0) :: suf in
  Forall rec_ok rs -> layout h (tb_buf tb) rs -> tb_len tb = span_of rs ->
  (forall l', ~ In (tag, l') pre) ->
  l <> l0 -> l0 <> 0xff -> span_of suf <= encodedSpan tag l0 ->
  0 < l < 65536 ->
  v <> NULL -> Z.of_nat (length vs) = l -> holds h v vs ->
  v + l <= tb_buf tb \/ tb_buf tb + tb_mlen tb <= v ->
  tb_len tb <= tb_mlen tb ->
  tb_len tb - encodedSpan tag l0 + encodedSpan tag l <= tb_mlen tb < 65536 ->
  tb_len tb - encodedSpan tag l0 + l + 2 < tb_mlen tb ->
  exists tb' tlv' h',
    yields (tb_add tb (mkTLV tag l v) 1) h (1, tb', tlv') h'
    /\ tb_len tb' = tb_len tb - encodedSpan tag l0 + encodedSpan tag l
    /\ layout h' (tb_buf tb) (pre ++ suf ++ [(tag, l)])
    /\ tlv_l tlv' = l /\ holds h' (tlv_v tlv') vs
    /\ ((forall l', ~ In (tag, l') suf) ->
        yields (tb_find tb' tag TLV_undef) h' (1, tlv') h').
Proof.
  intros rs F L E N Nl Nff T Rl Vn Lv Hv D Hcap Cap Test.
  pose proof (find_rec_first tag l0 pre suf N) as Fi. fold rs in Fi.
  destruct (find_rec_inv tag rs _ l0 F Fi) as ((St & Rl0) & Hoff & Hend & _).
  cbn [fst snd] in St, Rl0.
  destruct (tag_sound_cases _ St) as (Rt & _).
  pose proof (header_size_range tag l0) as Hs0.
  pose proof (header_size_range tag l) as Hs.
  assert (Esp : span_of rs = span_of pre + encodedSpan tag l0 + span_of suf).
  { unfold rs. rewrite span_of_app. cbn [span_of]. lia. }
  pose proof (tb_find_well_formed tb h rs tag F L E ltac:(lia)) as Yf.
  rewrite Fi in Yf.
  assert (Bs : span_of rs < 65536) by lia.
  destruct (tb_del_first tb h pre suf tag l0 F L E Bs N Nff T)
    as (h1 & Yd & L1 & Fr1 & _).
  set (tb1 := set_len tb (tb_len tb - encodedSpan tag l0)) in *.
  assert (F1 : Forall rec_ok (pre ++ suf)).
  { unfold rs in F. apply Forall_app in F. destruct F as (Fp & Fs).
    inversion Fs; subst. apply Forall_app. split; assumption. }
  assert (E1 : tb_len tb1 = span_of (pre ++ suf)).
  { unfold tb1. cbn [set_len tb_len]. rewrite span_of_app. lia. }
  destruct (tb_add_append_layout tb1 h1 (pre ++ suf) (mkTLV tag l v) F1
              ltac:(exact L1) E1 St Rl
              ltac:(unfold tb1; cbn; lia) ltac:(unfold tb1; cbn; lia))
    as (tb' & tlv' & h' & Ya & A & El & L').
  cbn [tlv_t tlv_l] in *.
  assert (Eb : tb_buf tb' = tb_buf tb
               /\ tlv' = mkTLV tag l (tb_buf tb + tb_len tb1 + header_size tag l)).
  { destruct A as (-> & -> & _). split; reflexivity. }
  destruct Eb as (Eb & Ev).
  assert (F' : Forall rec_ok ((pre ++ suf) ++ [(tag, l)])).
  { apply Forall_app. split; [assumption|]. constructor; [|constructor].
    split; [exact St|exact Rl]. }
  exists tb', tlv', h'.
  split; [|split; [|split; [|split; [|split]]]].
  - unfold tb_add. cbn [tlv_t tlv_l tlv_v].
    destruct (Z.eqb_spec l 0); [lia|].
    rewrite (tag_sound_not_wrong _ St). change (1 <? 3) with true. cbv iota.
    ybind by (exact Yf). change (negb (1 =? 0)) with true.
    change (1 =? 0) with false. change (1 =? 2) with false. cbv iota.
    cbn [tlv_l]. destruct (Z.eqb_spec l l0); [contradiction|].
    ybind by (exact Yd). exact Ya.
  - rewrite El. unfold tb1. reflexivity.
  - rewrite app_assoc. exact L'.
  - rewrite Ev. reflexivity.
  - rewrite Ev. cbn [tlv_v].
    destruct A as (_ & _ & _ & _ & _ & C1). cbn [tlv_t tlv_l tlv_v] in C1.
    apply (holds_length_agree h h' v); [|exact Hv].
    intros k Hk. unfold tb1 in *. cbn [set_len tb_len tb_buf] in *.
    rewrite C1; try assumption; try lia.
    rewrite Fr1 by lia. reflexivity.
  - intros Ns.
    assert (Fi' : find_rec tag (pre ++ suf) = None).
    { apply find_rec_none. intros l' I. apply in_app_or in I.
      destruct I as [I|I]; [apply (N l' I)|apply (Ns l' I)]. }
    assert (E' : tb_len tb' = span_of ((pre ++ suf) ++ [(tag, l)])).
    { rewrite span_of_app. cbn [span_of]. lia. }
    pose proof (tb_find_well_formed tb' h' ((pre ++ suf) ++ [(tag, l)]) tag F'
                  ltac:(rewrite Eb; exact L') E' ltac:(lia)) as Yf'.
    rewrite (find_rec_app_new tag l _ Fi') in Yf'.
    rewrite Eb in Yf'. rewrite Ev, E1. exact Yf'.
Qed.

(** In [81 02 11 22] [82 01 33], tag [81] is overwritten with the
    three bytes [33 44 55]. *)
Lemma tb_add_overwrite_moves_record_witness :
  exists tb' tlv' h',
    yields (tb_add demo_tb2 (mkTLV 0x81 3 2002) 1) (after demo_step2)
      (1, tb', tlv') h'
    /\ tb_len tb' = tb_len demo_tb2 - encodedSpan 0x81 2 + encodedSpan 0x81 3
    /\ layout h' (tb_buf demo_tb2) ([] ++ [(0x82, 1)] ++ [(0x81, 3)])
    /\ tlv_l tlv' = 3 /\ holds h' (tlv_v tlv') [0x33; 0x44; 0x55]
    /\ ((forall l', ~ In (0x81, l') [(0x82, 1)]) ->
        yields (tb_find tb' 0x81 TLV_undef) h' (1, tlv') h').
Proof.
  apply (tb_add_overwrite_moves_record demo_tb2 (after demo_step2)
           [] [(0x82, 1)] 0x81 2 3 2002 [0x33; 0x44; 0x55]).
  - repeat constructor; simpl; lia.
  - vm_compute; tauto.
  - reflexivity.
  - intros l' [].
  - lia.
  - lia.
  - vm_compute. discriminate.
  - lia.
  - discriminate.
  - reflexivity.
  - vm_compute; tauto.
  - right. vm_compute. discriminate.
  - vm_compute. discriminate.
  - vm_compute. split; [discriminate|reflexivity].
  - vm_compute. reflexivity.
Defined.

(** X27: under policy 1, a value whose length differs from that of the
    first record of the tag cannot be stored when more bytes follow that
    record than it spans: [tb_del] is called and hands overlapping
    ranges to [memcpy], which C leaves undefined, so [tb_add] has no
    value. *)
Theorem tb_add_overwrite_overlap tb h pre suf tlv l0 :
  let rs := pre ++ (tlv_t tlv, l0) :: suf in
  Forall rec_ok rs -> layout h (tb_buf tb) rs -> tb_len tb = span_of rs ->
  span_of rs < 65536 ->
  (forall l', ~ In (tlv_t tlv, l') pre) ->
  tlv_l tlv <> 0 -> tlv_l tlv <> l0 -> l0 <> 0xff ->
  encodedSpan (tlv_t tlv) l0 < span_of suf ->
  tb_del tb (tlv_t tlv) h = None /\ tb_add tb tlv 1 h = None.
Proof.
  intros rs F L E B N Nz Nl Nff T.
  pose proof (find_rec_first (tlv_t tlv) l0 pre suf N) as Fi. fold rs in Fi.
  destruct (find_rec_inv _ rs _ l0 F Fi) as ((St & Rl0) & _).
  cbn [fst snd] in St, Rl0.
  destruct (tag_sound_cases _ St) as (Rt & _).
  pose proof (tb_find_well_formed tb h rs (tlv_t tlv) F L E ltac:(lia)) as Yf.
  rewrite Fi in Yf.
  assert (D : tb_del tb (tlv_t tlv) h = None).
  { apply (tb_del_overlap tb h rs (tlv_t tlv) (span_of pre) l0 F L E B Fi Nff).
    unfold rs. rewrite span_of_app. cbn [span_of]. lia. }
  split; [exact D|].
  unfold tb_add. destruct (Z.eqb_spec (tlv_l tlv) 0); [contradiction|].
  rewrite (tag_sound_not_wrong _ St). change (1 <? 3) with true. cbv iota.
  apply (bind_none _ _ _ _ _ Yf).
  change (negb (1 =? 0)) with true. change (1 =? 0) with false.
  change (1 =? 2) with false. cbv iota. cbn [tlv_l].
  destruct (Z.eqb_spec (tlv_l tlv) l0); [contradiction|].
  unfold bind. rewrite D. reflexivity.
Qed.

(** In [81 01 aa] [82 01 33] [83 01 44], tag [81] cannot be overwritten
    with a value of two bytes. *)
Lemma tb_add_overwrite_overlap_witness :
  tb_del crowded_tb 0x81 crowded_heap = None
  /\ tb_add crowded_tb (mkTLV 0x81 2 NULL) 1 crowded_heap = None.
Proof.
  apply (tb_add_overwrite_overlap crowded_tb crowded_heap
           [] [(0x82, 1); (0x83, 1)] (mkTLV 0x81 2 NULL) 1).
  - repeat constructor; simpl; lia.
  - vm_compute; tauto.
  - reflexivity.
  - vm_compute. reflexivity.
  - intros l' [].
  - discriminate.
  - discriminate.
  - discriminate.
  - vm_compute. reflexivity.
Defined.



(** ** The consistency check on every input *)

(** X21: [tlv_check] returns on every input, with 0 or 1 and the heap
    as it was; the fuel of its length covers the recursion into nested
    records.  It answers 0 for a negative length and 1 for a range of
    zero bytes, the empty range included. *)
Theorem tlv_check_answers b l h :
  exists r,
    yields (tlv_check b l) h r h
    /\ (r = 0 \/ r = 1)
    /\ (l < 0 -> r = 0)
    /\ (0 <= l -> (forall k, 0 <= k < l -> uchar (h (b + k)) = 0) -> r = 1).
Proof.
  destruct (tlv_check_total h b l) as (r & Y & C).
  exists r. split; [exact Y|]. split; [exact C|]. split.
  - intros Neg.
    destruct (tlv_parseTLV_answers b l TLV_undef h)
      as (i & t' & Yp & Ci & Zi & _).
    assert (Hi : i <> 0) by (intros Ei; apply Zi in Ei; lia).
    assert (Y0 : yields (tlv_check b l) h 0 h).
    { unfold tlv_check. rewrite tlv_check_loop_eq.
      ybind by (exact Yp).
      destruct (Z.gtb_spec i 0) as [G|G].
      - assert (i = 1) by lia. subst i.
        destruct (tlv_parseTLV_spec b l h) as (i1 & r1 & Y1 & _ & B1).
        destruct (Y1 TLV_undef) as (t1 & Yt1 & _).
        destruct (yields_fun _ _ _ _ _ _ Yp Yt1) as (E1 & _).
        inversion E1; subst i1. destruct (B1 eq_refl). lia.
      - destruct (Z.eqb_spec i 0); [contradiction|]. apply yields_ret. }
    destruct (yields_fun _ _ _ _ _ _ Y Y0) as (E & _). exact E.
  - intros P Zs.
    destruct (yields_fun _ _ _ _ _ _ Y (tlv_check_zeros h b l P Zs)) as (E & _).
    exact E.
Qed.

(** * Properties of base64.c *)

(** ** Facts checked over all bytes and all six-bit values *)

Lemma all_below_spec n (P : Z -> bool) :
  all_below n P = true -> forall z, 0 <= z < Z.of_nat n -> P z = true.
Proof.
  unfold all_below. rewrite forallb_forall. intros H z Hz.
  apply H. apply in_map_iff. exists (Z.to_nat z). split; [lia|].
  apply in_seq. lia.
Qed.

(** The alphabet has 64 characters, all below 128, and [base64_pos]
    inverts it. *)
Lemma b64char_pos y :
  0 <= y < 64 ->
  base64_pos (b64char y) = y /\ 0 < b64char y < 128
  /\ b64char y <> BASE64_PAD.
Proof.
  intros Hy.
  assert (A : ((base64_pos (b64char y) =? y)
               && (0 <? b64char y) && (b64char y <? 128)
               && negb (b64char y =? BASE64_PAD)) = true).
  { revert y Hy. apply (all_below_spec 64). vm_compute. reflexivity. }
  apply andb_prop in A. destruct A as (A & A4).
  apply andb_prop in A. destruct A as (A & A3).
  apply andb_prop in A. destruct A as (A1 & A2).
  apply negb_true_iff in A4. lia.
Qed.

(** What [base64_pos] answers, for every byte. *)
Lemma base64_pos_range x :
  0 <= x < 256 ->
  base64_pos x = -1 \/ (0 <= base64_pos x < 64 /\ x <> BASE64_PAD).
Proof.
  intros Hx.
  assert (A : ((base64_pos x =? -1)
               || ((0 <=? base64_pos x) && (base64_pos x <? 64)
                   && negb (x =? BASE64_PAD))) = true).
  { revert x Hx. apply (all_below_spec 256). vm_compute. reflexivity. }
  apply orb_prop in A. destruct A as [A|A]; [left; lia|right].
  apply andb_prop in A. destruct A as (A & A3).
  apply andb_prop in A. apply negb_true_iff in A3. lia.
Qed.

Lemma b64char_range y : 0 <= b64char y < 128.
Proof.
  destruct (Z_lt_le_dec y 0) as [N|N].
  { destruct y; try lia. vm_compute. split; congruence. }
  destruct (Z_lt_le_dec y 64) as [L|L].
  - pose proof (b64char_pos y ltac:(lia)). lia.
  - unfold b64char. rewrite nth_overflow; [lia|].
    change (length BASE64) with 64%nat. lia.
Qed.

(** The bit operations of one encoder round, by the number of bits
    held. *)
Lemma enc_bits_0 d :
  0 <= d < 256 ->
  let c1 := Z.lor (Z.shiftl 0 8) (Z.land d 0xff) in
  Z.land (Z.shiftr c1 2) 0x3f = d / 4
  /\ Z.land c1 (Z.shiftl 1 2 - 1) = d mod 4.
Proof.
  intros Hd.
  assert (A : (let c1 := Z.lor (Z.shiftl 0 8) (Z.land d 0xff) in
               (Z.land (Z.shiftr c1 2) 0x3f =? d / 4)
               && (Z.land c1 (Z.shiftl 1 2 - 1) =? d mod 4)) = true).
  { revert d Hd. apply (all_below_spec 256). vm_compute. reflexivity. }
  cbv zeta in *. apply andb_prop in A. lia.
Qed.

Lemma enc_bits_2 c d :
  0 <= c < 4 -> 0 <= d < 256 ->
  let c1 := Z.lor (Z.shiftl c 8) (Z.land d 0xff) in
  Z.land (Z.shiftr c1 4) 0x3f = c * 16 + d / 16
  /\ Z.land c1 (Z.shiftl 1 4 - 1) = d mod 16.
Proof.
  intros Hc Hd.
  assert (A : all_below 256 (fun d =>
               let c1 := Z.lor (Z.shiftl c 8) (Z.land d 0xff) in
               (Z.land (Z.shiftr c1 4) 0x3f =? c * 16 + d / 16)
               && (Z.land c1 (Z.shiftl 1 4 - 1) =? d mod 16)) = true).
  { revert c Hc. apply (all_below_spec 4). vm_compute. reflexivity. }
  apply all_below_spec with (z := d) in A; [|exact Hd].
  cbv zeta in *. apply andb_prop in A. lia.
Qed.

Lemma enc_bits_4 c d :
  0 <= c < 16 -> 0 <= d < 256 ->
  let c1 := Z.lor (Z.shiftl c 8) (Z.land d 0xff) in
  let c2 := Z.land c1 (Z.shiftl 1 6 - 1) in
  Z.land (Z.shiftr c1 6) 0x3f = c * 4 + d / 64
  /\ Z.land (Z.shiftr c2 0) 0x3f = d mod 64
  /\ Z.land c2 (Z.shiftl 1 0 - 1) = 0.
Proof.
  intros Hc Hd.
  assert (A : all_below 256 (fun d =>
               let c1 := Z.lor (Z.shiftl c 8) (Z.land d 0xff) in
               let c2 := Z.land c1 (Z.shiftl 1 6 - 1) in
               (Z.land (Z.shiftr c1 6) 0x3f =? c * 4 + d / 64)
               && (Z.land (Z.shiftr c2 0) 0x3f =? d mod 64)
               && (Z.land c2 (Z.shiftl 1 0 - 1) =? 0)) = true).
  { revert c Hc. apply (all_below_spec 16). vm_compute. reflexivity. }
  apply all_below_spec with (z := d) in A; [|exact Hd].
  cbv zeta in *. apply andb_prop in A. destruct A as (A & A3).
  apply andb_prop in A. lia.
Qed.

(** The character for the bits left over at the end. *)
Lemma enc_bits_tail c :
  0 <= c < 16 ->
  Z.land (Z.shiftl c (6 - 2)) 0x3f = c mod 4 * 16
  /\ Z.land (Z.shiftl c (6 - 4)) 0x3f = c * 4.
Proof.
  intros Hc.
  assert (A : ((Z.land (Z.shiftl c (6 - 2)) 0x3f =? c mod 4 * 16)
               && (Z.land (Z.shiftl c (6 - 4)) 0x3f =? c * 4)) = true).
  { revert c Hc. apply (all_below_spec 16). vm_compute. reflexivity. }
  apply andb_prop in A. lia.
Qed.

(** The bit operations of one decoder round. *)
Lemma dec_bits c x :
  0 <= c < 64 -> 0 <= x < 64 ->
  let c1 := Z.lor (Z.shiftl c 6) x in
  Z.land (Z.shiftr c1 4) 0xff = (c * 4 + x / 16) mod 256
  /\ Z.land c1 (Z.shiftl 1 4 - 1) = x mod 16
  /\ Z.land (Z.shiftr c1 2) 0xff = (c * 16 + x / 4) mod 256
  /\ Z.land c1 (Z.shiftl 1 2 - 1) = x mod 4
  /\ Z.land (Z.shiftr c1 0) 0xff = (c * 64 + x) mod 256
  /\ Z.land c1 (Z.shiftl 1 0 - 1) = 0.
Proof.
  intros Hc Hx.
  assert (A : all_below 64 (fun x =>
               let c1 := Z.lor (Z.shiftl c 6) x in
               (Z.land (Z.shiftr c1 4) 0xff =? (c * 4 + x / 16) mod 256)
               && (Z.land c1 (Z.shiftl 1 4 - 1) =? x mod 16)
               && (Z.land (Z.shiftr c1 2) 0xff =? (c * 16 + x / 4) mod 256)
               && (Z.land c1 (Z.shiftl 1 2 - 1) =? x mod 4)
               && (Z.land (Z.shiftr c1 0) 0xff =? (c * 64 + x) mod 256)
               && (Z.land c1 (Z.shiftl 1 0 - 1) =? 0)) = true).
  { revert c Hc. apply (all_below_spec 64). vm_compute. reflexivity. }
  apply all_below_spec with (z := x) in A; [|exact Hx].
  cbv zeta in *.
  repeat (apply andb_prop in A; destruct A as (A & ?)). lia.
Qed.

(** ** Guarded stores *)

Lemma put_at_yields p lim j x h :
  yields (put_at p lim j x) h tt (put_list h p lim j [x]).
Proof.
  unfold put_at. cbn [put_list].
  destruct (negb (p =? NULL) && (j <? lim)); [apply yields_store|apply yields_ret].
Qed.

Lemma put_list_app xs ys : forall h p lim j,
  put_list h p lim j (xs ++ ys)
  = put_list (put_list h p lim j xs) p lim (j + Z.of_nat (length xs)) ys.
Proof.
  induction xs as [|x xs IH]; intros h p lim j.
  - cbn [app put_list length]. replace (j + Z.of_nat 0) with j by lia.
    reflexivity.
  - cbn [app put_list length]. rewrite IH. f_equal. lia.
Qed.

(** Nothing is stored through a NULL pointer, below index [j], at or
    beyond the limit, or beyond the values given. *)
Lemma put_list_frame xs : forall h p lim j a,
  p = NULL \/ a < p + j \/ p + lim <= a
  \/ p + j + Z.of_nat (length xs) <= a ->
  put_list h p lim j xs a = h a.
Proof.
  induction xs as [|x xs IH]; intros h p lim j a Ha; [reflexivity|].
  cbn [put_list length] in *. rewrite IH by lia.
  destruct (Z.eqb_spec p NULL) as [E|E]; [reflexivity|]. cbn [negb andb].
  destruct (Z.ltb_spec j lim); [|reflexivity].
  apply upd_other. lia.
Qed.

(** With room for all of them, the values are stored in a row. *)
Lemma put_list_holds xs : forall h p lim j,
  p <> NULL -> j + Z.of_nat (length xs) <= lim ->
  holds (put_list h p lim j xs) (p + j) (map uchar xs).
Proof.
  induction xs as [|x xs IH]; intros h p lim j Np Hl; [exact I|].
  cbn [put_list length map holds] in *. split.
  - rewrite put_list_frame by lia.
    destruct (Z.eqb_spec p NULL) as [E|E]; [contradiction|]. cbn [negb andb].
    destruct (Z.ltb_spec j lim); [|lia].
    rewrite upd_same by reflexivity. apply uchar_idem.
  - replace (p + j + 1) with (p + (j + 1)) by lia. apply IH; [assumption|lia].
Qed.

(** ** The encoder loops *)

Lemma encode_flush_eq fuel str slen c cbits j :
  encode_flush fuel str slen c cbits j =
  if cbits >=? 6 then
    put_at str slen j
      (nth (Z.to_nat (Z.land (Z.shiftr c (cbits - 6)) 0x3f)) BASE64 0);;;
    match fuel with
    | O => out_of_fuel
    | S k => encode_flush k str slen (Z.land c (Z.shiftl 1 (cbits - 6) - 1))
               (cbits - 6) (j + 1)
    end
  else ret (c, cbits, j).
Proof. destruct fuel; reflexivity. Qed.

Lemma encode_flush_once k str slen c cbits j h R hR :
  6 <= cbits ->
  yields (encode_flush k str slen (Z.land c (Z.shiftl 1 (cbits - 6) - 1))
            (cbits - 6) (j + 1))
    (put_list h str slen j [b64char (Z.land (Z.shiftr c (cbits - 6)) 0x3f)])
    R hR ->
  yields (encode_flush (S k) str slen c cbits j) h R hR.
Proof.
  intros H Y. rewrite encode_flush_eq.
  destruct (Z.geb_spec cbits 6); [|lia].
  ybind by (apply put_at_yields). exact Y.
Qed.

Lemma encode_flush_done k str slen c cbits j h :
  cbits < 6 -> yields (encode_flush k str slen c cbits j) h (c, cbits, j) h.
Proof.
  intros H. rewrite encode_flush_eq.
  destruct (Z.geb_spec cbits 6); [lia|]. apply yields_ret.
Qed.

(** One round of the encoder loop after the load: the six-bit values of
    [enc_step] are stored as characters. *)
Lemma encode_body str slen c cbits d j h :
  enc_state c cbits -> 0 <= d < 256 ->
  yields (encode_flush (Z.to_nat (cbits + 8)) str slen
            (Z.lor (Z.shiftl c 8) (Z.land d 0xff)) (cbits + 8) j) h
    (snd (fst (enc_step c cbits d)), snd (enc_step c cbits d),
     j + Z.of_nat (length (fst (fst (enc_step c cbits d)))))
    (put_list h str slen j (map b64char (fst (fst (enc_step c cbits d))))).
Proof.
  intros [(-> & ->)|[(-> & Hc)|(-> & Hc)]] Hd.
  - change (enc_step 0 0 d) with ([d / 4], d mod 4, 2).
    cbn [fst snd length map]. change (Z.of_nat 1) with 1.
    change (Z.to_nat (0 + 8)) with 8%nat. change (0 + 8) with 8.
    destruct (enc_bits_0 d Hd) as (B1 & B2).
    apply encode_flush_once; [lia|]. change (8 - 6) with 2.
    rewrite B1, B2. apply encode_flush_done. lia.
  - change (enc_step c 2 d) with ([c * 16 + d / 16], d mod 16, 4).
    cbn [fst snd length map]. change (Z.of_nat 1) with 1.
    change (Z.to_nat (2 + 8)) with 10%nat. change (2 + 8) with 10.
    destruct (enc_bits_2 c d Hc Hd) as (B1 & B2).
    apply encode_flush_once; [lia|]. change (10 - 6) with 4.
    rewrite B1, B2. apply encode_flush_done. lia.
  - change (enc_step c 4 d) with ([c * 4 + d / 64; d mod 64], 0, 0).
    cbn [fst snd length map]. change (Z.of_nat 2) with 2.
    change (Z.to_nat (4 + 8)) with 12%nat. change (4 + 8) with 12.
    destruct (enc_bits_4 c d Hc Hd) as (B1 & B2 & B3).
    apply encode_flush_once; [lia|]. change (12 - 6) with 6.
    rewrite B1.
    apply encode_flush_once; [lia|]. change (6 - 6) with 0.
    rewrite B2, B3.
    replace (j + 2) with (j + 1 + 1) by lia.
    apply encode_flush_done. lia.
Qed.

Lemma enc_step_state c cbits d :
  enc_state c cbits -> 0 <= d < 256 ->
  enc_state (snd (fst (enc_step c cbits d))) (snd (enc_step c cbits d))
  /\ 8 + cbits
     = 6 * Z.of_nat (length (fst (fst (enc_step c cbits d))))
       + snd (enc_step c cbits d).
Proof.
  intros [(-> & ->)|[(-> & Hc)|(-> & Hc)]] Hd.
  - change (enc_step 0 0 d) with ([d / 4], d mod 4, 2).
    cbn [fst snd length]. split; [|lia].
    right; left. split; [reflexivity|]. apply Z.mod_pos_bound. lia.
  - change (enc_step c 2 d) with ([c * 16 + d / 16], d mod 16, 4).
    cbn [fst snd length]. split; [|lia].
    right; right. split; [reflexivity|]. apply Z.mod_pos_bound. lia.
  - change (enc_step c 4 d) with ([c * 4 + d / 64; d mod 64], 0, 0).
    cbn [fst snd length]. split; [|lia]. left. auto.
Qed.

Lemma encode_loop_eq fuel data len str slen i c cbits j :
  encode_loop fuel data len str slen i c cbits j =
  if i <? len then
    d <- load (data + i);;
    '(c, cbits, j) <- encode_flush (Z.to_nat (cbits + 8)) str slen
                        (Z.lor (Z.shiftl c 8) (Z.land d 0xff)) (cbits + 8) j;;
    match fuel with
    | O => out_of_fuel
    | S k => encode_loop k data len str slen (i + 1) c cbits j
    end
  else ret (c, cbits, j).
Proof. destruct fuel; reflexivity. Qed.

(** The encoder loop on any heap: it returns, the characters counted
    and the bits left add up to the bits read, and stores go to
    [str + j ..] below the limit only. *)
Lemma encode_loop_count data len str slen : forall fuel i c cbits j h,
  enc_state c cbits -> 0 <= i <= len -> len - i <= Z.of_nat fuel ->
  exists c' cb' j' h',
    yields (encode_loop fuel data len str slen i c cbits j) h (c', cb', j') h'
    /\ enc_state c' cb'
    /\ 8 * (len - i) + cbits = 6 * (j' - j) + cb'
    /\ (forall a, str = NULL \/ a < str + j \/ str + slen <= a
                  \/ str + j' <= a -> h' a = h a).
Proof.
  induction fuel as [|fuel IH]; intros i c cbits j h S Hi Hf;
    rewrite encode_loop_eq;
    (destruct (Z.ltb_spec i len);
     [|exists c, cbits, j, h; split; [apply yields_ret|];
       split; [exact S|]; split; [lia|reflexivity]]);
    try lia.
  pose proof (uchar_range (h (data + i))) as Hd.
  pose proof (encode_body str slen c cbits _ j h S Hd) as Yb.
  destruct (enc_step_state c cbits _ S Hd) as (S1 & Cnt).
  set (st := enc_step c cbits (uchar (h (data + i)))) in *.
  destruct (IH (i + 1) (snd (fst st)) (snd st)
              (j + Z.of_nat (length (fst (fst st))))
              (put_list h str slen j (map b64char (fst (fst st)))) S1)
    as (c' & cb' & j' & h' & Y & S' & Cnt' & Fr); try lia.
  exists c', cb', j', h'. split; [|split; [exact S'|split; [lia|]]].
  - yload. ybind by (exact Yb). exact Y.
  - intros a Ha. rewrite Fr by lia. apply put_list_frame.
    rewrite length_map. unfold enc_state in S', S1. lia.
Qed.

Lemma encode_pad_eq fuel str slen i j :
  encode_pad fuel str slen i j =
  if i <? 4 then
    put_at str slen j BASE64_PAD;;;
    match fuel with
    | O => out_of_fuel
    | S k => encode_pad k str slen (i + 1) (j + 1)
    end
  else ret j.
Proof. destruct fuel; reflexivity. Qed.

Lemma encode_pad_spec str slen : forall fuel i j h,
  0 <= i <= 4 -> 4 - i <= Z.of_nat fuel ->
  yields (encode_pad fuel str slen i j) h (j + (4 - i))
    (put_list h str slen j (repeat BASE64_PAD (Z.to_nat (4 - i)))).
Proof.
  induction fuel as [|fuel IH]; intros i j h Hi Hf; rewrite encode_pad_eq;
    (destruct (Z.ltb_spec i 4);
     [|replace i with 4 by lia; replace (j + (4 - 4)) with j by lia;
       apply yields_ret]); try lia.
  ybind by (apply put_at_yields).
  replace (Z.to_nat (4 - i)) with (S (Z.to_nat (4 - (i + 1)))) by lia.
  cbn [repeat put_list].
  replace (j + (4 - i)) with (j + 1 + (4 - (i + 1))) by lia.
  apply IH; lia.
Qed.

Lemma land_3 j : 0 <= j -> Z.land j 3 = j mod 4.
Proof.
  intros H. change 3 with (Z.ones 2). rewrite Z.land_ones by lia. reflexivity.
Qed.

Lemma put_list_none xs : forall h p lim j,
  p = NULL \/ lim <= j -> put_list h p lim j xs = h.
Proof.
  induction xs as [|x xs IH]; intros h p lim j H; [reflexivity|].
  cbn [put_list].
  replace (negb (p =? NULL) && (j <? lim)) with false.
  - apply IH. lia.
  - destruct H as [->|H]; [reflexivity|].
    destruct (Z.ltb_spec j lim); [lia|]. symmetry. apply andb_false_r.
Qed.

Lemma guard_false p lim j :
  negb (p =? NULL) && (j <? lim) = false -> p = NULL \/ lim <= j.
Proof.
  destruct (Z.eqb_spec p NULL); [auto|].
  destruct (Z.ltb_spec j lim); [discriminate|auto].
Qed.

(** The end of [base64_encode], after the loop over the input: the
    character of the bits left over, the padding and the terminator.
    The index reached is the same whether the characters are stored or
    only counted. *)
Lemma encode_finish str slen c cb j h :
  0 <= j ->
  (cb = 0 /\ j mod 4 = 0) \/ (cb = 2 /\ j mod 4 = 1)
  \/ (cb = 4 /\ j mod 4 = 2) ->
  let j2 := 4 * ((j + 3) / 4) in
  yields
    (j <- (if cb >? 0 then
             if negb (str =? NULL) && (j <? slen)
             then store (str + j)
                    (nth (Z.to_nat (Z.land (Z.shiftl c (6 - cb)) 0x3f))
                         BASE64 0);;; ret (j + 1)
             else ret j
           else ret j);;
     j <- (if Z.land j 3 >? 0 then encode_pad 4 str slen (Z.land j 3) j
           else ret j);;
     put_at str slen j 0;;;
     (if slen <? j + 1 then ret (1, j + 1) else ret (0, j + 1)))
    h
    (if slen <? j2 + 1 then 1 else 0, j2 + 1)
    (put_list h str slen j
       ((if cb >? 0
         then b64char (Z.land (Z.shiftl c (6 - cb)) 0x3f)
              :: repeat BASE64_PAD (Z.to_nat (j2 - (j + 1)))
         else [])
        ++ [0])).
Proof.
  intros Hj Hm j2.
  assert (Fin : forall jx hx,
             jx = j2 ->
             yields (put_at str slen jx 0;;;
                     (if slen <? jx + 1 then ret (1, jx + 1)
                      else ret (0, jx + 1))) hx
               (if slen <? j2 + 1 then 1 else 0, j2 + 1)
               (put_list hx str slen j2 [0])).
  { intros jx hx ->. ybind by (apply put_at_yields).
    destruct (slen <? j2 + 1); apply yields_ret. }
  destruct Hm as [(-> & M)|[(-> & M)|(-> & M)]].
  - change (0 >? 0) with false. cbv iota. cbn [app].
    assert (E2 : j2 = j) by (unfold j2; Z.div_mod_to_equations; lia).
    ybind by (apply yields_ret).
    rewrite (land_3 j Hj), M. change (0 >? 0) with false. cbv iota.
    ybind by (apply yields_ret).
    pose proof (Fin j h (eq_sym E2)) as F. rewrite E2 in F. rewrite E2.
    exact F.
  - change (2 >? 0) with true. cbv iota.
    assert (E2 : j2 = j + 3) by (unfold j2; Z.div_mod_to_equations; lia).
    replace (Z.to_nat (j2 - (j + 1))) with 2%nat by lia.
    destruct (negb (str =? NULL) && (j <? slen)) eqn:W.
    + cbn [repeat app put_list]. rewrite W.
      ybind by (ybind by (apply yields_store); apply yields_ret).
      fold (b64char (Z.land (Z.shiftl c (6 - 2)) 63)).
      rewrite (land_3 (j + 1)) by lia.
      replace ((j + 1) mod 4) with 2 by (Z.div_mod_to_equations; lia).
      change (2 >? 0) with true. cbv iota.
      ybind by (apply (encode_pad_spec str slen 4 2 (j + 1)); simpl; lia).
      change (Z.to_nat (4 - 2)) with 2%nat. cbn [repeat].
      pose proof (Fin (j + 1 + (4 - 2))
                    (put_list
                       (upd h (str + j)
                          (uchar (b64char (Z.land (Z.shiftl c (6 - 2)) 63))))
                       str slen (j + 1) [BASE64_PAD; BASE64_PAD])
                    ltac:(lia)) as F.
      rewrite E2 in F.
      replace (j + 3) with (j + 1 + 1 + 1) in F by lia.
      cbn [put_list] in F |- *. rewrite E2.
      replace (j + 3) with (j + 1 + 1 + 1) by lia. exact F.
    + ybind by (apply yields_ret).
      rewrite (land_3 j Hj), M. change (1 >? 0) with true. cbv iota.
      ybind by (apply (encode_pad_spec str slen 4 1 j); simpl; lia).
      pose proof (guard_false _ _ _ W) as G.
      rewrite !(put_list_none _ h) by exact G.
      pose proof (Fin (j + (4 - 1)) h ltac:(lia)) as F.
      rewrite (put_list_none _ h) in F by lia. exact F.
  - change (4 >? 0) with true. cbv iota.
    assert (E2 : j2 = j + 2) by (unfold j2; Z.div_mod_to_equations; lia).
    replace (Z.to_nat (j2 - (j + 1))) with 1%nat by lia.
    destruct (negb (str =? NULL) && (j <? slen)) eqn:W.
    + cbn [repeat app put_list]. rewrite W.
      ybind by (ybind by (apply yields_store); apply yields_ret).
      fold (b64char (Z.land (Z.shiftl c (6 - 4)) 63)).
      rewrite (land_3 (j + 1)) by lia.
      replace ((j + 1) mod 4) with 3 by (Z.div_mod_to_equations; lia).
      change (3 >? 0) with true. cbv iota.
      ybind by (apply (encode_pad_spec str slen 4 3 (j + 1)); simpl; lia).
      change (Z.to_nat (4 - 3)) with 1%nat. cbn [repeat].
      pose proof (Fin (j + 1 + (4 - 3))
                    (put_list
                       (upd h (str + j)
                          (uchar (b64char (Z.land (Z.shiftl c (6 - 4)) 63))))
                       str slen (j + 1) [BASE64_PAD])
                    ltac:(lia)) as F.
      rewrite E2 in F.
      replace (j + 2) with (j + 1 + 1) in F by lia.
      cbn [put_list] in F |- *. rewrite E2.
      replace (j + 2) with (j + 1 + 1) by lia. exact F.
    + ybind by (apply yields_ret).
      rewrite (land_3 j Hj), M. change (2 >? 0) with true. cbv iota.
      ybind by (apply (encode_pad_spec str slen 4 2 j); simpl; lia).
      pose proof (guard_false _ _ _ W) as G.
      rewrite !(put_list_none _ h) by exact G.
      pose proof (Fin (j + (4 - 2)) h ltac:(lia)) as F.
      rewrite (put_list_none _ h) in F by lia. exact F.
Qed.

(** X22: [base64_encode] returns on every input (of less than 2^30
    bytes, so that its [int] indices do not overflow).  The length it
    reports in [*slen] is always [4 * ceil(len / 3) + 1], the characters
    and the terminator, whether or not they were stored; it answers 1
    exactly when the [*slen] passed in is smaller.  It stores only below
    index [*slen] of [str], and nothing at all when [str] is NULL, so a
    call with a NULL [str] asks for the length needed. *)
Theorem base64_encode_size data len str slen h :
  0 <= len < 0x40000000 -> 0 <= slen ->
  exists r n h',
    yields (base64_encode data len str slen) h (r, n) h'
    /\ n = 4 * ((len + 2) / 3) + 1
    /\ r = (if slen <? n then 1 else 0)
    /\ (forall a, str = NULL \/ a < str \/ str + slen <= a \/ str + n <= a ->
        h' a = h a).
Proof.
  intros Hlen _.
  destruct (encode_loop_count data len str slen (Z.to_nat len) 0 0 0 0 h)
    as (c & cb & j & h1 & Y & S & Cnt & Fr);
    [left; auto|lia|lia|].
  assert (Hj : 0 <= j) by (unfold enc_state in S; lia).
  assert (Hm : (cb = 0 /\ j mod 4 = 0) \/ (cb = 2 /\ j mod 4 = 1)
               \/ (cb = 4 /\ j mod 4 = 2)).
  { unfold enc_state in S. Z.div_mod_to_equations. lia. }
  pose proof (encode_finish str slen c cb j h1 Hj Hm) as F. cbv zeta in F.
  assert (E2 : 4 * ((j + 3) / 4) = 4 * ((len + 2) / 3)).
  { unfold enc_state in S. Z.div_mod_to_equations. lia. }
  assert (Hn : j <= 4 * ((len + 2) / 3)).
  { rewrite <- E2. Z.div_mod_to_equations. lia. }
  rewrite E2 in F.
  eexists _, _, _. split; [|split; [reflexivity|split; [reflexivity|]]].
  - unfold base64_encode. ybind by (exact Y). exact F.
  - intros a Ha. rewrite put_list_frame.
    + apply Fr. lia.
    + rewrite length_app. cbn [length].
      destruct (cb >? 0) eqn:G.
      * cbn [length]. rewrite repeat_length.
        destruct Hm as [(-> & M)|[(-> & M)|(-> & M)]]; try discriminate G;
          Z.div_mod_to_equations; lia.
      * cbn [length].
        destruct Hm as [(-> & M)|[(-> & M)|(-> & M)]]; try discriminate G;
          Z.div_mod_to_equations; lia.
Qed.

(** Five bytes and no buffer: nine characters are asked for. *)
Lemma base64_encode_size_witness :
  exists r n h',
    yields (base64_encode 100 5 NULL 0) (heap_of 100 [1; 2; 3; 4; 5]) (r, n) h'
    /\ n = 4 * ((5 + 2) / 3) + 1
    /\ r = (if 0 <? n then 1 else 0)
    /\ (forall a, NULL = NULL \/ a < NULL \/ NULL + 0 <= a \/ NULL + n <= a ->
        h' a = heap_of 100 [1; 2; 3; 4; 5] a).
Proof.
  apply (base64_encode_size 100 5 NULL 0 (heap_of 100 [1; 2; 3; 4; 5])); lia.
Defined.

(** ** What the encoder stores *)

Lemma list_ind3 (P : list Z -> Prop) :
  P [] -> (forall a, P [a]) -> (forall a b, P [a; b]) ->
  (forall a b c r, P r -> P (a :: b :: c :: r)) ->
  forall l, P l.
Proof.
  intros H0 H1 H2 H3 l.
  assert (A : P l /\ (forall a, P (a :: l)) /\ (forall a b, P (a :: b :: l))).
  { induction l as [|x l (A0 & A1 & A2)].
    - auto.
    - split; [apply A1|]. split; [intros a; apply A2|].
      intros a b. apply H3. exact A0. }
  apply A.
Qed.

Lemma b64_length bs :
  Z.of_nat (length (b64 bs)) = 4 * ((Z.of_nat (length bs) + 2) / 3).
Proof.
  induction bs as [|a|a b|a b c r IH] using list_ind3.
  - reflexivity.
  - reflexivity.
  - reflexivity.
  - cbn [b64 length]. repeat rewrite Nat2Z.inj_succ. rewrite IH.
    Z.div_mod_to_equations. lia.
Qed.

Lemma b64_range bs : Forall (fun x => 0 <= x < 256) (b64 bs).
Proof.
  assert (P : 0 <= BASE64_PAD < 256) by (unfold BASE64_PAD; lia).
  assert (C : forall y, 0 <= b64char y < 256)
    by (intros y; pose proof (b64char_range y); lia).
  induction bs as [|a|a b|a b c r IH] using list_ind3; cbn [b64];
    repeat (apply Forall_cons; [first [apply C|exact P]|]);
    first [apply Forall_nil|exact IH].
Qed.

Lemma map_uchar_id xs :
  Forall (fun x => 0 <= x < 256) xs -> map uchar xs = xs.
Proof.
  induction 1 as [|x xs R F IH]; [reflexivity|].
  cbn [map]. rewrite IH, (uchar_small x R). reflexivity.
Qed.

Lemma enc_run_cons d r c cb :
  enc_run (d :: r) c cb
  = (fst (fst (enc_step c cb d))
     ++ fst (fst (enc_run r (snd (fst (enc_step c cb d)))
                    (snd (enc_step c cb d)))),
     snd (fst (enc_run r (snd (fst (enc_step c cb d)))
                 (snd (enc_step c cb d)))),
     snd (enc_run r (snd (fst (enc_step c cb d))) (snd (enc_step c cb d)))).
Proof.
  cbn [enc_run]. destruct (enc_step c cb d) as [[ys c1] cb1].
  cbn [fst snd]. destruct (enc_run r c1 cb1) as [[zs c2] cb2]. reflexivity.
Qed.

(** The encoder loop over input that lies apart from the output: the
    characters stored are those of [enc_run]. *)
Lemma encode_loop_content data len str slen : forall bs fuel i c cbits j h,
  enc_state c cbits -> holds h (data + i) bs ->
  Z.of_nat (length bs) = len - i -> 0 <= i -> 0 <= j ->
  (length bs <= fuel)%nat ->
  str = NULL \/ data + len <= str \/ str + slen <= data ->
  yields (encode_loop fuel data len str slen i c cbits j) h
    (snd (fst (enc_run bs c cbits)), snd (enc_run bs c cbits),
     j + Z.of_nat (length (fst (fst (enc_run bs c cbits)))))
    (put_list h str slen j (map b64char (fst (fst (enc_run bs c cbits))))).
Proof.
  induction bs as [|d r IH]; intros fuel i c cbits j h S H Hl Hi Hj Hf D;
    rewrite encode_loop_eq.
  - cbn [length] in Hl. destruct (Z.ltb_spec i len); [lia|].
    cbn [enc_run fst snd length map put_list].
    replace (j + Z.of_nat 0) with j by lia. apply yields_ret.
  - cbn [length] in Hl, Hf. destruct (Z.ltb_spec i len); [|lia].
    destruct H as (Hd & Hr).
    pose proof (uchar_range (h (data + i))) as Rd. rewrite Hd in Rd.
    pose proof (encode_body str slen c cbits d j h S Rd) as Yb.
    destruct (enc_step_state c cbits d S Rd) as (S1 & _).
    destruct fuel as [|fuel]; [lia|].
    rewrite enc_run_cons. cbn [fst snd].
    set (st := enc_step c cbits d) in *.
    yload. rewrite Hd. ybind by (exact Yb).
    rewrite map_app, put_list_app, length_app, length_map, Nat2Z.inj_add.
    rewrite Z.add_assoc.
    apply IH; try assumption; try lia.
    apply (holds_shift h _ (data + i + 1)); [|exact Hr].
    intros k Hk. rewrite put_list_frame; [f_equal; f_equal; lia|]. lia.
Qed.

(** The characters of [enc_run], the character of the bits left over
    and the padding make up the encoding of RFC 4648. *)
Lemma enc_run_b64 bs :
  let R := enc_run bs 0 0 in
  let n := Z.of_nat (length (fst (fst R))) in
  enc_state (snd (fst R)) (snd R)
  /\ 6 * n + snd R = 8 * Z.of_nat (length bs)
  /\ map b64char (fst (fst R))
     ++ (if snd R >? 0
         then b64char (Z.land (Z.shiftl (snd (fst R)) (6 - snd R)) 0x3f)
              :: repeat BASE64_PAD (Z.to_nat (4 * ((n + 3) / 4) - (n + 1)))
         else [])
     = b64 bs.
Proof.
  induction bs as [|a|a b|a b c r IH] using list_ind3; cbv zeta in *.
  - cbn. split; [left; auto|]. split; reflexivity.
  - change (enc_run [a] 0 0) with ([a / 4], a mod 4, 2).
    cbn [fst snd length map app]. change (2 >? 0) with true. cbv iota.
    assert (Ra : 0 <= a mod 4 < 4) by (apply Z.mod_pos_bound; lia).
    split; [right; left; auto|]. split; [reflexivity|].
    destruct (enc_bits_tail (a mod 4) ltac:(lia)) as (T & _).
    rewrite T, Z.mod_mod by lia. reflexivity.
  - change (enc_run [a; b] 0 0)
      with ([a / 4; a mod 4 * 16 + b / 16], b mod 16, 4).
    cbn [fst snd length map app]. change (4 >? 0) with true. cbv iota.
    assert (Rb : 0 <= b mod 16 < 16) by (apply Z.mod_pos_bound; lia).
    split; [right; right; auto|]. split; [reflexivity|].
    destruct (enc_bits_tail (b mod 16) Rb) as (_ & T).
    rewrite T. reflexivity.
  - destruct IH as (S & Cnt & E).
    assert (Er : enc_run (a :: b :: c :: r) 0 0
                 = (a / 4 :: a mod 4 * 16 + b / 16
                    :: b mod 16 * 4 + c / 64 :: c mod 64
                    :: fst (fst (enc_run r 0 0)),
                    snd (fst (enc_run r 0 0)), snd (enc_run r 0 0))).
    { rewrite enc_run_cons.
      change (enc_step 0 0 a) with ([a / 4], a mod 4, 2). cbn [fst snd].
      rewrite enc_run_cons.
      change (enc_step (a mod 4) 2 b)
        with ([a mod 4 * 16 + b / 16], b mod 16, 4). cbn [fst snd].
      rewrite enc_run_cons.
      change (enc_step (b mod 16) 4 c)
        with ([b mod 16 * 4 + c / 64; c mod 64], 0, 0). cbn [fst snd].
      reflexivity. }
    rewrite Er. cbn [fst snd length map app b64].
    set (ys := fst (fst (enc_run r 0 0))) in *.
    split; [exact S|]. split.
    + repeat rewrite Nat2Z.inj_succ. lia.
    + rewrite <- E.
      replace (Z.to_nat
                 (4 * ((Z.of_nat (Datatypes.S (Datatypes.S (Datatypes.S
                                   (Datatypes.S (length ys))))) + 3) / 4)
                  - (Z.of_nat (Datatypes.S (Datatypes.S (Datatypes.S
                                (Datatypes.S (length ys))))) + 1)))
        with (Z.to_nat (4 * ((Z.of_nat (length ys) + 3) / 4)
                        - (Z.of_nat (length ys) + 1))).
      * reflexivity.
      * f_equal. repeat rewrite Nat2Z.inj_succ.
        Z.div_mod_to_equations. lia.
Qed.

(** With a buffer that has room and lies apart from the input, the
    encoder stores the encoding of the input and a NUL byte. *)
Lemma base64_encode_stores data len str slen bs h :
  holds h data bs -> Z.of_nat (length bs) = len ->
  str <> NULL -> 4 * ((len + 2) / 3) + 1 <= slen ->
  data + len <= str \/ str + slen <= data ->
  exists h',
    yields (base64_encode data len str slen) h
      (0, 4 * ((len + 2) / 3) + 1) h'
    /\ holds h' str (b64 bs ++ [0])
    /\ (forall a, ~ (str <= a < str + (4 * ((len + 2) / 3) + 1)) ->
        h' a = h a).
Proof.
  intros H Hl Ns Room D.
  pose proof (encode_loop_content data len str slen bs (Z.to_nat len) 0 0 0 0 h
                ltac:(left; auto)
                ltac:(replace (data + 0) with data by lia; exact H)
                ltac:(lia) ltac:(lia) ltac:(lia) ltac:(lia)
                ltac:(right; exact D)) as Y.
  destruct (enc_run_b64 bs) as (S & Cnt & E). cbv zeta in *.
  set (ys := fst (fst (enc_run bs 0 0))) in *.
  set (c := snd (fst (enc_run bs 0 0))) in *.
  set (cb := snd (enc_run bs 0 0)) in *.
  set (n := Z.of_nat (length ys)) in *.
  replace (0 + n) with n in Y by lia.
  assert (Hm : (cb = 0 /\ n mod 4 = 0) \/ (cb = 2 /\ n mod 4 = 1)
               \/ (cb = 4 /\ n mod 4 = 2)).
  { unfold enc_state in S. Z.div_mod_to_equations. lia. }
  pose proof (encode_finish str slen c cb n
                (put_list h str slen 0 (map b64char ys)) ltac:(lia) Hm) as F.
  cbv zeta in F.
  assert (E2 : 4 * ((n + 3) / 4) = 4 * ((len + 2) / 3)).
  { unfold enc_state in S. Z.div_mod_to_equations. lia. }
  rewrite E2 in F.
  destruct (Z.ltb_spec slen (4 * ((len + 2) / 3) + 1)); [lia|].
  set (tl := if cb >? 0
             then b64char (Z.land (Z.shiftl c (6 - cb)) 63)
                  :: repeat BASE64_PAD
                       (Z.to_nat (4 * ((len + 2) / 3) - (n + 1)))
             else []) in *.
  assert (Eh : put_list (put_list h str slen 0 (map b64char ys)) str slen n
                 (tl ++ [0])
               = put_list h str slen 0 (b64 bs ++ [0])).
  { rewrite <- E, E2. fold tl. rewrite <- app_assoc.
    rewrite (put_list_app (map b64char ys)), length_map. reflexivity. }
  rewrite Eh in F.
  exists (put_list h str slen 0 (b64 bs ++ [0])).
  split; [|split].
  - unfold base64_encode. ybind by (exact Y). exact F.
  - pose proof (put_list_holds (b64 bs ++ [0]) h str slen 0 Ns) as P.
    rewrite length_app, Nat2Z.inj_add, b64_length, Hl in P.
    replace (str + 0) with str in P by lia.
    rewrite map_uchar_id in P.
    + apply P. cbn [length]. lia.
    + apply Forall_app. split; [apply b64_range|].
      constructor; [lia|constructor].
  - intros a Ha. apply put_list_frame.
    rewrite length_app, Nat2Z.inj_add, b64_length, Hl. cbn [length]. lia.
Qed.

(** X23: with a buffer that has room and lies apart from the input,
    [base64_encode] answers 0 and stores the encoding of RFC 4648 of
    the input bytes (groups of three bytes as four characters of the
    alphabet, the last group padded with ['=']), [4 * ceil(len / 3)]
    characters, followed by a NUL byte; nothing else is written. *)
Theorem base64_encode_rfc4648 data len str slen bs h :
  holds h data bs -> Z.of_nat (length bs) = len -> len < 0x40000000 ->
  str <> NULL -> 4 * ((len + 2) / 3) + 1 <= slen ->
  data + len <= str \/ str + slen <= data ->
  exists h',
    yields (base64_encode data len str slen) h
      (0, Z.of_nat (length (b64 bs)) + 1) h'
    /\ Z.of_nat (length (b64 bs)) = 4 * ((len + 2) / 3)
    /\ holds h' str (b64 bs ++ [0])
    /\ (forall a, ~ (str <= a < str + Z.of_nat (length (b64 bs)) + 1) ->
        h' a = h a).
Proof.
  intros H Hl _ Ns Room D.
  destruct (base64_encode_stores data len str slen bs h H Hl Ns Room D)
    as (h' & Y & Hs & Fr).
  pose proof (b64_length bs) as L. rewrite Hl in L.
  exists h'. rewrite L. split; [exact Y|]. split; [reflexivity|].
  split; [exact Hs|]. intros a Ha. apply Fr. lia.
Qed.

(** The bytes "Ma" give "TWE=". *)
Lemma base64_encode_rfc4648_witness :
  exists h',
    yields (base64_encode 100 2 200 16) (heap_of 100 [77; 97])
      (0, Z.of_nat (length (b64 [77; 97])) + 1) h'
    /\ Z.of_nat (length (b64 [77; 97])) = 4 * ((2 + 2) / 3)
    /\ holds h' 200 (b64 [77; 97] ++ [0])
    /\ (forall a, ~ (200 <= a < 200 + Z.of_nat (length (b64 [77; 97])) + 1) ->
        h' a = heap_of 100 [77; 97] a).
Proof.
  apply (base64_encode_rfc4648 100 2 200 16 [77; 97] (heap_of 100 [77; 97])).
  - vm_compute; tauto.
  - reflexivity.
  - lia.
  - discriminate.
  - vm_compute. discriminate.
  - left. lia.
Defined.

(** ** The decoder loops *)

Lemma decode_flush_eq fuel data len c cbits j :
  decode_flush fuel data len c cbits j =
  if cbits >=? 8 then
    put_at data len j (Z.land (Z.shiftr c (cbits - 8)) 0xff);;;
    match fuel with
    | O => out_of_fuel
    | S k => decode_flush k data len (Z.land c (Z.shiftl 1 (cbits - 8) - 1))
               (cbits - 8) (j + 1)
    end
  else ret (c, cbits, j).
Proof. destruct fuel; reflexivity. Qed.

Lemma decode_flush_once k data len c cbits j h R hR :
  8 <= cbits ->
  yields (decode_flush k data len (Z.land c (Z.shiftl 1 (cbits - 8) - 1))
            (cbits - 8) (j + 1))
    (put_list h data len j [Z.land (Z.shiftr c (cbits - 8)) 0xff]) R hR ->
  yields (decode_flush (S k) data len c cbits j) h R hR.
Proof.
  intros H Y. rewrite decode_flush_eq.
  destruct (Z.geb_spec cbits 8); [|lia].
  ybind by (apply put_at_yields). exact Y.
Qed.

Lemma decode_flush_done k data len c cbits j h :
  cbits < 8 -> yields (decode_flush k data len c cbits j) h (c, cbits, j) h.
Proof.
  intros H. rewrite decode_flush_eq.
  destruct (Z.geb_spec cbits 8); [lia|]. apply yields_ret.
Qed.

(** One round of the decoder loop on a character of the alphabet: the
    bytes of [dec_step] are stored. *)
Lemma decode_body data len c cbits x j h :
  dec_state c cbits -> 0 <= x < 64 ->
  yields (decode_flush (Z.to_nat (cbits + 6)) data len
            (Z.lor (Z.shiftl c 6) x) (cbits + 6) j) h
    (snd (fst (dec_step c cbits x)), snd (dec_step c cbits x),
     j + Z.of_nat (length (fst (fst (dec_step c cbits x)))))
    (put_list h data len j (fst (fst (dec_step c cbits x)))).
Proof.
  intros [(-> & ->)|[(-> & Hc)|[(-> & Hc)|(-> & Hc)]]] Hx.
  - change (dec_step 0 0 x) with (@nil Z, x, 6).
    cbn [fst snd length put_list]. change (Z.of_nat 0) with 0.
    change (0 + 6) with 6. rewrite Z.shiftl_0_l, Z.lor_0_l.
    replace (j + 0) with j by lia. apply decode_flush_done. lia.
  - change (dec_step c 6 x) with ([c * 4 + x / 16], x mod 16, 4).
    cbn [fst snd length]. change (Z.of_nat 1) with 1.
    change (Z.to_nat (6 + 6)) with 12%nat. change (6 + 6) with 12.
    destruct (dec_bits c x ltac:(lia) Hx) as (B1 & B2 & _).
    apply decode_flush_once; [lia|]. change (12 - 8) with 4.
    rewrite B1, B2.
    rewrite (Z.mod_small (c * 4 + x / 16))
      by (Z.div_mod_to_equations; lia).
    apply decode_flush_done. lia.
  - change (dec_step c 4 x) with ([c * 16 + x / 4], x mod 4, 2).
    cbn [fst snd length]. change (Z.of_nat 1) with 1.
    change (Z.to_nat (4 + 6)) with 10%nat. change (4 + 6) with 10.
    destruct (dec_bits c x ltac:(lia) Hx) as (_ & _ & B1 & B2 & _).
    apply decode_flush_once; [lia|]. change (10 - 8) with 2.
    rewrite B1, B2.
    rewrite (Z.mod_small (c * 16 + x / 4))
      by (Z.div_mod_to_equations; lia).
    apply decode_flush_done. lia.
  - change (dec_step c 2 x) with ([c * 64 + x], 0, 0).
    cbn [fst snd length]. change (Z.of_nat 1) with 1.
    change (Z.to_nat (2 + 6)) with 8%nat. change (2 + 6) with 8.
    destruct (dec_bits c x ltac:(lia) Hx) as (_ & _ & _ & _ & B1 & B2).
    apply decode_flush_once; [lia|]. change (8 - 8) with 0.
    rewrite B1, B2.
    rewrite (Z.mod_small (c * 64 + x)) by lia.
    apply decode_flush_done. lia.
Qed.

Lemma dec_step_state c cbits x :
  dec_state c cbits -> 0 <= x < 64 ->
  dec_state (snd (fst (dec_step c cbits x))) (snd (dec_step c cbits x))
  /\ 6 + cbits
     = 8 * Z.of_nat (length (fst (fst (dec_step c cbits x))))
       + snd (dec_step c cbits x).
Proof.
  intros [(-> & ->)|[(-> & Hc)|[(-> & Hc)|(-> & Hc)]]] Hx.
  - change (dec_step 0 0 x) with (@nil Z, x, 6).
    cbn [fst snd length]. split; [|lia]. right; left. auto.
  - change (dec_step c 6 x) with ([c * 4 + x / 16], x mod 16, 4).
    cbn [fst snd length]. split; [|lia].
    right; right; left. split; [reflexivity|]. apply Z.mod_pos_bound. lia.
  - change (dec_step c 4 x) with ([c * 16 + x / 4], x mod 4, 2).
    cbn [fst snd length]. split; [|lia].
    right; right; right. split; [reflexivity|]. apply Z.mod_pos_bound. lia.
  - change (dec_step c 2 x) with ([c * 64 + x], 0, 0).
    cbn [fst snd length]. split; [|lia]. left. auto.
Qed.

Lemma decode_loop_eq fuel str slen data len i c cbits j :
  decode_loop fuel str slen data len i c cbits j =
  if i <? slen then
    ch <- load (str + i);;
    if base64_pos ch =? -1 then
      if ch =? BASE64_PAD then ret (c, cbits, j)
      else
        match fuel with
        | O => out_of_fuel
        | S k => decode_loop k str slen data len (i + 1) c cbits j
        end
    else
      '(c, cbits, j) <- decode_flush (Z.to_nat (cbits + 6)) data len
                          (Z.lor (Z.shiftl c 6) (base64_pos ch))
                          (cbits + 6) j;;
      match fuel with
      | O => out_of_fuel
      | S k => decode_loop k str slen data len (i + 1) c cbits j
      end
  else ret (c, cbits, j).
Proof. destruct fuel; reflexivity. Qed.

(** The decoder loop on any heap: it returns, eight bits are counted
    for every byte emitted out of six for every character read, and
    stores go to [data + j ..] below the limit only. *)
Lemma decode_loop_count str slen data len : forall fuel i c cbits j h,
  dec_state c cbits -> 0 <= i <= slen -> slen - i <= Z.of_nat fuel ->
  exists c' cb' j' h',
    yields (decode_loop fuel str slen data len i c cbits j) h (c', cb', j') h'
    /\ dec_state c' cb'
    /\ j <= j' /\ 8 * (j' - j) + cb' <= 6 * (slen - i) + cbits
    /\ (forall a, data = NULL \/ a < data + j \/ data + len <= a
                  \/ data + j' <= a -> h' a = h a).
Proof.
  induction fuel as [|fuel IH]; intros i c cbits j h S Hi Hf;
    rewrite decode_loop_eq;
    (destruct (Z.ltb_spec i slen);
     [|exists c, cbits, j, h; split; [apply yields_ret|];
       split; [exact S|]; split; [lia|]; split; [lia|reflexivity]]);
    try lia.
  pose proof (uchar_range (h (str + i))) as Hd.
  destruct (base64_pos_range _ Hd) as [E|(Rx & Np)].
  - rewrite <- (Z.eqb_eq _ (-1)) in E.
    destruct (Z.eqb_spec (uchar (h (str + i))) BASE64_PAD) as [P|P].
    + exists c, cbits, j, h. split.
      { yload. rewrite E, (proj2 (Z.eqb_eq _ _) P). apply yields_ret. }
      split; [exact S|]. split; [lia|]. split; [|reflexivity].
      unfold dec_state in S. lia.
    + destruct (IH (i + 1) c cbits j h S) as (c' & cb' & j' & h' & Y & R);
        try lia.
      exists c', cb', j', h'. split.
      { yload. rewrite E, (proj2 (Z.eqb_neq _ _) P). exact Y. }
      destruct R as (S' & Hj & Cnt & Fr). repeat split; try assumption; lia.
  - assert (E : (base64_pos (uchar (h (str + i))) =? -1) = false)
      by (apply Z.eqb_neq; lia).
    pose proof (decode_body data len c cbits _ j h S Rx) as Yb.
    destruct (dec_step_state c cbits _ S Rx) as (S1 & Cnt).
    set (st := dec_step c cbits (base64_pos (uchar (h (str + i))))) in *.
    destruct (IH (i + 1) (snd (fst st)) (snd st)
                (j + Z.of_nat (length (fst (fst st))))
                (put_list h data len j (fst (fst st))) S1)
      as (c' & cb' & j' & h' & Y & S' & Hj & Cnt' & Fr); try lia.
    exists c', cb', j', h'.
    split; [|split; [exact S'|split; [lia|split; [lia|]]]].
    + yload. rewrite E. ybind by (exact Yb). exact Y.
    + intros a Ha. rewrite Fr by lia. apply put_list_frame. lia.
Qed.

(** X24: [base64_decode] returns on every input (of less than 2^31
    characters).  The length it
    reports in [*len] is at most three quarters of the number of
    characters given; it answers 1 exactly when the [*len] passed in is
    smaller than the length it reports.  It stores only below index
    [*len] of [data], and nothing at all when [data] is NULL. *)
Theorem base64_decode_size str slen data len h :
  0 <= slen < 0x80000000 -> 0 <= len ->
  exists r n h',
    yields (base64_decode str slen data len) h (r, n) h'
    /\ 0 <= n /\ 4 * n <= 3 * slen
    /\ r = (if len <? n then 1 else 0)
    /\ (forall a, data = NULL \/ a < data \/ data + len <= a
                  \/ data + n <= a -> h' a = h a).
Proof.
  intros Hs _.
  destruct (decode_loop_count str slen data len (Z.to_nat slen) 0 0 0 0 h)
    as (c & cb & j & h' & Y & S & Hj & Cnt & Fr); [left; auto|lia|lia|].
  exists (if len <? j then 1 else 0), j, h'.
  split; [|split; [lia|split; [|split; [reflexivity|]]]].
  - unfold base64_decode. ybind by (exact Y).
    destruct (len <? j); apply yields_ret.
  - unfold dec_state in S. lia.
  - intros a Ha. apply Fr. lia.
Qed.

(** The characters "TWE=" and no buffer. *)
Lemma base64_decode_size_witness :
  exists r n h',
    yields (base64_decode 100 4 NULL 0) (heap_of 100 [84; 87; 69; 61])
      (r, n) h'
    /\ 0 <= n /\ 4 * n <= 3 * 4
    /\ r = (if 0 <? n then 1 else 0)
    /\ (forall a, NULL = NULL \/ a < NULL \/ NULL + 0 <= a
                  \/ NULL + n <= a -> h' a = heap_of 100 [84; 87; 69; 61] a).
Proof.
  apply (base64_decode_size 100 4 NULL 0 (heap_of 100 [84; 87; 69; 61])); lia.
Defined.

(** ** What the decoder stores *)

(** The decoder loop over characters that lie apart from the output:
    the bytes stored are those of [dec_run]. *)
Lemma decode_loop_content str slen data len : forall cs fuel i c cbits j h,
  dec_state c cbits -> holds h (str + i) cs ->
  Z.of_nat (length cs) = slen - i -> 0 <= i -> 0 <= j ->
  (length cs <= fuel)%nat ->
  data = NULL \/ str + slen <= data \/ data + len <= str ->
  exists c' cb',
    yields (decode_loop fuel str slen data len i c cbits j) h
      (c', cb', j + Z.of_nat (length (dec_run cs c cbits)))
      (put_list h data len j (dec_run cs c cbits)).
Proof.
  induction cs as [|ch r IH]; intros fuel i c cbits j h S H Hl Hi Hj Hf D;
    rewrite decode_loop_eq.
  - cbn [length] in Hl. destruct (Z.ltb_spec i slen); [lia|].
    exists c, cbits. cbn [dec_run length put_list].
    replace (j + Z.of_nat 0) with j by lia. apply yields_ret.
  - cbn [length] in Hl, Hf. destruct (Z.ltb_spec i slen); [|lia].
    destruct H as (Hd & Hr).
    pose proof (uchar_range (h (str + i))) as Rd. rewrite Hd in Rd.
    destruct fuel as [|fuel]; [lia|].
    cbn [dec_run].
    destruct (base64_pos_range _ Rd) as [E|(Rx & Np)].
    + rewrite E. change (-1 =? -1) with true. cbv iota.
      destruct (Z.eqb_spec ch BASE64_PAD) as [P|P].
      * exists c, cbits. cbn [length put_list].
        replace (j + Z.of_nat 0) with j by lia.
        yload. rewrite Hd, E, (proj2 (Z.eqb_eq _ _) P).
        change (-1 =? -1) with true. cbv iota. apply yields_ret.
      * destruct (IH fuel (i + 1) c cbits j h S) as (c' & cb' & Y);
          try assumption; try lia.
        { replace (str + (i + 1)) with (str + i + 1) by lia. exact Hr. }
        exists c', cb'.
        yload. rewrite Hd, E, (proj2 (Z.eqb_neq _ _) P).
        change (-1 =? -1) with true. cbv iota. exact Y.
    + assert (E : (base64_pos ch =? -1) = false) by (apply Z.eqb_neq; lia).
      rewrite E.
      pose proof (decode_body data len c cbits _ j h S Rx) as Yb.
      destruct (dec_step_state c cbits _ S Rx) as (S1 & _).
      destruct (dec_step c cbits (base64_pos ch)) as [[ys c1] cb1] eqn:Es.
      cbn [fst snd] in *.
      destruct (IH fuel (i + 1) c1 cb1 (j + Z.of_nat (length ys))
                  (put_list h data len j ys) S1) as (c' & cb' & Y);
        try assumption; try lia.
      { apply (holds_shift h _ (str + i + 1)); [|exact Hr].
        intros k Hk. rewrite put_list_frame; [f_equal; f_equal; lia|]. lia. }
      exists c', cb'.
      rewrite put_list_app, length_app, Nat2Z.inj_add, Z.add_assoc.
      yload. rewrite Hd, E. ybind by (exact Yb). exact Y.
Qed.

(** ** Decoding what was encoded *)

Lemma dec_run_char y r c cb :
  0 <= y < 64 ->
  dec_run (b64char y :: r) c cb
  = fst (fst (dec_step c cb y))
    ++ dec_run r (snd (fst (dec_step c cb y))) (snd (dec_step c cb y)).
Proof.
  intros Hy. destruct (b64char_pos y Hy) as (P & _).
  cbn [dec_run]. rewrite P.
  destruct (Z.eqb_spec y (-1)); [lia|].
  destruct (dec_step c cb y) as [[ys c1] cb1]. reflexivity.
Qed.

Lemma dec_run_pad r c cb : dec_run (BASE64_PAD :: r) c cb = [].
Proof. reflexivity. Qed.

(** Characters outside the alphabet add nothing. *)
Lemma dec_run_rest rest : forall c cb,
  Forall (fun ch => base64_pos ch = -1) rest -> dec_run rest c cb = [].
Proof.
  induction rest as [|ch r IH]; intros c cb F; [reflexivity|].
  inversion F as [|x xs E F']; subst x xs.
  cbn [dec_run]. rewrite E. change (-1 =? -1) with true. cbv iota.
  destruct (ch =? BASE64_PAD); [reflexivity|]. apply IH. exact F'.
Qed.

(** The decoder run over the encoding of [bs] gives [bs] back. *)
Lemma dec_run_b64 rest :
  Forall (fun ch => base64_pos ch = -1) rest ->
  forall bs, Forall (fun b => 0 <= b < 256) bs ->
  dec_run (b64 bs ++ rest) 0 0 = bs.
Proof.
  intros Fr bs.
  induction bs as [|a|a b|a b c r IH] using list_ind3; intros F.
  - cbn [b64 app]. apply dec_run_rest. exact Fr.
  - inversion F as [|x xs Ra _]; subst x xs.
    cbn [b64 app].
    rewrite dec_run_char by (Z.div_mod_to_equations; lia).
    change (dec_step 0 0 (a / 4)) with (@nil Z, a / 4, 6). cbn [fst snd app].
    rewrite dec_run_char by (Z.div_mod_to_equations; lia).
    change (dec_step (a / 4) 6 (a mod 4 * 16))
      with ([a / 4 * 4 + a mod 4 * 16 / 16], a mod 4 * 16 mod 16, 4).
    cbn [fst snd app]. rewrite dec_run_pad.
    f_equal. Z.div_mod_to_equations. lia.
  - inversion F as [|x xs Ra F1]; subst x xs.
    inversion F1 as [|x xs Rb _]; subst x xs.
    cbn [b64 app].
    rewrite dec_run_char by (Z.div_mod_to_equations; lia).
    change (dec_step 0 0 (a / 4)) with (@nil Z, a / 4, 6). cbn [fst snd app].
    rewrite dec_run_char by (Z.div_mod_to_equations; lia).
    change (dec_step (a / 4) 6 (a mod 4 * 16 + b / 16))
      with ([a / 4 * 4 + (a mod 4 * 16 + b / 16) / 16],
            (a mod 4 * 16 + b / 16) mod 16, 4).
    cbn [fst snd app].
    rewrite dec_run_char by (Z.div_mod_to_equations; lia).
    change (dec_step ((a mod 4 * 16 + b / 16) mod 16) 4 (b mod 16 * 4))
      with ([(a mod 4 * 16 + b / 16) mod 16 * 16 + b mod 16 * 4 / 4],
            b mod 16 * 4 mod 4, 2).
    cbn [fst snd app]. rewrite dec_run_pad.
    f_equal; [|f_equal]; Z.div_mod_to_equations; lia.
  - inversion F as [|x xs Ra F1]; subst x xs.
    inversion F1 as [|x xs Rb F2]; subst x xs.
    inversion F2 as [|x xs Rc F3]; subst x xs.
    cbn [b64 app].
    rewrite dec_run_char by (Z.div_mod_to_equations; lia).
    change (dec_step 0 0 (a / 4)) with (@nil Z, a / 4, 6). cbn [fst snd app].
    rewrite dec_run_char by (Z.div_mod_to_equations; lia).
    change (dec_step (a / 4) 6 (a mod 4 * 16 + b / 16))
      with ([a / 4 * 4 + (a mod 4 * 16 + b / 16) / 16],
            (a mod 4 * 16 + b / 16) mod 16, 4).
    cbn [fst snd app].
    rewrite dec_run_char by (Z.div_mod_to_equations; lia).
    change (dec_step ((a mod 4 * 16 + b / 16) mod 16) 4
              (b mod 16 * 4 + c / 64))
      with ([(a mod 4 * 16 + b / 16) mod 16 * 16
             + (b mod 16 * 4 + c / 64) / 4],
            (b mod 16 * 4 + c / 64) mod 4, 2).
    cbn [fst snd app].
    rewrite dec_run_char by (Z.div_mod_to_equations; lia).
    change (dec_step ((b mod 16 * 4 + c / 64) mod 4) 2 (c mod 64))
      with ([(b mod 16 * 4 + c / 64) mod 4 * 64 + c mod 64], 0, 0).
    cbn [fst snd app]. rewrite (IH F3).
    f_equal; [|f_equal; [|f_equal]]; Z.div_mod_to_equations; lia.
Qed.

Lemma holds_range h p bs : holds h p bs -> Forall (fun b => 0 <= b < 256) bs.
Proof.
  revert p. induction bs as [|b bs IH]; intros p H; [constructor|].
  destruct H as (H0 & H). constructor; [|apply (IH _ H)].
  rewrite <- H0. apply uchar_range.
Qed.

(** [base64_decode] over the encoding of [bs], followed by characters
    outside the alphabet. *)
Lemma base64_decode_b64 str slen data len bs rest h :
  holds h str (b64 bs ++ rest) ->
  Z.of_nat (length (b64 bs ++ rest)) = slen ->
  Forall (fun ch => base64_pos ch = -1) rest ->
  Forall (fun b => 0 <= b < 256) bs ->
  data <> NULL -> Z.of_nat (length bs) <= len ->
  str + slen <= data \/ data + len <= str ->
  exists h',
    yields (base64_decode str slen data len) h (0, Z.of_nat (length bs)) h'
    /\ holds h' data bs
    /\ (forall a, ~ (data <= a < data + Z.of_nat (length bs)) -> h' a = h a).
Proof.
  intros H Hl Fr Fb Nd Room D.
  destruct (decode_loop_content str slen data len (b64 bs ++ rest)
              (Z.to_nat slen) 0 0 0 0 h ltac:(left; auto)
              ltac:(replace (str + 0) with str by lia; exact H)
              ltac:(lia) ltac:(lia) ltac:(lia) ltac:(lia)
              ltac:(right; exact D)) as (c' & cb' & Y).
  rewrite (dec_run_b64 rest Fr bs Fb) in Y.
  exists (put_list h data len 0 bs). split; [|split].
  - unfold base64_decode. ybind by (exact Y).
    destruct (Z.ltb_spec len (0 + Z.of_nat (length bs))); [lia|].
    apply yields_ret.
  - pose proof (put_list_holds bs h data len 0 Nd ltac:(lia)) as P.
    replace (data + 0) with data in P by lia.
    rewrite (map_uchar_id bs Fb) in P. exact P.
  - intros a Ha. apply put_list_frame. lia.
Qed.

(** X25: decoding what was encoded gives the input back.  With
    buffers that have room and lie apart, [base64_encode] answers 0 and
    reports a length [n]; [base64_decode] over these [n] characters
    (the terminator included) or over [n - 1] (without it) answers 0,
    reports the input length and stores the input bytes. *)
Theorem base64_round_trip data len str slen out olen bs h :
  holds h data bs -> Z.of_nat (length bs) = len -> len < 0x40000000 ->
  str <> NULL -> out <> NULL ->
  4 * ((len + 2) / 3) + 1 <= slen -> len <= olen ->
  data + len <= str \/ str + slen <= data ->
  str + slen <= out \/ out + olen <= str ->
  exists n h1,
    yields (base64_encode data len str slen) h (0, n) h1
    /\ n = 4 * ((len + 2) / 3) + 1
    /\ (exists h2,
          yields (base64_decode str n out olen) h1 (0, len) h2
          /\ holds h2 out bs)
    /\ (exists h2,
          yields (base64_decode str (n - 1) out olen) h1 (0, len) h2
          /\ holds h2 out bs).
Proof.
  intros H Hl _ Ns No Room Oroom D D'.
  destruct (base64_encode_stores data len str slen bs h H Hl Ns Room D)
    as (h1 & Y & Hs & _).
  pose proof (b64_length bs) as L. rewrite Hl in L.
  pose proof (holds_range _ _ _ H) as Fb.
  exists (4 * ((len + 2) / 3) + 1), h1.
  split; [exact Y|]. split; [reflexivity|]. split.
  - destruct (base64_decode_b64 str (4 * ((len + 2) / 3) + 1) out olen bs [0] h1)
      as (h2 & Y2 & H2 & _); try assumption; try lia.
    + rewrite length_app, Nat2Z.inj_add, L. reflexivity.
    + constructor; [reflexivity|constructor].
    + exists h2. rewrite Hl in Y2. auto.
  - destruct (base64_decode_b64 str (4 * ((len + 2) / 3) + 1 - 1) out olen bs
                [] h1) as (h2 & Y2 & H2 & _); try assumption; try lia.
    + rewrite app_nil_r. apply holds_app in Hs. apply Hs.
    + rewrite app_nil_r, L. lia.
    + constructor.
    + exists h2. rewrite Hl in Y2. auto.
Qed.

(** Five bytes, encoded into 16 bytes at 200 and decoded into 8 bytes
    at 300. *)
Lemma base64_round_trip_witness :
  exists n h1,
    yields (base64_encode 100 5 200 16) (heap_of 100 [1; 2; 253; 254; 255])
      (0, n) h1
    /\ n = 4 * ((5 + 2) / 3) + 1
    /\ (exists h2,
          yields (base64_decode 200 n 300 8) h1 (0, 5) h2
          /\ holds h2 300 [1; 2; 253; 254; 255])
    /\ (exists h2,
          yields (base64_decode 200 (n - 1) 300 8) h1 (0, 5) h2
          /\ holds h2 300 [1; 2; 253; 254; 255]).
Proof.
  apply (base64_round_trip 100 5 200 16 300 8 [1; 2; 253; 254; 255]
           (heap_of 100 [1; 2; 253; 254; 255])).
  - vm_compute; tauto.
  - reflexivity.
  - lia.
  - discriminate.
  - discriminate.
  - vm_compute. discriminate.
  - lia.
  - left. lia.
  - left. lia.
Defined.

(** ** Characters that the decoder passes over *)

Lemma dec_run_text cs : forall c cb,
  dec_run cs c cb = dec_run (b64_text cs) c cb.
Proof.
  induction cs as [|ch r IH]; intros c cb; [reflexivity|].
  cbn [dec_run b64_text].
  destruct (base64_pos ch =? -1) eqn:E.
  - destruct (ch =? BASE64_PAD); [reflexivity|apply IH].
  - cbn [dec_run]. rewrite E.
    destruct (dec_step c cb (base64_pos ch)) as [[ys c1] cb1].
    rewrite IH. reflexivity.
Qed.

Lemma put_list_at xs : forall h p lim j k,
  p <> NULL -> 0 <= k < Z.of_nat (length xs) -> j + k < lim ->
  put_list h p lim j xs (p + j + k) = uchar (nth (Z.to_nat k) xs 0).
Proof.
  induction xs as [|x xs IH]; intros h p lim j k Np Hk Hl;
    cbn [length] in Hk; [lia|].
  cbn [put_list].
  destruct (Z.eqb_spec p NULL) as [E|E]; [contradiction|]. cbn [negb andb].
  destruct (Z.eq_dec k 0) as [->|Nk].
  - rewrite put_list_frame by lia.
    destruct (Z.ltb_spec j lim); [|lia].
    rewrite upd_same by lia. reflexivity.
  - replace (p + j + k) with (p + (j + 1) + (k - 1)) by lia.
    rewrite IH by lia.
    replace (Z.to_nat k) with (S (Z.to_nat (k - 1))) by lia. reflexivity.
Qed.

(** X26: [base64_decode] takes into account only the characters of
    the alphabet that come before the first ['=']: characters outside
    the alphabet (line breaks, blanks, NUL) are passed over and what
    follows the first ['='] is not read.  Two texts that agree on these
    characters give the same answer, the same length and the same
    bytes. *)
Theorem base64_decode_reads_alphabet_only
  str slen cs h str' slen' cs' h' data len :
  holds h str cs -> Z.of_nat (length cs) = slen ->
  holds h' str' cs' -> Z.of_nat (length cs') = slen' ->
  slen < 0x80000000 -> slen' < 0x80000000 ->
  b64_text cs = b64_text cs' ->
  data = NULL \/ str + slen <= data \/ data + len <= str ->
  data = NULL \/ str' + slen' <= data \/ data + len <= str' ->
  exists r n h1 h1',
    yields (base64_decode str slen data len) h (r, n) h1
    /\ yields (base64_decode str' slen' data len) h' (r, n) h1'
    /\ (data <> NULL ->
        forall k, 0 <= k < n -> k < len -> h1 (data + k) = h1' (data + k)).
Proof.
  intros H Hl H' Hl' _ _ T D D'.
  destruct (decode_loop_content str slen data len cs (Z.to_nat slen) 0 0 0 0 h
              ltac:(left; auto)
              ltac:(replace (str + 0) with str by lia; exact H)
              ltac:(lia) ltac:(lia) ltac:(lia) ltac:(lia) D)
    as (c1 & cb1 & Y).
  destruct (decode_loop_content str' slen' data len cs' (Z.to_nat slen')
              0 0 0 0 h' ltac:(left; auto)
              ltac:(replace (str' + 0) with str' by lia; exact H')
              ltac:(lia) ltac:(lia) ltac:(lia) ltac:(lia) D')
    as (c2 & cb2 & Y').
  rewrite (dec_run_text cs) in Y. rewrite (dec_run_text cs'), <- T in Y'.
  set (out := dec_run (b64_text cs) 0 0) in *.
  exists (if len <? 0 + Z.of_nat (length out) then 1 else 0),
         (Z.of_nat (length out)),
         (put_list h data len 0 out), (put_list h' data len 0 out).
  split; [|split].
  - unfold base64_decode. ybind by (exact Y).
    destruct (len <? 0 + Z.of_nat (length out)); apply yields_ret.
  - unfold base64_decode. ybind by (exact Y').
    destruct (len <? 0 + Z.of_nat (length out)); apply yields_ret.
  - intros Nd k Hk Hlen.
    replace (data + k) with (data + 0 + k) by lia.
    rewrite !put_list_at by (try assumption; lia). reflexivity.
Qed.

(** "TWE=" and the same text broken over two lines, with something
    after the pad character. *)
Lemma base64_decode_reads_alphabet_only_witness :
  exists r n h1 h1',
    yields (base64_decode 100 4 300 8) (heap_of 100 [84; 87; 69; 61])
      (r, n) h1
    /\ yields (base64_decode 200 7 300 8)
         (heap_of 200 [84; 87; 13; 10; 69; 61; 65]) (r, n) h1'
    /\ (300 <> NULL ->
        forall k, 0 <= k < n -> k < 8 -> h1 (300 + k) = h1' (300 + k)).
Proof.
  apply (base64_decode_reads_alphabet_only
           100 4 [84; 87; 69; 61] (heap_of 100 [84; 87; 69; 61])
           200 7 [84; 87; 13; 10; 69; 61; 65]
           (heap_of 200 [84; 87; 13; 10; 69; 61; 65]) 300 8).
  - vm_compute; tauto.
  - reflexivity.
  - vm_compute; tauto.
  - reflexivity.
  - lia.
  - lia.
  - reflexivity.
  - right. left. lia.
  - right. left. lia.
Defined.
